(** * Zero-shot portfolio selection: a shallow embedding of
    [autogluon_zeroshot/simulation/config_generator.py].

    Configurations are strings.  A portfolio entry is an [option config]:
    [None] is Python's [None], which [_select_sequential] returns when no
    candidate beats its initial sentinel, and which [select_zeroshot_configs]
    then appends to the portfolio.  Scores (average ranks / errors) are
    modelled as integers [Z]: the algorithms only compare and add them. *)

From Stdlib Require Import List String ZArith Lia Bool Permutation Sorting.
Import ListNotations.
Open Scope Z_scope.

Definition config := string.
Definition entry := option config.

Definition entry_eqb (a b : entry) : bool :=
  match a, b with
  | None, None => true
  | Some x, Some y => String.eqb x y
  | _, _ => false
  end.

Definition entry_eq_dec (a b : entry) : {a = b} + {a <> b}.
Proof. decide equality. apply string_dec. Defined.

(** Python's [x in l]. *)
Definition py_in (x : entry) (l : list entry) : bool := existsb (entry_eqb x) l.

(** The configuration list scorer: [score(configs) -> float]. *)
Definition scorer := list entry -> Z.

(** A tiny error monad: [None] is an uncaught Python exception. *)
Notation "'let*' x ':=' c 'in' k" :=
  (match c with Some x => k | None => None end)
  (at level 200, x pattern, c at level 100, k at level 200).

(** ** Forward selection: the two selectors *)

(** [_select_sequential]: the loop with [best_next_config = None] and the
    sentinel [best_score = 999999999]. *)
Definition sentinel : Z := 999999999.

Fixpoint select_sequential_loop (config_scorer : scorer) (prior_configs : list entry)
    (configs : list config) (best_next_config : entry) (best_score : Z) : entry * Z :=
  match configs with
  | [] => (best_next_config, best_score)
  | config :: rest =>
      let config_score := config_scorer (prior_configs ++ [Some config]) in
      if config_score <? best_score
      then select_sequential_loop config_scorer prior_configs rest (Some config) config_score
      else select_sequential_loop config_scorer prior_configs rest best_next_config best_score
  end.

Definition _select_sequential (configs : list config) (prior_configs : list entry)
    (config_scorer : scorer) : option (entry * Z) :=
  Some (select_sequential_loop config_scorer prior_configs configs None sentinel).

(** [score_config_ray]: [config_scorer.score(existing_configs + [new_config])]. *)
Definition score_config_ray (config_scorer : scorer) (existing_configs : list entry)
    (new_config : config) : Z :=
  config_scorer (existing_configs ++ [Some new_config]).

(** Python's builtin [min]: keeps the first element and replaces it only by a
    strictly smaller one; raises [ValueError] on an empty list. *)
Fixpoint py_min_from (acc : Z) (l : list Z) : Z :=
  match l with
  | [] => acc
  | x :: r => py_min_from (if x <? acc then x else acc) r
  end.

Definition py_min (l : list Z) : option Z :=
  match l with
  | [] => None
  | x :: r => Some (py_min_from x r)
  end.

(** Python's [list.index]: first position holding an equal value; raises
    [ValueError] when absent. *)
Fixpoint py_index (x : Z) (l : list Z) : option nat :=
  match l with
  | [] => None
  | y :: r => if y =? x then Some O else option_map S (py_index x r)
  end.

(** [_select_ray]: one remote task per candidate, [ray.get] returns the
    results in submission order. *)
Definition _select_ray (configs : list config) (prior_configs : list entry)
    (config_scorer : scorer) : option (entry * Z) :=
  let result := map (score_config_ray config_scorer prior_configs) configs in
  let* m := py_min result in
  let* result_idx_min := py_index m result in
  let* best_next_config := nth_error configs result_idx_min in
  let* best_score := nth_error result result_idx_min in
  Some (Some best_next_config, best_score).

Definition selector := list config -> list entry -> scorer -> option (entry * Z).

(** [self.backend == 'ray'] chooses [_select_ray], anything else
    [_select_sequential]; [ray.put] only changes how the scorer is shipped. *)
Definition selector_of (backend : string) : selector :=
  if String.eqb backend "ray" then _select_ray else _select_sequential.

(** ** Backward pruning *)

(** [[c for c in zeroshot_configs if c != config]] *)
Definition remove_all (x : entry) (l : list entry) : list entry :=
  filter (fun c => negb (entry_eqb c x)) l.

(** Python's [list.remove]: drops the first occurrence, raises [ValueError]
    when there is none. *)
Fixpoint py_remove (x : entry) (l : list entry) : option (list entry) :=
  match l with
  | [] => None
  | y :: r => if entry_eqb y x then Some r else option_map (cons y) (py_remove x r)
  end.

(** The inner [for config in zeroshot_configs] loop of one pruning round.
    [best_remove_config] is an entry: the test [best_remove_config is None]
    is the match below. *)
Fixpoint prune_scan (config_scorer : scorer) (removal_threshold : Z)
    (zeroshot_configs : list entry) (cands : list entry)
    (best_score : Z) (best_remove_config : entry) : Z * entry :=
  match cands with
  | [] => (best_score, best_remove_config)
  | config :: rest =>
      let config_score := config_scorer (remove_all config zeroshot_configs) in
      match best_remove_config with
      | None =>
          if config_score <=? best_score + removal_threshold
          then prune_scan config_scorer removal_threshold zeroshot_configs rest config_score config
          else prune_scan config_scorer removal_threshold zeroshot_configs rest best_score best_remove_config
      | Some _ =>
          if config_score <=? best_score
          then prune_scan config_scorer removal_threshold zeroshot_configs rest config_score config
          else prune_scan config_scorer removal_threshold zeroshot_configs rest best_score best_remove_config
      end
  end.

(** One round: [best_remove_config = None] and the scan over the portfolio. *)
Definition prune_round (config_scorer : scorer) (removal_threshold : Z)
    (zeroshot_configs : list entry) (best_score : Z) : Z * entry :=
  prune_scan config_scorer removal_threshold zeroshot_configs zeroshot_configs best_score None.

(** The [while not finished_removal] loop; [best_score] is carried from one
    round to the next.  Every removing round shortens the list, so
    [S (length zeroshot_configs)] rounds suffice; running out of fuel is
    [None] and is shown unreachable below. *)
Fixpoint prune_loop (config_scorer : scorer) (removal_threshold : Z) (fuel : nat)
    (zeroshot_configs : list entry) (best_score : Z) : option (list entry) :=
  match fuel with
  | O => None
  | S fuel' =>
      let (best_score', best_remove_config) :=
        prune_round config_scorer removal_threshold zeroshot_configs best_score in
      match best_remove_config with
      | Some _ =>
          let* zeroshot_configs' := py_remove best_remove_config zeroshot_configs in
          prune_loop config_scorer removal_threshold fuel' zeroshot_configs' best_score'
      | None => Some zeroshot_configs
      end
  end.

(** [prune_zeroshot_configs]: [copy.deepcopy] is the identity on values;
    [best_score = self.config_scorer.score(zeroshot_configs)]. *)
Definition prune_zeroshot_configs (config_scorer : scorer) (zeroshot_configs : list entry)
    (removal_threshold : Z) : option (list entry) :=
  prune_loop config_scorer removal_threshold (S (List.length zeroshot_configs))
    zeroshot_configs (config_scorer zeroshot_configs).

(** ** [ZeroshotConfigGenerator.select_zeroshot_configs] *)

Record ZeroshotConfigGenerator := mkGenerator {
  gen_config_scorer : scorer;
  all_configs : list config;
  backend : string
}.

(** [[c for c in self.all_configs if c not in zeroshot_configs]] *)
Definition valid_configs_of (all : list config) (zeroshot_configs : list entry) : list config :=
  filter (fun c => negb (py_in (Some c) zeroshot_configs)) all.

(** The [while len(zeroshot_configs) < num_zeroshot] loop.  Besides the
    portfolio it returns the lists handed to the scorer by the selector, in
    order (both selectors score [zeroshot_configs + [c]] for every valid
    [c]).  [config_scorer_test] only feeds a printed message and is left
    out.  Each iteration appends one entry, so [S (Z.to_nat num_zeroshot)]
    iterations suffice; running out of fuel is [None]. *)
Fixpoint forward_loop (sel : selector) (sc : scorer) (all : list config)
    (num_zeroshot : Z) (fuel : nat) (zeroshot_configs : list entry)
    (calls : list (list entry)) : option (list entry * list (list entry)) :=
  match fuel with
  | O => None
  | S fuel' =>
      if Z.of_nat (List.length zeroshot_configs) <? num_zeroshot then
        match valid_configs_of all zeroshot_configs with
        | [] => Some (zeroshot_configs, calls)
        | valid_configs =>
            let* (best_next_config, _) := sel valid_configs zeroshot_configs sc in
            forward_loop sel sc all num_zeroshot fuel'
              (zeroshot_configs ++ [best_next_config])
              (calls ++ map (fun c => zeroshot_configs ++ [Some c]) valid_configs)
        end
      else Some (zeroshot_configs, calls)
  end.

(** The whole method; [zeroshot_configs = None] becomes [[]], otherwise a
    deep copy (the identity on values); the removal stage calls
    [prune_zeroshot_configs] with [self.config_scorer]. *)
Definition select_zeroshot_configs_traced (g : ZeroshotConfigGenerator) (num_zeroshot : Z)
    (zeroshot_configs : option (list entry)) (removal_stage : bool) (removal_threshold : Z)
    : option (list entry * list (list entry)) :=
  let zs := match zeroshot_configs with None => [] | Some l => l end in
  let* (zs', calls) :=
    forward_loop (selector_of (backend g)) (gen_config_scorer g) (all_configs g)
      num_zeroshot (S (Z.to_nat num_zeroshot)) zs [] in
  if removal_stage then
    let* pruned := prune_zeroshot_configs (gen_config_scorer g) zs' removal_threshold in
    Some (pruned, calls)
  else Some (zs', calls).

Definition select_zeroshot_configs (g : ZeroshotConfigGenerator) (num_zeroshot : Z)
    (zeroshot_configs : option (list entry)) (removal_stage : bool) (removal_threshold : Z)
    : option (list entry) :=
  option_map fst (select_zeroshot_configs_traced g num_zeroshot zeroshot_configs
                    removal_stage removal_threshold).

(** A scorer that rates every list at the sentinel value. *)
Definition flat_scorer : scorer := fun _ => sentinel.

(** ** Reference argmin: the first candidate of minimal score *)

(** "Select the candidate with strictly minimal score; ties broken by first
    occurrence": the specification's selection rule, to compare the two
    selectors with. *)
Fixpoint argmin_first (f : config -> Z) (l : list config) : option (config * Z) :=
  match l with
  | [] => None
  | c :: r =>
      match argmin_first f r with
      | None => Some (c, f c)
      | Some (c', s') => if f c <=? s' then Some (c, f c) else Some (c', s')
      end
  end.

(** A scorer under which "B" is the best candidate, with every score at or
    above the sentinel. *)
Definition high_scorer : scorer :=
  fun l => if py_in (Some "B"%string) l then sentinel else sentinel + 5.

(** Scorers rating a list by its length only. *)
Definition len_scorer (v0 v1 v2 : Z) : scorer :=
  fun l => match l with [] => v0 | [_] => v1 | _ => v2 end.

(** The states at the start of the rounds of [prune_loop] started from
    [(zs0, bs0)]: a round that picks [x] leads to the list without the first
    [x] and to the carried [best_score]. *)
Inductive prune_reach (sc : scorer) (removal_threshold : Z) (zs0 : list entry) (bs0 : Z)
    : list entry -> Z -> Prop :=
| prune_reach_init : prune_reach sc removal_threshold zs0 bs0 zs0 bs0
| prune_reach_step zs bs bs' x zs' :
    prune_reach sc removal_threshold zs0 bs0 zs bs ->
    prune_round sc removal_threshold zs bs = (bs', Some x) ->
    py_remove (Some x) zs = Some zs' ->
    prune_reach sc removal_threshold zs0 bs0 zs' bs'.

(** ** [ZeroshotConfigGeneratorCV] *)

(** The configuration list scorer with its dataset scope: [datasets] and
    [subset(datasets=X)], whose [score] is [scorer_on X]. *)
Record ConfigurationListScorer := mkListScorer {
  scorer_datasets : list string;
  scorer_on : list string -> scorer
}.

Definition subset (sc : ConfigurationListScorer) (datasets : list string) : scorer :=
  scorer_on sc datasets.

(** Parent dataset ids ([tid]s) are Python ints. *)
Definition tid := Z.

Fixpoint map_option {A B : Type} (f : A -> option B) (l : list A) : option (list B) :=
  match l with
  | [] => Some []
  | x :: r => let* y := f x in let* ys := map_option f r in Some (y :: ys)
  end.

(** Python's [sorted]: a stable insertion sort. *)
Fixpoint insert_by {A : Type} (le : A -> A -> bool) (x : A) (l : list A) : list A :=
  match l with
  | [] => [x]
  | y :: r => if le x y then x :: l else y :: insert_by le x r
  end.

Definition sorted_by {A : Type} (le : A -> A -> bool) (l : list A) : list A :=
  fold_right (insert_by le) [] l.

Record ZeroshotConfigGeneratorCV := mkCV {
  n_splits : nat;
  cv_backend : string;
  cv_config_scorer : ConfigurationListScorer;
  unique_datasets : list tid;
  dataset_parent_to_fold_map : tid -> list string;
  cv_configs : list config
}.

(** [ZeroshotConfigGeneratorCV.__init__]: [assert n_splits >= 2]; a dataset
    missing from [dataset_name_to_tid_dict] raises [KeyError]; the parents
    go through a set and [sorted]; each parent maps to the sorted list of its
    dataset folds. *)
Definition cv_init (n_splits : nat) (dataset_name_to_tid_dict : string -> option tid)
    (get_configs : list config) (config_scorer : ConfigurationListScorer)
    (configs : option (list config)) (backend : string) : option ZeroshotConfigGeneratorCV :=
  if (n_splits <? 2)%nat then None else
  let unique_datasets_fold := scorer_datasets config_scorer in
  let* pairs := map_option (fun d => option_map (pair d) (dataset_name_to_tid_dict d))
                  unique_datasets_fold in
  let unique_datasets := sorted_by Z.leb (nodup Z.eq_dec (map snd pairs)) in
  let fold_map (p : tid) :=
    sorted_by String.leb (map fst (filter (fun '(_, q) => Z.eqb q p) pairs)) in
  let configs := match configs with None => get_configs | Some c => c end in
  Some (mkCV n_splits backend config_scorer unique_datasets fold_map configs).

(** [sklearn.model_selection.KFold(n_splits, random_state=0, shuffle=True)].
    [shuffle seed n] is the order of [np.arange(n)] after
    [RandomState(seed).shuffle]; the fold sizes are [n // n_splits], the
    first [n % n_splits] of them one larger; each test set is a slice of the
    shuffled indices, returned (like the train set) through a boolean mask,
    hence in increasing order.  [n_splits > n_samples] raises [ValueError]. *)
Definition kfold_fold_sizes (k n : nat) : list nat :=
  map (fun i => (n / k + (if (i <? n mod k)%nat then 1 else 0))%nat) (seq 0 k).

Fixpoint kfold_chunks (indices : list nat) (sizes : list nat) : list (list nat) :=
  match sizes with
  | [] => []
  | s :: r => firstn s indices :: kfold_chunks (skipn s indices) r
  end.

Definition kfold_split (shuffle : Z -> nat -> list nat) (k n : nat)
    : option (list (list nat * list nat)) :=
  if (n <? k)%nat then None else
  Some (map (fun test =>
               (filter (fun j => negb (existsb (Nat.eqb j) test)) (seq 0 n),
                filter (fun j => existsb (Nat.eqb j) test) (seq 0 n)))
            (kfold_chunks (shuffle 0 n) (kfold_fold_sizes k n))).

(** numpy fancy indexing [a[idx]]: [IndexError] out of range. *)
Definition np_take (a : list tid) (idx : list nat) : option (list tid) :=
  map_option (nth_error a) idx.

Record fold_result := mkFoldResult {
  fold : nat;
  X_train : list tid;
  X_test : list tid;
  X_train_fold : list string;
  X_test_fold : list string;
  fold_score : Z;
  selected_configs : list entry
}.

(** [run_fold]: selection of 10 configurations on the train scorer without
    the removal stage, scored on the test scorer. *)
Definition run_fold (cv : ZeroshotConfigGeneratorCV) (X_train X_test : list string)
    : option (list entry * Z) :=
  let config_scorer_train := subset (cv_config_scorer cv) X_train in
  let config_scorer_test := subset (cv_config_scorer cv) X_test in
  let* zeroshot_configs :=
    select_zeroshot_configs (mkGenerator config_scorer_train (cv_configs cv) (cv_backend cv))
      10 None false 0 in
  Some (zeroshot_configs, config_scorer_test zeroshot_configs).

Fixpoint run_splits (cv : ZeroshotConfigGeneratorCV) (i : nat)
    (splits : list (list nat * list nat)) : option (list fold_result) :=
  match splits with
  | [] => Some []
  | (train_index, test_index) :: rest =>
      let* X_train := np_take (unique_datasets cv) train_index in
      let* X_test := np_take (unique_datasets cv) test_index in
      let X_train_fold := flat_map (dataset_parent_to_fold_map cv) X_train in
      let X_test_fold := flat_map (dataset_parent_to_fold_map cv) X_test in
      let* (zeroshot_configs_fold, score_fold) := run_fold cv X_train_fold X_test_fold in
      let* results := run_splits cv (S i) rest in
      Some (mkFoldResult (S i) X_train X_test X_train_fold X_test_fold score_fold
              zeroshot_configs_fold :: results)
  end.

(** [ZeroshotConfigGeneratorCV.run]. *)
Definition cv_run (shuffle : Z -> nat -> list nat) (cv : ZeroshotConfigGeneratorCV)
    : option (list fold_result) :=
  let* splits := kfold_split shuffle (n_splits cv) (List.length (unique_datasets cv)) in
  run_splits cv 0 splits.

(** An order of the indices to instantiate the shuffle with. *)
Definition identity_shuffle : Z -> nat -> list nat := fun _ n => seq 0 n.

(** A small universe: four parent datasets with two folds each. *)
Definition example_tid_dict (d : string) : option tid :=
  if String.eqb d "a1" then Some 1 else if String.eqb d "a2" then Some 1 else
  if String.eqb d "b1" then Some 2 else if String.eqb d "b2" then Some 2 else
  if String.eqb d "c1" then Some 3 else if String.eqb d "c2" then Some 3 else
  if String.eqb d "d1" then Some 4 else if String.eqb d "d2" then Some 4 else None.

Definition example_list_scorer (datasets : list string) : ConfigurationListScorer :=
  mkListScorer datasets
    (fun ds l => Z.of_nat (List.length ds) - Z.of_nat (List.length l)).

Definition example_cv (n : nat) (datasets : list string) : ZeroshotConfigGeneratorCV :=
  match cv_init n example_tid_dict ["x"%string; "y"%string] (example_list_scorer datasets)
          None "sequential" with
  | Some cv => cv
  | None => mkCV n "sequential" (example_list_scorer datasets) [] (fun _ => []) []
  end.

(** ** List objects and aliasing *)

(** The Python heap restricted to list objects: location [i] holds the
    [i]-th list allocated.  A list of strings such as [self.all_configs] is
    stored with each string [s] as the entry [Some s].  [M] threads the heap
    and an uncaught exception ([None]). *)
Module Heap.

Definition loc := nat.
Definition heap := list (list entry).
Definition M (A : Type) := heap -> option (A * heap).

Definition ret {A : Type} (a : A) : M A := fun h => Some (a, h).
Definition fail {A : Type} : M A := fun _ => None.
Definition bind {A B : Type} (m : M A) (k : A -> M B) : M B :=
  fun h => match m h with Some (a, h') => k a h' | None => None end.

Notation "x <- m ;; k" := (bind m (fun x => k))
  (at level 61, m at next level, right associativity).
Notation "m ;;; k" := (bind m (fun _ => k)) (at level 61, right associativity).

Fixpoint list_update {A : Type} (l : list A) (i : nat) (v : A) : list A :=
  match l, i with
  | [], _ => []
  | _ :: r, O => v :: r
  | x :: r, S i' => x :: list_update r i' v
  end.

(** A new list object ([[]], a list display, [copy.deepcopy]). *)
Definition alloc (v : list entry) : M loc := fun h => Some (List.length h, h ++ [v]).
Definition read (l : loc) : M (list entry) :=
  fun h => match nth_error h l with Some v => Some (v, h) | None => None end.
Definition write (l : loc) (v : list entry) : M unit :=
  fun h => if (l <? List.length h)%nat then Some (tt, list_update h l v) else None.

(** [l.append(x)] and [l.remove(x)], in place. *)
Definition append (l : loc) (x : entry) : M unit :=
  v <- read l ;; write l (v ++ [x]).
Definition remove (l : loc) (x : entry) : M unit :=
  v <- read l ;; match py_remove x v with Some v' => write l v' | None => fail end.

Definition strs_of (v : list entry) : list config :=
  flat_map (fun e => match e with Some c => [c] | None => [] end) v.

Record HGenerator := mkHGenerator {
  h_config_scorer : scorer;
  h_all_configs : loc;
  h_backend : string
}.

Fixpoint forward_loop_h (sel : selector) (sc : scorer) (all_l : loc) (num_zeroshot : Z)
    (fuel : nat) (zs : loc) : M unit :=
  match fuel with
  | O => fail
  | S fuel' =>
      v <- read zs ;;
      if Z.of_nat (List.length v) <? num_zeroshot then
        pool <- read all_l ;;
        match valid_configs_of (strs_of pool) v with
        | [] => ret tt
        | valid_configs =>
            match sel valid_configs v sc with
            | Some (best_next_config, _) =>
                append zs best_next_config ;;; forward_loop_h sel sc all_l num_zeroshot fuel' zs
            | None => fail
            end
        end
      else ret tt
  end.

Fixpoint prune_loop_h (sc : scorer) (removal_threshold : Z) (fuel : nat) (zs : loc)
    (best_score : Z) : M unit :=
  match fuel with
  | O => fail
  | S fuel' =>
      v <- read zs ;;
      let (best_score', best_remove_config) := prune_round sc removal_threshold v best_score in
      match best_remove_config with
      | Some _ =>
          remove zs best_remove_config ;;;
          prune_loop_h sc removal_threshold fuel' zs best_score'
      | None => ret tt
      end
  end.

(** [prune_zeroshot_configs]: works on a deep copy of its argument. *)
Definition prune_zeroshot_configs_h (sc : scorer) (arg : loc) (removal_threshold : Z) : M loc :=
  v <- read arg ;;
  zs <- alloc v ;;
  prune_loop_h sc removal_threshold (S (List.length v)) zs (sc v) ;;;
  ret zs.

(** [select_zeroshot_configs]: [zeroshot_configs] is [None] or the location
    of the caller's list, which is deep-copied. *)
Definition select_zeroshot_configs_h (g : HGenerator) (num_zeroshot : Z)
    (zeroshot_configs : option loc) (removal_stage : bool) (removal_threshold : Z) : M loc :=
  zs <- match zeroshot_configs with
        | None => alloc []
        | Some l => v <- read l ;; alloc v
        end ;;
  forward_loop_h (selector_of (h_backend g)) (h_config_scorer g) (h_all_configs g)
    num_zeroshot (S (Z.to_nat num_zeroshot)) zs ;;;
  if removal_stage then prune_zeroshot_configs_h (h_config_scorer g) zs removal_threshold
  else ret zs.

(** A heap holding a candidate pool (location 0) and a prior portfolio
    (location 1), and a generator scoring a list by its length. *)
Definition example_heap : heap :=
  [[Some "A"; Some "B"; Some "C"]; [Some "B"]]%string.
Definition example_hgen : HGenerator :=
  mkHGenerator (fun l => Z.of_nat (List.length l)) 0%nat "ray".

(** The cells below [length h0] are those of [h0]. *)
Definition frame (h0 h : heap) : Prop :=
  (List.length h0 <= List.length h)%nat /\
  forall l, (l < List.length h0)%nat -> nth_error h l = nth_error h0 l.

End Heap.

(** ** More of [config_generator.py]: subsequences *)

(** [l1] is [l2] with some elements left out, the others in their order. *)
Inductive subseq {A : Type} : list A -> list A -> Prop :=
| subseq_nil : subseq [] []
| subseq_keep x l1 l2 : subseq l1 l2 -> subseq (x :: l1) (x :: l2)
| subseq_drop x l1 l2 : subseq l1 l2 -> subseq l1 (x :: l2).

(** * [simulation_context.py]: [ZeroshotSimulatorContext] *)

(** Python dicts: association lists in insertion order, with keys that do
    not repeat. *)
Section Dict.

Context {K V : Type} (K_eq_dec : forall x y : K, {x = y} + {x <> y}).

Definition dict_keys (d : list (K * V)) : list K := map fst d.

(** [d[k]]: [KeyError] ([None]) when [k] is absent. *)
Fixpoint dict_get (d : list (K * V)) (k : K) : option V :=
  match d with
  | [] => None
  | (k', v) :: r => if K_eq_dec k' k then Some v else dict_get r k
  end.

(** [d[k] = v]: replaces the value in place when [k] is present, appends
    the pair otherwise. *)
Fixpoint dict_set (d : list (K * V)) (k : K) (v : V) : list (K * V) :=
  match d with
  | [] => [(k, v)]
  | (k', v') :: r => if K_eq_dec k' k then (k', v) :: r else (k', v') :: dict_set r k v
  end.

(** [d.pop(k)]: [KeyError] when [k] is absent. *)
Fixpoint dict_pop (d : list (K * V)) (k : K) : option (list (K * V)) :=
  match d with
  | [] => None
  | (k', v') :: r => if K_eq_dec k' k then Some r else option_map (cons (k', v')) (dict_pop r k)
  end.

(** The pair with key [k] taken out. *)
Definition drop_key (k : K) (d : list (K * V)) : list (K * V) :=
  filter (fun p => if K_eq_dec (fst p) k then false else true) d.

End Dict.

(** The exceptions the context methods raise. *)
Inductive py_exc := KeyError | AssertionError.

(** A result or an uncaught exception. *)
Definition res (A : Type) := (A + py_exc)%type.

Definition raise_on {A : Type} (e : py_exc) (o : option A) : res A :=
  match o with Some a => inl a | None => inr e end.

Notation "'let!' x ':=' c 'in' k" :=
  (match c with inl x => k | inr e => inr e end)
  (at level 200, x pattern, c at level 100, k at level 200).

(** The fields of a [ZeroshotSimulatorContext] read by [get_datasets] and
    [get_dataset_folds]: the problem-type dicts, as lookups. *)
Record ZeroshotSimulatorContext := mkSimContext {
  sim_unique_datasets : list tid;
  sim_unique_dataset_folds : list string;
  tid_to_problem_type_dict : tid -> option string;
  dataset_to_problem_type_dict : string -> option string
}.

(** [[d for d in datasets if type_dict[d] == problem_type]]: the lookup of
    each element raises [KeyError] when it is missing. *)
Fixpoint filter_by_type {A : Type} (type_dict : A -> option string) (problem_type : string)
    (datasets : list A) : option (list A) :=
  match datasets with
  | [] => Some []
  | d :: r =>
      let* t := type_dict d in
      let* r' := filter_by_type type_dict problem_type r in
      Some (if String.eqb t problem_type then d :: r' else r')
  end.

Definition get_datasets (ctx : ZeroshotSimulatorContext) (problem_type : option string)
    : option (list tid) :=
  let datasets := sim_unique_datasets ctx in
  match problem_type with
  | None => Some datasets
  | Some p => filter_by_type (tid_to_problem_type_dict ctx) p datasets
  end.

Definition get_dataset_folds (ctx : ZeroshotSimulatorContext) (problem_type : option string)
    : option (list string) :=
  let datasets := sim_unique_dataset_folds ctx in
  match problem_type with
  | None => Some datasets
  | Some p => filter_by_type (dataset_to_problem_type_dict ctx) p datasets
  end.

(** The predictions of one task and fold: the dicts
    ['pred_proba_dict_val'] and ['pred_proba_dict_test'] from model name to
    predictions. *)
Record fold_pred_proba (A : Type) := mkFoldPredProba {
  pred_proba_dict_val : list (string * A);
  pred_proba_dict_test : list (string * A)
}.
Arguments mkFoldPredProba {A}.
Arguments pred_proba_dict_val {A}.
Arguments pred_proba_dict_test {A}.

Section MinimizeMemory.

Context {A : Type}.

(** [k not in configs] with [configs = set(configs)]. *)
Definition not_in_configs (configs : list config) (k : string) : bool :=
  negb (existsb (String.eqb k) configs).

(** [for k in model_keys: if k not in configs: val.pop(k); test.pop(k)] *)
Fixpoint minimize_models (configs : list config) (model_keys : list string)
    (val test : list (string * A)) : option (list (string * A) * list (string * A)) :=
  match model_keys with
  | [] => Some (val, test)
  | k :: r =>
      if not_in_configs configs k then
        let* val' := dict_pop string_dec val k in
        let* test' := dict_pop string_dec test k in
        minimize_models configs r val' test'
      else minimize_models configs r val test
  end.

Definition minimize_fold (configs : list config) (fp : fold_pred_proba A)
    : option (fold_pred_proba A) :=
  let* (val, test) := minimize_models configs (dict_keys (pred_proba_dict_val fp))
                        (pred_proba_dict_val fp) (pred_proba_dict_test fp) in
  Some (mkFoldPredProba val test).

(** [for f in available_folds: ...], editing [zeroshot_pred_proba[t][f]]. *)
Fixpoint minimize_folds (configs : list config) (available_folds : list Z)
    (td : list (Z * fold_pred_proba A)) : option (list (Z * fold_pred_proba A)) :=
  match available_folds with
  | [] => Some td
  | f :: r =>
      let* fp := dict_get Z.eq_dec td f in
      let* fp' := minimize_fold configs fp in
      minimize_folds configs r (dict_set Z.eq_dec td f fp')
  end.

(** [for t in task_names: ...], editing [zeroshot_pred_proba[t]]. *)
Fixpoint minimize_tasks (configs : list config) (task_names : list tid)
    (zpp : list (tid * list (Z * fold_pred_proba A)))
    : option (list (tid * list (Z * fold_pred_proba A))) :=
  match task_names with
  | [] => Some zpp
  | t :: r =>
      let* td := dict_get Z.eq_dec zpp t in
      let* td' := minimize_folds configs (dict_keys td) td in
      minimize_tasks configs r (dict_set Z.eq_dec zpp t td')
  end.

(** [minimize_memory_zeroshot_pred_proba]: the edits are in place and the
    edited dict is returned; the printed pickle sizes are left out. *)
Definition minimize_memory_zeroshot_pred_proba
    (zeroshot_pred_proba : list (tid * list (Z * fold_pred_proba A))) (configs : list config)
    : option (list (tid * list (Z * fold_pred_proba A))) :=
  minimize_tasks configs (dict_keys zeroshot_pred_proba) zeroshot_pred_proba.

End MinimizeMemory.

Section LoadPredProba.

(** Raw task keys [K] of the pickled dicts, the values [X] of
    [dataset_to_tid_dict], and the per-fold ground truth [G] and
    predictions [P]. *)
Context {K X P G : Type}.

(** [{k: v for k, v in d.items() if k in self.dataset_to_tid_dict}] *)
Definition filter_known {V : Type} (dataset_to_tid_dict : K -> option X)
    (d : list (K * V)) : list (K * V) :=
  filter (fun '(k, _) => match dataset_to_tid_dict k with Some _ => true | None => false end) d.

(** [{self.dataset_name_to_tid_dict[self.dataset_to_tid_dict[k]]: v for k, v
    in d.items()}]: a later key with the same image overwrites the value
    and keeps the first position. *)
Fixpoint rename_tasks {V : Type} (dataset_to_tid_dict : K -> option X)
    (dataset_name_to_tid_dict : X -> option tid) (acc : list (tid * V)) (d : list (K * V))
    : option (list (tid * V)) :=
  match d with
  | [] => Some acc
  | (k, v) :: r =>
      let* x := dataset_to_tid_dict k in
      let* t := dataset_name_to_tid_dict x in
      rename_tasks dataset_to_tid_dict dataset_name_to_tid_dict (dict_set Z.eq_dec acc t v) r
  end.

(** The assertions: every dataset of [self.unique_datasets] is a task with
    every fold of [self.folds]. *)
Fixpoint check_tasks (zeroshot_pred_proba : list (tid * list (Z * P))) (folds : list Z)
    (unique_datasets : list tid) : res unit :=
  match unique_datasets with
  | [] => inl tt
  | d :: r =>
      match dict_get Z.eq_dec zeroshot_pred_proba d with
      | None => inr AssertionError
      | Some fd =>
          if forallb (fun f => existsb (Z.eqb f) (dict_keys fd)) folds
          then check_tasks zeroshot_pred_proba folds r
          else inr AssertionError
      end
  end.

(** [for f in folds_in_zs: if f not in self.folds: zeroshot_pred_proba[d].pop(f);
    zeroshot_gt[d].pop(f)] *)
Fixpoint prune_folds (folds : list Z) (d : tid) (folds_in_zs : list Z)
    (zpp : list (tid * list (Z * P))) (zgt : list (tid * list (Z * G)))
    : option (list (tid * list (Z * P)) * list (tid * list (Z * G))) :=
  match folds_in_zs with
  | [] => Some (zpp, zgt)
  | f :: r =>
      if existsb (Z.eqb f) folds then prune_folds folds d r zpp zgt else
      let* fp := dict_get Z.eq_dec zpp d in
      let* fp' := dict_pop Z.eq_dec fp f in
      let* fg := dict_get Z.eq_dec zgt d in
      let* fg' := dict_pop Z.eq_dec fg f in
      prune_folds folds d r (dict_set Z.eq_dec zpp d fp') (dict_set Z.eq_dec zgt d fg')
  end.

(** [for d in task_names: ...] *)
Fixpoint prune_tasks (unique_datasets : list tid) (folds : list Z) (task_names : list tid)
    (zpp : list (tid * list (Z * P))) (zgt : list (tid * list (Z * G)))
    : option (list (tid * list (Z * P)) * list (tid * list (Z * G))) :=
  match task_names with
  | [] => Some (zpp, zgt)
  | d :: r =>
      if negb (existsb (Z.eqb d) unique_datasets) then
        let* zpp' := dict_pop Z.eq_dec zpp d in
        let* zgt' := dict_pop Z.eq_dec zgt d in
        prune_tasks unique_datasets folds r zpp' zgt'
      else
        let* fd := dict_get Z.eq_dec zpp d in
        let* (zpp', zgt') := prune_folds folds d (dict_keys fd) zpp zgt in
        prune_tasks unique_datasets folds r zpp' zgt'
  end.

(** [load_zeroshot_pred_proba], from the two loaded pickles on: the fields
    [dataset_to_tid_dict], [dataset_name_to_tid_dict], [unique_datasets]
    and [folds] of the context are passed in. *)
Definition load_zeroshot_pred_proba (dataset_to_tid_dict : K -> option X)
    (dataset_name_to_tid_dict : X -> option tid) (unique_datasets : list tid)
    (folds : list Z) (zeroshot_pred_proba : list (K * list (Z * P)))
    (zeroshot_gt : list (K * list (Z * G)))
    : res (list (tid * list (Z * P)) * list (tid * list (Z * G))) :=
  let zeroshot_gt := filter_known dataset_to_tid_dict zeroshot_gt in
  let! zeroshot_gt :=
    raise_on KeyError (rename_tasks dataset_to_tid_dict dataset_name_to_tid_dict [] zeroshot_gt) in
  let zeroshot_pred_proba := filter_known dataset_to_tid_dict zeroshot_pred_proba in
  let! zeroshot_pred_proba :=
    raise_on KeyError (rename_tasks dataset_to_tid_dict dataset_name_to_tid_dict []
                         zeroshot_pred_proba) in
  let task_names := dict_keys zeroshot_pred_proba in
  let! _ := check_tasks zeroshot_pred_proba folds unique_datasets in
  raise_on KeyError (prune_tasks unique_datasets folds task_names zeroshot_pred_proba zeroshot_gt).

End LoadPredProba.

(** ** The expected results, to compare the context methods with *)

(** Applying [f] to every value of a dict, failing when it fails on one. *)
Definition dict_map_values {K V W : Type} (f : V -> option W) (d : list (K * V))
    : option (list (K * W)) :=
  map_option (fun '(k, v) => option_map (pair k) (f v)) d.

(** The models kept in both dicts of a fold by
    [minimize_memory_zeroshot_pred_proba]: those of [configs] and, in the
    test dict, those absent from the validation dict. *)
Definition keep_model (configs : list config) (val_keys : list string) (k : string) : bool :=
  negb (not_in_configs configs k && existsb (String.eqb k) val_keys).

Definition minimized_fold {A : Type} (configs : list config) (fp : fold_pred_proba A)
    : fold_pred_proba A :=
  let ks := dict_keys (pred_proba_dict_val fp) in
  mkFoldPredProba (filter (fun '(k, _) => keep_model configs ks k) (pred_proba_dict_val fp))
                  (filter (fun '(k, _) => keep_model configs ks k) (pred_proba_dict_test fp)).

(** Every model of the validation dict left out of [configs] is also a key
    of the test dict. *)
Definition fold_minimizable {A : Type} (configs : list config) (fp : fold_pred_proba A) : bool :=
  forallb (fun k => negb (not_in_configs configs k) ||
                    existsb (String.eqb k) (dict_keys (pred_proba_dict_test fp)))
          (dict_keys (pred_proba_dict_val fp)).

(** The keys of every dict of the nested predictions are distinct, as in
    any Python dict. *)
Definition pred_proba_wf {A : Type} (zpp : list (tid * list (Z * fold_pred_proba A))) : Prop :=
  NoDup (dict_keys zpp) /\
  forall t td, In (t, td) zpp -> NoDup (dict_keys td) /\
    forall f fp, In (f, fp) td ->
      NoDup (dict_keys (pred_proba_dict_val fp)) /\ NoDup (dict_keys (pred_proba_dict_test fp)).

(** One task with one fold: models "m1" and "m2" in the validation dict,
    "m1", "m2" and "m3" in the test dict. *)
Definition example_pred_proba : list (tid * list (Z * fold_pred_proba nat)) :=
  [(1, [(0, mkFoldPredProba [("m1", 1%nat); ("m2", 2%nat)]
                            [("m1", 3%nat); ("m2", 4%nat); ("m3", 5%nat)])])]%string.

(** A small pair of pickles: raw names ["a"], ["b"], ["c"] of the tasks 1, 2
    and 3, a name ["z"] unknown to [dataset_to_tid_dict], and a fold 1
    outside the folds [[0]]. *)
Definition example_dataset_to_tid (k : string) : option string :=
  if String.eqb k "a" then Some "A"%string
  else if String.eqb k "b" then Some "B"%string
  else if String.eqb k "c" then Some "C"%string
  else None.

Definition example_name_to_tid (x : string) : option tid :=
  if String.eqb x "A" then Some 1
  else if String.eqb x "B" then Some 2
  else if String.eqb x "C" then Some 3
  else None.

Definition example_raw_pred_proba : list (string * list (Z * nat)) :=
  [("a", [(0, 10%nat); (1, 11%nat)]); ("b", [(0, 20%nat); (1, 21%nat)]);
   ("c", [(1, 31%nat)]); ("z", [(0, 99%nat)])]%string.

Definition example_raw_gt : list (string * list (Z * nat)) :=
  [("a", [(0, 110%nat); (1, 111%nat)]); ("b", [(0, 120%nat); (1, 121%nat)]);
   ("c", [(1, 131%nat)]); ("z", [(0, 199%nat)])]%string.

(** The ground truth without the task ["c"], which the predictions have. *)
Definition example_raw_gt_no_c : list (string * list (Z * nat)) :=
  [("a", [(0, 110%nat); (1, 111%nat)]); ("b", [(0, 120%nat); (1, 121%nat)]);
   ("z", [(0, 199%nat)])]%string.

(** * Proofs *)

Section Selectors.

Variable sc : scorer.
Variable prior : list entry.
Let f (c : config) : Z := sc (prior ++ [Some c]).

Lemma argmin_first_spec (l : list config) c s :
  argmin_first f l = Some (c, s) ->
  s = f c /\ In c l /\ (forall c', In c' l -> s <= f c').
Proof.
  revert c s; induction l as [|x r IH]; intros c s H; simpl in H; [discriminate|].
  destruct (argmin_first f r) as [[c' s']|] eqn:E.
  - destruct (IH c' s' eq_refl) as (-> & Hin & Hmin).
    destruct (Z.leb_spec (f x) (f c')); inversion H; subst; clear H.
    + split; [reflexivity|]. split; [left; reflexivity|].
      intros c'' [<-|Hc]; [lia|]. specialize (Hmin c'' Hc); lia.
    + split; [reflexivity|]. split; [right; exact Hin|].
      intros c'' [<-|Hc]; [lia|]. auto.
  - inversion H; subst. destruct r as [|y r']; simpl in E.
    + repeat split; [left; reflexivity|]. intros c'' [<-|[]]; lia.
    + destruct (argmin_first f r') as [[? ?]|]; [destruct (_ <=? _)|]; discriminate.
Qed.

Lemma argmin_first_nonempty (l : list config) :
  l <> [] -> exists c s, argmin_first f l = Some (c, s).
Proof.
  destruct l as [|x r]; [congruence|]; intros _; simpl.
  destruct (argmin_first f r) as [[c' s']|]; [destruct (f x <=? s')|]; eauto.
Qed.

(** The sequential loop computes the first argmin, kept only if it beats
    the running best. *)
Lemma select_sequential_loop_argmin (l : list config) bn bs :
  select_sequential_loop sc prior l bn bs =
  match argmin_first f l with
  | None => (bn, bs)
  | Some (c, s) => if s <? bs then (Some c, s) else (bn, bs)
  end.
Proof.
  revert bn bs; induction l as [|x r IH]; intros bn bs; simpl; [reflexivity|].
  fold (f x). rewrite !IH.
  destruct (argmin_first f r) as [[c' s']|].
  - destruct (Z.ltb_spec (f x) bs), (Z.leb_spec (f x) s'), (Z.ltb_spec s' (f x)),
      (Z.ltb_spec s' bs), (Z.ltb_spec (f x) bs); try reflexivity; lia.
  - destruct (Z.ltb_spec (f x) bs); reflexivity.
Qed.

Lemma py_min_from_min (r : list Z) a b :
  py_min_from (Z.min a b) r = Z.min a (py_min_from b r).
Proof.
  revert a b; induction r as [|y r IH]; intros a b; simpl; [reflexivity|].
  replace (if y <? Z.min a b then y else Z.min a b) with (Z.min a (Z.min y b)).
  - rewrite IH. f_equal. f_equal.
    destruct (Z.ltb_spec y b); lia.
  - destruct (Z.ltb_spec y (Z.min a b)); lia.
Qed.

Lemma py_min_argmin (x : config) (r : list config) c s :
  argmin_first f (x :: r) = Some (c, s) ->
  py_min (map f (x :: r)) = Some s.
Proof.
  revert x c s; induction r as [|y r IH]; intros x c s H.
  - simpl in H. inversion H; reflexivity.
  - assert (Hunf : argmin_first f (x :: y :: r) =
      match argmin_first f (y :: r) with
      | None => Some (x, f x)
      | Some (c', s') => if f x <=? s' then Some (x, f x) else Some (c', s')
      end) by reflexivity.
    rewrite Hunf in H; clear Hunf.
    destruct (argmin_first f (y :: r)) as [[c' s']|] eqn:E.
    2:{ destruct (argmin_first_nonempty (y :: r)) as (? & ? & E'); congruence. }
    specialize (IH y c' s' E). simpl in IH. inversion IH as [IH'].
    change (py_min (map f (x :: y :: r)))
      with (Some (py_min_from (if f y <? f x then f y else f x) (map f r))).
    replace (if f y <? f x then f y else f x) with (Z.min (f x) (f y))
      by (destruct (Z.ltb_spec (f y) (f x)); lia).
    rewrite py_min_from_min, IH'.
    destruct (Z.leb_spec (f x) s'); inversion H; subst; f_equal; lia.
Qed.

Lemma py_index_argmin (l : list config) c s :
  argmin_first f l = Some (c, s) ->
  exists i, py_index s (map f l) = Some i /\ nth_error l i = Some c.
Proof.
  revert c s; induction l as [|x r IH]; intros c s H; simpl in H; [discriminate|].
  destruct (argmin_first f r) as [[c' s']|] eqn:E.
  - destruct (Z.leb_spec (f x) s'); inversion H; subst; clear H.
    + exists O. simpl. rewrite Z.eqb_refl. split; reflexivity.
    + destruct (IH c s eq_refl) as (i & Hi & Hn).
      exists (S i). simpl. fold (f x).
      destruct (Z.eqb_spec (f x) s); [lia|]. rewrite Hi. split; [reflexivity|exact Hn].
  - inversion H; subst. exists O. simpl. rewrite Z.eqb_refl. split; reflexivity.
Qed.

(** [_select_ray] returns exactly the first argmin on a non-empty list. *)
Lemma select_ray_argmin (l : list config) :
  l <> [] ->
  exists c s, argmin_first f l = Some (c, s) /\ _select_ray l prior sc = Some (Some c, s).
Proof.
  intros Hne. destruct (argmin_first_nonempty l Hne) as (c & s & H).
  exists c, s. split; [exact H|].
  destruct l as [|x r]; [congruence|].
  unfold _select_ray.
  change (map (score_config_ray sc prior) (x :: r)) with (map f (x :: r)).
  rewrite (py_min_argmin x r c s H).
  destruct (py_index_argmin (x :: r) c s H) as (i & Hi & Hn).
  rewrite Hi, Hn.
  rewrite nth_error_map, Hn. simpl.
  destruct (argmin_first_spec _ _ _ H) as (-> & _ & _). reflexivity.
Qed.

Lemma select_sequential_argmin (l : list config) :
  _select_sequential l prior sc =
  Some (match argmin_first f l with
        | None => (None, sentinel)
        | Some (c, s) => if s <? sentinel then (Some c, s) else (None, sentinel)
        end).
Proof. unfold _select_sequential. rewrite select_sequential_loop_argmin. reflexivity. Qed.

(** The two selectors agree as soon as some candidate scores below the
    sentinel. *)
Lemma selectors_agree_below_sentinel (l : list config) :
  (exists c, In c l /\ f c < sentinel) ->
  _select_sequential l prior sc = _select_ray l prior sc.
Proof.
  intros (c0 & Hin & Hlt).
  assert (Hne : l <> []) by (destruct l; [contradiction|discriminate]).
  destruct (select_ray_argmin l Hne) as (c & s & Ham & ->).
  rewrite select_sequential_argmin, Ham.
  destruct (argmin_first_spec _ _ _ Ham) as (_ & _ & Hmin).
  specialize (Hmin c0 Hin).
  destruct (Z.ltb_spec s sentinel); [reflexivity|lia].
Qed.

End Selectors.

Lemma forward_loop_done sel sc all num fuel zs calls :
  (all = [] \/ num <= Z.of_nat (List.length zs)) ->
  forward_loop sel sc all num (S fuel) zs calls = Some (zs, calls).
Proof.
  intros H. simpl.
  destruct (Z.ltb_spec (Z.of_nat (List.length zs)) num); [|reflexivity].
  destruct H as [->|H]; [reflexivity|lia].
Qed.

(** ** Claims about forward selection *)

(** C1 (code_bug): on the same remaining candidates, prior portfolio and
    deterministic scorer, [_select_sequential] and [_select_ray] return
    different pairs as soon as no candidate scores below the sentinel
    [999999999]: the sequential one keeps [None], the ray one picks the
    candidate; the whole [select_zeroshot_configs] then differs between the
    two backends. *)
Theorem C1_sequential_ray_diverge :
  _select_sequential ["A"%string] [] flat_scorer = Some (None, sentinel) /\
  _select_ray ["A"%string] [] flat_scorer = Some (Some "A"%string, sentinel) /\
  select_zeroshot_configs (mkGenerator flat_scorer ["A"%string] "sequential") 1 None false 0
    = Some [None] /\
  select_zeroshot_configs (mkGenerator flat_scorer ["A"%string] "ray") 1 None false 0
    = Some [Some "A"%string].
Proof. repeat split; reflexivity. Qed.

(** C3 (code_bug): the candidate of minimal score (the first one on ties) is
    "B" here, and [_select_ray] returns it, but [_select_sequential]
    returns [None] because no score is below the sentinel. *)
Theorem C3_sequential_misses_argmin :
  argmin_first (fun c => high_scorer ([] ++ [Some c])) ["A"%string; "B"%string]
    = Some ("B"%string, sentinel) /\
  _select_ray ["A"%string; "B"%string] [] high_scorer = Some (Some "B"%string, sentinel) /\
  _select_sequential ["A"%string; "B"%string] [] high_scorer = Some (None, sentinel).
Proof. repeat split; reflexivity. Qed.

(** C9: when some remaining candidate scores strictly below the sentinel,
    [_select_sequential] returns one of the remaining candidates, never the
    initial [None]. *)
Theorem C9_select_sequential_returns_candidate
    (configs : list config) (prior_configs : list entry) (sc : scorer) :
  (exists c, In c configs /\ sc (prior_configs ++ [Some c]) < sentinel) ->
  exists c s, _select_sequential configs prior_configs sc = Some (Some c, s) /\ In c configs.
Proof.
  intros (c0 & Hin & Hlt).
  rewrite select_sequential_argmin.
  assert (Hne : configs <> []) by (destruct configs; [contradiction|discriminate]).
  destruct (argmin_first_nonempty sc prior_configs configs Hne) as (c & s & Ham).
  rewrite Ham.
  destruct (argmin_first_spec sc prior_configs configs c s Ham) as (_ & Hc & Hmin).
  specialize (Hmin c0 Hin).
  destruct (Z.ltb_spec s sentinel); [|lia].
  exists c, s. split; [reflexivity|exact Hc].
Qed.

Lemma C9_select_sequential_returns_candidate_witness :
  (exists c, In c ["A"%string; "B"%string] /\ high_scorer ([] ++ [Some c]) - 10 < sentinel) /\
  exists c s, _select_sequential ["A"%string; "B"%string] []
                (fun l => high_scorer l - 10) = Some (Some c, s) /\
              In c ["A"%string; "B"%string].
Proof.
  split.
  - exists "A"%string. split; [left; reflexivity|vm_compute; reflexivity].
  - apply C9_select_sequential_returns_candidate.
    exists "A"%string. split; [left; reflexivity|vm_compute; reflexivity].
Defined.

(** C6 (corrected): with an empty pool or [num_zeroshot <= 0], the forward
    phase makes no scorer call and keeps the prior portfolio; the result is
    that portfolio, pruned when the removal stage is on. *)
Theorem C6_select_no_forward_iteration (g : ZeroshotConfigGenerator) (num_zeroshot : Z)
    (zeroshot_configs : option (list entry)) (removal_stage : bool) (removal_threshold : Z) :
  (all_configs g = [] \/ num_zeroshot <= 0) ->
  select_zeroshot_configs_traced g num_zeroshot zeroshot_configs removal_stage removal_threshold
  = let zs := match zeroshot_configs with None => [] | Some l => l end in
    if removal_stage
    then option_map (fun p => (p, [])) (prune_zeroshot_configs (gen_config_scorer g) zs removal_threshold)
    else Some (zs, []).
Proof.
  intros H. unfold select_zeroshot_configs_traced.
  rewrite forward_loop_done by (destruct H; [left; assumption|right; lia]).
  destruct removal_stage; [|reflexivity].
  destruct (prune_zeroshot_configs _ _ _); reflexivity.
Qed.

Lemma C6_select_no_forward_iteration_witness :
  (all_configs (mkGenerator flat_scorer ["A"%string] "ray") = [] \/ 0 <= 0) /\
  select_zeroshot_configs_traced (mkGenerator flat_scorer ["A"%string] "ray") 0
    (Some [Some "A"%string]) false 0 = Some ([Some "A"%string], []).
Proof.
  split; [right; lia|].
  apply (C6_select_no_forward_iteration (mkGenerator flat_scorer ["A"%string] "ray") 0
           (Some [Some "A"%string]) false 0).
  right; lia.
Defined.

(** C6: as stated the claim fails: a non-empty prior portfolio is returned
    as it is, not an empty portfolio. *)
Lemma C6_prior_portfolio_kept :
  select_zeroshot_configs (mkGenerator flat_scorer ["A"%string] "ray") 0
    (Some [Some "A"%string]) false 0 = Some [Some "A"%string] /\
  select_zeroshot_configs (mkGenerator flat_scorer [] "sequential") 3
    (Some [Some "B"%string]) false 0 = Some [Some "B"%string].
Proof. split; reflexivity. Qed.

(** ** Lemmas about pruning *)

Lemma entry_eqb_true (a b : entry) : entry_eqb a b = true <-> a = b.
Proof.
  destruct a as [x|], b as [y|]; simpl; try (split; congruence).
  rewrite String.eqb_eq. split; congruence.
Qed.

Lemma entry_eqb_false (a b : entry) : entry_eqb a b = false <-> a <> b.
Proof.
  rewrite <- entry_eqb_true. destruct (entry_eqb a b); split; congruence.
Qed.

Lemma py_remove_spec (a : entry) (l l' : list entry) :
  py_remove a l = Some l' ->
  exists l1 l2, l = l1 ++ a :: l2 /\ ~ In a l1 /\ l' = l1 ++ l2.
Proof.
  revert l'; induction l as [|y r IH]; intros l' H; simpl in H; [discriminate|].
  destruct (entry_eqb y a) eqn:E.
  - apply entry_eqb_true in E; subst. injection H as <-.
    exists [], r. repeat split; simpl; auto.
  - apply entry_eqb_false in E.
    destruct (py_remove a r) as [r'|] eqn:Er; simpl in H; [|discriminate].
    injection H as <-. destruct (IH r' eq_refl) as (l1 & l2 & -> & Hn & ->).
    exists (y :: l1), l2. split; [reflexivity|]. split; [|reflexivity].
    intros [->|Hin]; [congruence|contradiction].
Qed.

Lemma py_remove_in (a : entry) (l : list entry) :
  In a l -> exists l', py_remove a l = Some l'.
Proof.
  induction l as [|y r IH]; intros H; [destruct H|]. simpl.
  destruct (entry_eqb y a) eqn:E; [eauto|].
  apply entry_eqb_false in E. destruct H as [->|H]; [congruence|].
  destruct (IH H) as (r' & ->). simpl. eauto.
Qed.

Lemma remove_all_app (a : entry) (l1 l2 : list entry) :
  remove_all a (l1 ++ l2) = remove_all a l1 ++ remove_all a l2.
Proof. unfold remove_all. apply filter_app. Qed.

Lemma remove_all_notin (a : entry) (l : list entry) :
  ~ In a l -> remove_all a l = l.
Proof.
  induction l as [|y r IH]; intros H; simpl; [reflexivity|].
  destruct (entry_eqb y a) eqn:E; simpl.
  - apply entry_eqb_true in E. subst. exfalso. apply H. left. reflexivity.
  - rewrite IH; [reflexivity|]. intros Hin. apply H. right. exact Hin.
Qed.

Lemma remove_all_cons_same (a : entry) (l : list entry) :
  remove_all a (a :: l) = remove_all a l.
Proof.
  unfold remove_all. simpl.
  destruct (entry_eqb a a) eqn:E; [reflexivity|].
  apply entry_eqb_false in E. congruence.
Qed.

Lemma NoDup_map_Some (p : list config) : NoDup p -> NoDup (map Some p).
Proof.
  induction 1 as [|x r Hx Hr IH]; simpl; constructor; [|exact IH].
  rewrite in_map_iff. intros (y & Hy & Hin). inversion Hy; subst. contradiction.
Qed.

Lemma map_Some_no_None (p : list config) : ~ In None (map Some p).
Proof. rewrite in_map_iff. intros (y & Hy & _). discriminate. Qed.

Section Prune.

Variable sc : scorer.
Variable thr : Z.

(** [score(zeroshot_configs without config)] *)
Let g (zs : list entry) (c : entry) : Z := sc (remove_all c zs).

Lemma prune_scan_some (zs cands : list entry) bs y bs' r :
  ~ In None cands ->
  prune_scan sc thr zs cands bs (Some y) = (bs', r) ->
  bs' <= bs /\ (forall c, In c cands -> bs' <= g zs c) /\
  ((r = Some y /\ bs' = bs) \/ (In r cands /\ bs' = g zs r)).
Proof.
  revert bs y; induction cands as [|c rest IH]; intros bs y Hn H; simpl in H.
  - inversion H; subst. repeat split; [lia|intros _ []|left; split; reflexivity].
  - assert (Hc : c <> None) by (intros ->; apply Hn; left; reflexivity).
    assert (Hr : ~ In None rest) by (intros Hin; apply Hn; right; exact Hin).
    destruct c as [z|]; [|congruence].
    fold (g zs (Some z)) in H.
    destruct (Z.leb_spec (g zs (Some z)) bs).
    + destruct (IH _ _ Hr H) as (Hle & Hall & Hor).
      repeat split; [lia| |].
      * intros c [<-|Hin]; [lia|auto].
      * right. destruct Hor as [[-> ->]|[Hin ->]]; split; auto; [left; reflexivity|right; exact Hin].
    + destruct (IH _ _ Hr H) as (Hle & Hall & Hor).
      repeat split; [lia| |].
      * intros c [<-|Hin]; [lia|auto].
      * destruct Hor as [Hy|[Hin ->]]; [left; exact Hy|right; split; [right; exact Hin|reflexivity]].
Qed.

Lemma prune_scan_none (zs cands : list entry) bs bs' r :
  ~ In None cands ->
  prune_scan sc thr zs cands bs None = (bs', r) ->
  match r with
  | None => bs' = bs /\ (forall c, In c cands -> bs + thr < g zs c)
  | Some x =>
      In (Some x) cands /\ bs' = g zs (Some x) /\ bs' <= bs + thr /\
      (forall c, In c cands -> g zs c <= bs + thr -> bs' <= g zs c)
  end.
Proof.
  revert bs; induction cands as [|c rest IH]; intros bs Hn H; simpl in H.
  - inversion H; subst. split; [reflexivity|intros _ []].
  - assert (Hc : c <> None) by (intros ->; apply Hn; left; reflexivity).
    assert (Hr : ~ In None rest) by (intros Hin; apply Hn; right; exact Hin).
    destruct c as [z|]; [|congruence].
    fold (g zs (Some z)) in H.
    destruct (Z.leb_spec (g zs (Some z)) (bs + thr)).
    + destruct (prune_scan_some _ _ _ _ _ _ Hr H) as (Hle & Hall & Hor).
      assert (Hx : exists x, r = Some x /\ In (Some x) (Some z :: rest) /\ bs' = g zs (Some x)).
      { destruct Hor as [[-> ->]|[Hin ->]].
        - exists z. repeat split; [left; reflexivity].
        - destruct r as [x|]; [|contradiction]. exists x. repeat split; right; exact Hin. }
      destruct Hx as (x & -> & Hin & Heq).
      repeat split; [exact Hin|exact Heq|lia|].
      intros c [<-|Hc'] _; [lia|auto].
    + specialize (IH bs Hr H). destruct r as [x|].
      * destruct IH as (Hin & Heq & Hle & Hmin).
        repeat split; [right; exact Hin|exact Heq|exact Hle|].
        intros c [<-|Hc'] Hq; [lia|auto].
      * destruct IH as (-> & Hall). split; [reflexivity|].
        intros c [<-|Hc']; [lia|auto].
Qed.

Lemma prune_loop_stop zs bs bs' fuel :
  prune_round sc thr zs bs = (bs', None) ->
  prune_loop sc thr (S fuel) zs bs = Some zs.
Proof. intros H. simpl. rewrite H. reflexivity. Qed.

Lemma prune_reach_no_None zs0 bs0 zs bs :
  ~ In None zs0 -> prune_reach sc thr zs0 bs0 zs bs -> ~ In None zs.
Proof.
  intros H0 Hr. induction Hr as [|zs bs bs' x zs' Hr IH Hround Hrem]; [exact H0|].
  destruct (py_remove_spec _ _ _ Hrem) as (l1 & l2 & -> & _ & ->).
  intros Hin. apply IH. apply in_app_or in Hin. apply in_or_app.
  destruct Hin as [Hin|Hin]; [left|right; right]; exact Hin.
Qed.

Lemma prune_reach_NoDup zs0 bs0 zs bs :
  NoDup zs0 -> prune_reach sc thr zs0 bs0 zs bs -> NoDup zs.
Proof.
  intros H0 Hr. induction Hr as [|zs bs bs' x zs' Hr IH Hround Hrem]; [exact H0|].
  destruct (py_remove_spec _ _ _ Hrem) as (l1 & l2 & -> & _ & ->).
  exact (NoDup_remove_1 _ _ _ IH).
Qed.

(** The carried [best_score] is the score of the current list, or the score
    of the current list without some element that is still in it. *)
Lemma prune_reach_base zs0 zs bs :
  ~ In None zs0 -> prune_reach sc thr zs0 (sc zs0) zs bs ->
  bs = sc zs \/ (exists x, In (Some x) zs /\ bs = g zs (Some x)).
Proof.
  intros H0 Hr. induction Hr as [|zs bs bs' x zs' Hr IH Hround Hrem]; [left; reflexivity|].
  pose proof (prune_reach_no_None _ _ _ _ H0 Hr) as Hn.
  unfold prune_round in Hround.
  pose proof (prune_scan_none _ _ _ _ _ Hn Hround) as (_ & -> & _ & _).
  destruct (py_remove_spec _ _ _ Hrem) as (l1 & l2 & -> & Hl1 & ->).
  unfold g. rewrite !remove_all_app, remove_all_cons_same.
  destruct (in_dec entry_eq_dec (Some x) (l1 ++ l2)) as [Hin|Hnin].
  - right. exists x. split; [exact Hin|]. unfold g. rewrite remove_all_app. reflexivity.
  - left. rewrite <- remove_all_app. rewrite remove_all_notin by exact Hnin. reflexivity.
Qed.

(** Without duplicates, the carried [best_score] is the score of the
    current list. *)
Lemma prune_reach_base_NoDup zs0 zs bs :
  ~ In None zs0 -> NoDup zs0 -> prune_reach sc thr zs0 (sc zs0) zs bs -> bs = sc zs.
Proof.
  intros H0 Hd Hr. induction Hr as [|zs bs bs' x zs' Hr IH Hround Hrem]; [reflexivity|].
  pose proof (prune_reach_no_None _ _ _ _ H0 Hr) as Hn.
  pose proof (prune_reach_NoDup _ _ _ _ Hd Hr) as Hnd.
  unfold prune_round in Hround.
  pose proof (prune_scan_none _ _ _ _ _ Hn Hround) as (_ & -> & _ & _).
  destruct (py_remove_spec _ _ _ Hrem) as (l1 & l2 & -> & Hl1 & ->).
  unfold g. rewrite !remove_all_app, remove_all_cons_same, <- remove_all_app.
  rewrite remove_all_notin; [reflexivity|].
  exact (NoDup_remove_2 _ _ _ Hnd).
Qed.

(** Enough fuel: the loop ends in a reachable state whose round removes
    nothing. *)
Lemma prune_loop_reach fuel zs0 bs0 zs bs :
  ~ In None zs0 -> prune_reach sc thr zs0 bs0 zs bs -> (List.length zs < fuel)%nat ->
  exists r br, prune_loop sc thr fuel zs bs = Some r /\ prune_reach sc thr zs0 bs0 r br /\
               snd (prune_round sc thr r br) = None.
Proof.
  intros H0. revert zs bs; induction fuel as [|fuel IH]; intros zs bs Hr Hlen; [lia|].
  simpl. destruct (prune_round sc thr zs bs) as [bs' [x|]] eqn:Hround.
  - pose proof (prune_reach_no_None _ _ _ _ H0 Hr) as Hn.
    pose proof Hround as Hround'. unfold prune_round in Hround'.
    pose proof (prune_scan_none _ _ _ _ _ Hn Hround') as (Hin & _).
    destruct (py_remove_in _ _ Hin) as (zs' & Hrem). rewrite Hrem.
    apply IH; [exact (prune_reach_step _ _ _ _ _ _ _ _ _ Hr Hround Hrem)|].
    destruct (py_remove_spec _ _ _ Hrem) as (l1 & l2 & -> & _ & ->).
    rewrite !length_app in *. simpl in Hlen. lia.
  - exists zs, bs. repeat split; [exact Hr|]. rewrite Hround. reflexivity.
Qed.

End Prune.

(** ** Claims about pruning *)

(** C2 (corrected): for a portfolio without duplicates, at the start of
    every round of [prune_zeroshot_configs] the carried [best_score] is the
    score of the current portfolio; a round that removes something removes
    (exactly one occurrence of) a configuration [x] with
    [score(portfolio - {x}) <= base + slack] whose score is minimal among all
    such configurations; a round in which no configuration meets the
    threshold removes nothing and the loop returns the portfolio. *)
Theorem C2_prune_round_removes_min (sc : scorer) (removal_threshold : Z) (p : list config) :
  NoDup p ->
  forall zs bs,
  prune_reach sc removal_threshold (map Some p) (sc (map Some p)) zs bs ->
  bs = sc zs /\
  match prune_round sc removal_threshold zs bs with
  | (bs', Some x) =>
      In (Some x) zs /\
      sc (remove_all (Some x) zs) <= sc zs + removal_threshold /\
      (forall y, In y zs -> sc (remove_all y zs) <= sc zs + removal_threshold ->
                 sc (remove_all (Some x) zs) <= sc (remove_all y zs)) /\
      bs' = sc (remove_all (Some x) zs) /\
      py_remove (Some x) zs = Some (remove_all (Some x) zs)
  | (_, None) =>
      (forall y, In y zs -> sc zs + removal_threshold < sc (remove_all y zs)) /\
      (forall fuel, prune_loop sc removal_threshold (S fuel) zs bs = Some zs)
  end.
Proof.
  intros Hp zs bs Hr.
  pose proof (map_Some_no_None p) as H0.
  pose proof (NoDup_map_Some p Hp) as Hd0.
  pose proof (prune_reach_base_NoDup sc removal_threshold _ _ _ H0 Hd0 Hr) as Hbs.
  pose proof (prune_reach_no_None sc removal_threshold _ _ _ _ H0 Hr) as Hn.
  pose proof (prune_reach_NoDup sc removal_threshold _ _ _ _ Hd0 Hr) as Hnd.
  split; [exact Hbs|]. subst bs.
  destruct (prune_round sc removal_threshold zs (sc zs)) as [bs' r] eqn:Hround.
  pose proof Hround as Hround'. unfold prune_round in Hround'.
  pose proof (prune_scan_none sc removal_threshold _ _ _ _ _ Hn Hround') as Hs.
  destruct r as [x|].
  - destruct Hs as (Hin & Heq & Hle & Hmin).
    repeat split; [exact Hin|lia|intros y Hy Hq; rewrite <- Heq; exact (Hmin y Hy Hq)|exact Heq|].
    destruct (py_remove_in _ _ Hin) as (zs' & Hrem). rewrite Hrem. f_equal.
    destruct (py_remove_spec _ _ _ Hrem) as (l1 & l2 & -> & _ & ->).
    rewrite !remove_all_app, remove_all_cons_same, <- remove_all_app.
    rewrite remove_all_notin; [reflexivity|exact (NoDup_remove_2 _ _ _ Hnd)].
  - destruct Hs as (_ & Hall). split; [exact Hall|].
    intros fuel. exact (prune_loop_stop sc removal_threshold _ _ _ fuel Hround).
Qed.

Lemma C2_prune_round_removes_min_witness :
  NoDup ["A"%string; "B"%string] /\
  prune_reach (len_scorer 5 3 4) 0 (map Some ["A"%string; "B"%string])
    (len_scorer 5 3 4 (map Some ["A"%string; "B"%string]))
    [Some "A"%string; Some "B"%string] 4 /\
  (4 = len_scorer 5 3 4 [Some "A"%string; Some "B"%string] /\
   match prune_round (len_scorer 5 3 4) 0 [Some "A"%string; Some "B"%string] 4 with
   | (bs', Some x) =>
       In (Some x) [Some "A"%string; Some "B"%string] /\
       len_scorer 5 3 4 (remove_all (Some x) [Some "A"%string; Some "B"%string])
         <= len_scorer 5 3 4 [Some "A"%string; Some "B"%string] + 0 /\
       (forall y, In y [Some "A"%string; Some "B"%string] ->
          len_scorer 5 3 4 (remove_all y [Some "A"%string; Some "B"%string])
            <= len_scorer 5 3 4 [Some "A"%string; Some "B"%string] + 0 ->
          len_scorer 5 3 4 (remove_all (Some x) [Some "A"%string; Some "B"%string])
            <= len_scorer 5 3 4 (remove_all y [Some "A"%string; Some "B"%string])) /\
       bs' = len_scorer 5 3 4 (remove_all (Some x) [Some "A"%string; Some "B"%string]) /\
       py_remove (Some x) [Some "A"%string; Some "B"%string]
         = Some (remove_all (Some x) [Some "A"%string; Some "B"%string])
   | (_, None) =>
       (forall y, In y [Some "A"%string; Some "B"%string] ->
          len_scorer 5 3 4 [Some "A"%string; Some "B"%string] + 0
            < len_scorer 5 3 4 (remove_all y [Some "A"%string; Some "B"%string])) /\
       (forall fuel, prune_loop (len_scorer 5 3 4) 0 (S fuel)
                       [Some "A"%string; Some "B"%string] 4
                     = Some [Some "A"%string; Some "B"%string])
   end).
Proof.
  assert (Hd : NoDup ["A"%string; "B"%string]).
  { constructor; [simpl; intros [H|[]]; discriminate|constructor; [intros []|constructor]]. }
  split; [exact Hd|]. split; [apply prune_reach_init|].
  apply (C2_prune_round_removes_min (len_scorer 5 3 4) 0 ["A"%string; "B"%string] Hd).
  apply prune_reach_init.
Defined.

(** C2: as stated the claim fails on a portfolio with a duplicate: the
    second round starts from [[A]] whose score is [-10], so no exclusion
    meets [score <= -10 + 0]; yet the round still removes [A], because the
    threshold uses the carried [best_score] (0), not the score of [[A]]. *)
Lemma C2_duplicate_counterexample :
  prune_reach (len_scorer 0 (-10) 0) 0 [Some "A"%string; Some "A"%string]
    (len_scorer 0 (-10) 0 [Some "A"%string; Some "A"%string]) [Some "A"%string] 0 /\
  len_scorer 0 (-10) 0 [Some "A"%string] + 0 < len_scorer 0 (-10) 0 (remove_all (Some "A"%string) [Some "A"%string]) /\
  prune_round (len_scorer 0 (-10) 0) 0 [Some "A"%string] 0 = (0, Some "A"%string) /\
  prune_zeroshot_configs (len_scorer 0 (-10) 0) [Some "A"%string; Some "A"%string] 0 = Some [].
Proof.
  split.
  - apply (prune_reach_step _ _ _ _ [Some "A"%string; Some "A"%string] 0 0 "A"%string);
      [apply prune_reach_init|reflexivity|reflexivity].
  - repeat split; reflexivity.
Qed.

(** C7 (corrected): pruning is idempotent on portfolios without duplicates
    (any slack) and on any portfolio when the slack is non-negative. *)
Theorem C7_prune_idempotent (sc : scorer) (removal_threshold : Z) (p : list config) :
  (NoDup p \/ 0 <= removal_threshold) ->
  exists r, prune_zeroshot_configs sc (map Some p) removal_threshold = Some r /\
            prune_zeroshot_configs sc r removal_threshold = Some r.
Proof.
  intros Hcase.
  pose proof (map_Some_no_None p) as H0.
  destruct (prune_loop_reach sc removal_threshold (S (List.length (map Some p))) (map Some p)
              (sc (map Some p)) (map Some p) (sc (map Some p)) H0
              (prune_reach_init _ _ _ _) (Nat.lt_succ_diag_r _))
    as (r & br & Hloop & Hr & Hstop).
  exists r. split; [exact Hloop|].
  pose proof (prune_reach_no_None sc removal_threshold _ _ _ _ H0 Hr) as Hn.
  destruct (prune_round sc removal_threshold r br) as [bs' [x|]] eqn:Hround;
    simpl in Hstop; [discriminate|].
  pose proof Hround as Hround'. unfold prune_round in Hround'.
  destruct (prune_scan_none sc removal_threshold _ _ _ _ _ Hn Hround') as (_ & Hall).
  assert (Hbr : br = sc r).
  { destruct Hcase as [Hp|Hthr].
    - exact (prune_reach_base_NoDup sc removal_threshold _ _ _ H0 (NoDup_map_Some p Hp) Hr).
    - destruct (prune_reach_base sc removal_threshold _ _ _ H0 Hr) as [Hb|(x & Hin & Hb)];
        [exact Hb|].
      specialize (Hall (Some x) Hin). lia. }
  subst br. unfold prune_zeroshot_configs.
  exact (prune_loop_stop sc removal_threshold _ _ _ _ Hround).
Qed.

Lemma C7_prune_idempotent_witness :
  (NoDup ["A"%string; "B"%string] \/ 0 <= 0) /\
  exists r, prune_zeroshot_configs (len_scorer 5 3 4) (map Some ["A"%string; "B"%string]) 0 = Some r /\
            prune_zeroshot_configs (len_scorer 5 3 4) r 0 = Some r.
Proof.
  split; [right; lia|].
  apply C7_prune_idempotent. right; lia.
Defined.

(** C7: as stated the claim fails: with a duplicated entry and a negative
    slack, a second pruning removes one more configuration. *)
Lemma C7_not_idempotent_counterexample :
  prune_zeroshot_configs (len_scorer 0 5 10) [Some "A"%string; Some "A"%string] (-1)
    = Some [Some "A"%string] /\
  prune_zeroshot_configs (len_scorer 0 5 10) [Some "A"%string] (-1) = Some [].
Proof. split; reflexivity. Qed.

(** ** Claims hit by the sentinel of [_select_sequential] *)

(** C4 (code_bug): with a pool of one configuration, a target of 2 and every
    score at the sentinel, sequential mode never picks a configuration; it
    appends [None] twice and returns a portfolio of size 2 = K, not 1 = N,
    while ray mode returns the pool. *)
Theorem C4_sequential_overfills :
  select_zeroshot_configs (mkGenerator flat_scorer ["A"%string] "sequential") 2 None false 0
    = Some [None; None] /\
  List.length [@None config; None] <> List.length ["A"%string] /\
  select_zeroshot_configs (mkGenerator flat_scorer ["A"%string] "ray") 2 None false 0
    = Some [Some "A"%string].
Proof. split; [reflexivity|]. split; [discriminate|reflexivity]. Qed.

(** C8 (code_bug): on the same input the sequential portfolio holds [None]
    twice: the forward loop re-appends the value it already appended. *)
Theorem C8_sequential_duplicates :
  select_zeroshot_configs (mkGenerator flat_scorer ["A"%string] "sequential") 2 None false 0
    = Some [None; None] /\
  ~ NoDup [@None config; None].
Proof.
  split; [reflexivity|].
  intros H. inversion H as [|x l Hx _]. apply Hx. left. reflexivity.
Qed.

(** ** Lemmas for the cross-validation driver *)

Lemma selector_of_nonempty (backend : string) (v : list config) (zs : list entry) (sc : scorer) :
  v <> [] -> exists r, selector_of backend v zs sc = Some r.
Proof.
  intros Hv. unfold selector_of. destruct (String.eqb backend "ray").
  - destruct (select_ray_argmin sc zs v Hv) as (c & s & _ & H). eauto.
  - unfold _select_sequential. eauto.
Qed.

Lemma forward_loop_some (backend : string) (sc : scorer) (all : list config) (num : Z)
    (fuel : nat) (zs : list entry) (calls : list (list entry)) :
  (Z.to_nat num - List.length zs < fuel)%nat ->
  exists r, forward_loop (selector_of backend) sc all num fuel zs calls = Some r.
Proof.
  revert zs calls; induction fuel as [|fuel IH]; intros zs calls Hf; [lia|].
  simpl. destruct (Z.ltb_spec (Z.of_nat (List.length zs)) num); [|eauto].
  destruct (valid_configs_of all zs) as [|c v] eqn:Hv; [eauto|].
  destruct (selector_of_nonempty backend (c :: v) zs sc ltac:(discriminate)) as ([b s] & ->).
  apply IH. rewrite length_app. simpl. lia.
Qed.

Lemma select_zeroshot_configs_some (g : ZeroshotConfigGenerator) (num : Z)
    (removal_threshold : Z) :
  exists zs, select_zeroshot_configs g num None false removal_threshold = Some zs.
Proof.
  unfold select_zeroshot_configs, select_zeroshot_configs_traced.
  destruct (forward_loop_some (backend g) (gen_config_scorer g) (all_configs g) num
              (S (Z.to_nat num)) [] [] ltac:(simpl; lia)) as ([zs calls] & H).
  unfold selector_of in H. unfold selector_of. rewrite H. simpl. eauto.
Qed.

Lemma map_option_In {A B : Type} (f : A -> option B) (l : list A) (l' : list B) :
  map_option f l = Some l' -> forall y, In y l' <-> exists x, In x l /\ f x = Some y.
Proof.
  revert l'; induction l as [|x r IH]; intros l' H y; simpl in H.
  - inversion H; subst. simpl. split; [intros []|intros (? & [] & _)].
  - destruct (f x) as [fx|] eqn:Hfx; [|discriminate].
    destruct (map_option f r) as [r'|] eqn:Hr; [|discriminate].
    inversion H; subst. specialize (IH r' eq_refl y). simpl. rewrite IH. split.
    + intros [<-|(x' & Hin & Hx')]; [exists x; auto|exists x'; auto].
    + intros (x' & [<-|Hin] & Hx'); [left; congruence|right; eauto].
Qed.

Lemma map_option_some {A B : Type} (f : A -> option B) (l : list A) :
  (forall x, In x l -> f x <> None) -> exists l', map_option f l = Some l'.
Proof.
  induction l as [|x r IH]; intros H; simpl; [eauto|].
  destruct (f x) as [fx|] eqn:Hfx; [|exfalso; apply (H x); [left|]; auto].
  destruct IH as (r' & ->); [intros y Hy; apply H; right; exact Hy|]. eauto.
Qed.

Lemma insert_by_perm {A : Type} (le : A -> A -> bool) (x : A) (l : list A) :
  Permutation (insert_by le x l) (x :: l).
Proof.
  induction l as [|y r IH]; simpl; [reflexivity|].
  destruct (le x y); [reflexivity|].
  rewrite IH. apply perm_swap.
Qed.

Lemma sorted_by_perm {A : Type} (le : A -> A -> bool) (l : list A) :
  Permutation (sorted_by le l) l.
Proof.
  induction l as [|x r IH]; simpl; [reflexivity|].
  rewrite insert_by_perm. apply perm_skip. exact IH.
Qed.

Lemma firstn_skipn_add {A : Type} (s m : nat) (l : list A) :
  firstn s l ++ firstn m (skipn s l) = firstn (s + m) l.
Proof.
  revert l; induction s as [|s IH]; intros l; [reflexivity|].
  destruct l as [|x r]; simpl; [rewrite firstn_nil; reflexivity|].
  rewrite IH. reflexivity.
Qed.

Lemma kfold_chunks_concat (indices sizes : list nat) :
  List.concat (kfold_chunks indices sizes) = firstn (list_sum sizes) indices.
Proof.
  revert indices; induction sizes as [|s r IH]; intros indices; simpl; [reflexivity|].
  rewrite IH. apply firstn_skipn_add.
Qed.

Lemma kfold_chunks_length (indices sizes : list nat) :
  List.length (kfold_chunks indices sizes) = List.length sizes.
Proof.
  revert indices; induction sizes as [|s r IH]; intros indices; simpl; [reflexivity|].
  rewrite IH. reflexivity.
Qed.

Lemma kfold_fold_sizes_sum_aux (a m k : nat) :
  list_sum (map (fun i => (a + (if (i <? m)%nat then 1 else 0))%nat) (seq 0 k))
  = (k * a + Nat.min m k)%nat.
Proof.
  induction k as [|k IH]; [simpl; lia|].
  rewrite seq_S, map_app, list_sum_app, IH. simpl.
  destruct (Nat.ltb_spec k m); lia.
Qed.

Lemma kfold_fold_sizes_sum (k n : nat) :
  (0 < k)%nat -> list_sum (kfold_fold_sizes k n) = n.
Proof.
  intros Hk. unfold kfold_fold_sizes. rewrite kfold_fold_sizes_sum_aux.
  pose proof (Nat.mod_upper_bound n k ltac:(lia)).
  rewrite Nat.min_l by lia.
  rewrite (Nat.div_mod_eq n k) at 3. lia.
Qed.

Lemma NoDup_app_disjoint {A : Type} (l1 l2 : list A) x :
  NoDup (l1 ++ l2) -> In x l1 -> ~ In x l2.
Proof.
  induction l1 as [|y r IH]; intros Hnd Hx; [destruct Hx|].
  simpl in Hnd. inversion Hnd as [|? ? Hy Hnd']; subst.
  destruct Hx as [->|Hx]; [intros Hin; apply Hy; apply in_or_app; right; exact Hin|].
  exact (IH Hnd' Hx).
Qed.

Lemma NoDup_concat_disjoint {A : Type} (L : list (list A)) i j a b x :
  NoDup (List.concat L) -> i <> j -> nth_error L i = Some a -> nth_error L j = Some b ->
  In x a -> ~ In x b.
Proof.
  revert i j; induction L as [|c L IH]; intros i j Hnd Hij Hi Hj Ha Hb;
    [destruct i; discriminate|].
  simpl in Hnd.
  destruct i as [|i], j as [|j]; simpl in Hi, Hj; [lia| | |].
  - inversion Hi; subst.
    apply (NoDup_app_disjoint _ _ x Hnd Ha).
    apply in_concat. exists b. split; [exact (nth_error_In _ _ Hj)|exact Hb].
  - inversion Hj; subst.
    apply (NoDup_app_disjoint _ _ x Hnd Hb).
    apply in_concat. exists a. split; [exact (nth_error_In _ _ Hi)|exact Ha].
  - exact (IH i j (NoDup_app_remove_l _ _ Hnd) ltac:(lia) Hi Hj Ha Hb).
Qed.

Lemma existsb_nat_In (j : nat) (l : list nat) : existsb (Nat.eqb j) l = true <-> In j l.
Proof.
  rewrite existsb_exists. split.
  - intros (x & Hx & Heq). apply Nat.eqb_eq in Heq. subst. exact Hx.
  - intros Hj. exists j. split; [exact Hj|apply Nat.eqb_refl].
Qed.

Lemma filter_seq_In (f : nat -> bool) (n j : nat) :
  In j (filter f (seq 0 n)) <-> (j < n)%nat /\ f j = true.
Proof. rewrite filter_In, in_seq. split; intros [H1 H2]; split; auto; lia. Qed.

Lemma run_splits_spec (cv : ZeroshotConfigGeneratorCV) (i : nat)
    (splits : list (list nat * list nat)) (recs : list fold_result) :
  run_splits cv i splits = Some recs ->
  List.length recs = List.length splits /\
  forall k r, nth_error recs k = Some r ->
  exists tr te, nth_error splits k = Some (tr, te) /\
                np_take (unique_datasets cv) tr = Some (X_train r) /\
                np_take (unique_datasets cv) te = Some (X_test r).
Proof.
  revert i recs; induction splits as [|[tr te] rest IH]; intros i recs H; simpl in H.
  - inversion H; subst. split; [reflexivity|]. intros [|k] r Hk; discriminate.
  - destruct (np_take _ tr) as [xtr|] eqn:Htr; [|discriminate].
    destruct (np_take _ te) as [xte|] eqn:Hte; [|discriminate].
    destruct (run_fold _ _ _) as [[zs sf]|]; [|discriminate].
    destruct (run_splits cv (S i) rest) as [recs'|] eqn:Hr; [|discriminate].
    inversion H; subst. destruct (IH _ _ Hr) as (Hlen & Hnth).
    split; [simpl; rewrite Hlen; reflexivity|].
    intros [|k] r Hk; simpl in Hk.
    + inversion Hk; subst. exists tr, te. simpl. auto.
    + exact (Hnth k r Hk).
Qed.

Lemma run_splits_some (cv : ZeroshotConfigGeneratorCV) (i : nat)
    (splits : list (list nat * list nat)) :
  (forall tr te, In (tr, te) splits ->
     forall j, In j tr \/ In j te -> (j < List.length (unique_datasets cv))%nat) ->
  exists recs, run_splits cv i splits = Some recs.
Proof.
  revert i; induction splits as [|[tr te] rest IH]; intros i H; simpl; [eauto|].
  destruct (map_option_some (nth_error (unique_datasets cv)) tr) as (xtr & Htr).
  { intros j Hj. apply nth_error_Some. apply (H tr te); [left; reflexivity|left; exact Hj]. }
  destruct (map_option_some (nth_error (unique_datasets cv)) te) as (xte & Hte).
  { intros j Hj. apply nth_error_Some. apply (H tr te); [left; reflexivity|right; exact Hj]. }
  unfold np_take. rewrite Htr, Hte.
  unfold run_fold.
  destruct (select_zeroshot_configs_some
              (mkGenerator (subset (cv_config_scorer cv) (flat_map (dataset_parent_to_fold_map cv) xtr))
                 (cv_configs cv) (cv_backend cv)) 10 0) as (zs & ->).
  destruct (IH (S i)) as (recs & ->); [intros tr' te' Hin; apply (H tr' te'); right; exact Hin|].
  eauto.
Qed.

(** The test and train parents of the record built from a chunk of
    shuffled indices. *)
Lemma record_of_chunk (U : list tid) (c : list nat) (xtr xte : list tid) :
  np_take U (filter (fun j => negb (existsb (Nat.eqb j) c)) (seq 0 (List.length U))) = Some xtr ->
  np_take U (filter (fun j => existsb (Nat.eqb j) c) (seq 0 (List.length U))) = Some xte ->
  (forall d, In d xte <-> exists j, In j c /\ nth_error U j = Some d) /\
  (forall d, In d xtr <-> exists j, ~ In j c /\ nth_error U j = Some d).
Proof.
  intros Htr Hte. split; intros d.
  - rewrite (map_option_In _ _ _ Hte d). split.
    + intros (j & Hj & Hd). apply filter_seq_In in Hj as (_ & Hj).
      apply existsb_nat_In in Hj. eauto.
    + intros (j & Hj & Hd). exists j. split; [|exact Hd].
      apply filter_seq_In. split; [apply nth_error_Some; congruence|].
      apply existsb_nat_In. exact Hj.
  - rewrite (map_option_In _ _ _ Htr d). split.
    + intros (j & Hj & Hd). apply filter_seq_In in Hj as (_ & Hj).
      apply negb_true_iff in Hj. exists j. split; [|exact Hd].
      intros Hin. apply existsb_nat_In in Hin. congruence.
    + intros (j & Hj & Hd). exists j. split; [|exact Hd].
      apply filter_seq_In. split; [apply nth_error_Some; congruence|].
      apply negb_true_iff. destruct (existsb (Nat.eqb j) c) eqn:E; [|reflexivity].
      apply existsb_nat_In in E. contradiction.
Qed.

Lemma nth_error_NoDup_inj {A : Type} (l : list A) i j x :
  NoDup l -> nth_error l i = Some x -> nth_error l j = Some x -> i = j.
Proof.
  intros Hnd Hi Hj. apply (proj1 (NoDup_nth_error l) Hnd i j).
  - apply nth_error_Some. congruence.
  - congruence.
Qed.

Section CrossValidation.

Variable shuffle : Z -> nat -> list nat.
Hypothesis shuffle_perm : forall seed n, Permutation (shuffle seed n) (seq 0 n).

(** The chunks of shuffled indices behind [kfold_split]. *)
Lemma kfold_split_chunks (k n : nat) :
  (2 <= k <= n)%nat ->
  exists chunks,
    kfold_split shuffle k n =
      Some (map (fun test =>
                   (filter (fun j => negb (existsb (Nat.eqb j) test)) (seq 0 n),
                    filter (fun j => existsb (Nat.eqb j) test) (seq 0 n))) chunks) /\
    List.length chunks = k /\ List.concat chunks = shuffle 0 n.
Proof.
  intros Hk. exists (kfold_chunks (shuffle 0 n) (kfold_fold_sizes k n)).
  unfold kfold_split. destruct (Nat.ltb_spec n k); [lia|].
  split; [reflexivity|]. split.
  - rewrite kfold_chunks_length. unfold kfold_fold_sizes. rewrite length_map, length_seq.
    reflexivity.
  - rewrite kfold_chunks_concat, kfold_fold_sizes_sum by lia.
    apply firstn_all2. rewrite (Permutation_length (shuffle_perm 0 n)), length_seq. lia.
Qed.

(** C5 (corrected): once the generator is built (the assertion
    [n_splits >= 2] holds and every scorer dataset has a parent), and when
    there are at least [n_splits] parent datasets, [run] returns [n_splits]
    records; the universe is the set of parents of the scorer's datasets;
    in each record the train and test parents are disjoint and cover the
    universe; test sets of distinct records are disjoint and together cover
    the universe; and the records depend on the shuffle only through seed 0. *)
Theorem C5_cv_folds_partition (ns : nat) (dataset_name_to_tid_dict : string -> option tid)
    (get_configs : list config) (sc : ConfigurationListScorer) (configs : option (list config))
    (backend : string) (cv : ZeroshotConfigGeneratorCV) :
  cv_init ns dataset_name_to_tid_dict get_configs sc configs backend = Some cv ->
  (ns <= List.length (unique_datasets cv))%nat ->
  (forall d, In d (unique_datasets cv) <->
     exists ds, In ds (scorer_datasets sc) /\ dataset_name_to_tid_dict ds = Some d) /\
  exists recs,
    cv_run shuffle cv = Some recs /\ List.length recs = ns /\
    (forall r, In r recs ->
       (forall d, In d (X_train r) -> ~ In d (X_test r)) /\
       (forall d, In d (unique_datasets cv) <-> In d (X_train r) \/ In d (X_test r))) /\
    (forall i j ri rj, i <> j -> nth_error recs i = Some ri -> nth_error recs j = Some rj ->
       forall d, In d (X_test ri) -> ~ In d (X_test rj)) /\
    (forall d, In d (unique_datasets cv) <-> exists r, In r recs /\ In d (X_test r)) /\
    (forall shuffle', shuffle' 0 = shuffle 0 -> cv_run shuffle' cv = Some recs).
Proof.
  intros Hinit Hle.
  unfold cv_init in Hinit.
  destruct (Nat.ltb_spec ns 2) as [|Hns]; [discriminate|].
  destruct (map_option _ (scorer_datasets sc)) as [pairs|] eqn:Hpairs; [|discriminate].
  injection Hinit as <-. cbn [unique_datasets scorer_datasets] in Hle |- *.
  unfold tid in *.
  set (U := sorted_by Z.leb (nodup Z.eq_dec (map snd pairs))) in *.
  assert (HU : NoDup U).
  { apply (Permutation_NoDup (Permutation_sym (sorted_by_perm _ _))). apply NoDup_nodup. }
  split.
  assert (HUin : forall d, In d U <-> In d (nodup Z.eq_dec (map snd pairs))).
  { intros d. split; apply Permutation_in; [|symmetry]; apply sorted_by_perm. }
  { intros d. rewrite HUin, nodup_In, in_map_iff.
    split.
    - intros ([ds p] & Hp & Hin). simpl in Hp. subst p.
      apply (map_option_In _ _ _ Hpairs) in Hin as (x & Hx & Hfx).
      destruct (dataset_name_to_tid_dict x) as [t|] eqn:Ht; [|discriminate].
      inversion Hfx; subst. eauto.
    - intros (ds & Hds & Hd). exists (ds, d). split; [reflexivity|].
      apply (map_option_In _ _ _ Hpairs). exists ds. rewrite Hd. auto. }
  clearbody U.
  remember (List.length U) as n eqn:Hn.
  assert (Hbounds : (2 <= ns <= n)%nat) by lia.
  destruct (kfold_split_chunks ns n Hbounds) as (chunks & Hsplit & Hlen & Hcat).
  set (splits := map _ chunks) in Hsplit.
  assert (Hnd : NoDup (List.concat chunks)).
  { rewrite Hcat. apply (Permutation_NoDup (Permutation_sym (shuffle_perm 0 n))). apply seq_NoDup. }
  destruct (run_splits_some (mkCV ns backend sc U
              (fun p => sorted_by String.leb (map fst (filter (fun '(_, q) => q =? p) pairs)))
              (match configs with None => get_configs | Some c => c end)) 0 splits)
    as (recs & Hrun).
  { intros tr te Hin j Hj. unfold splits in Hin. apply in_map_iff in Hin as (c & Hc & _).
    inversion Hc; subst.
    destruct Hj as [Hj|Hj]; apply filter_seq_In in Hj; simpl; tauto. }
  destruct (run_splits_spec _ _ _ _ Hrun) as (Hrlen & Hrnth). simpl in Hrnth.
  (* every record comes from the chunk at its position *)
  assert (Hrec : forall k r, nth_error recs k = Some r ->
            exists c, nth_error chunks k = Some c /\
              (forall d, In d (X_test r) <-> exists j, In j c /\ nth_error U j = Some d) /\
              (forall d, In d (X_train r) <-> exists j, ~ In j c /\ nth_error U j = Some d)).
  { intros k r Hk. destruct (Hrnth k r Hk) as (tr & te & Hs & Htr & Hte).
    unfold splits in Hs. rewrite nth_error_map in Hs.
    destruct (nth_error chunks k) as [c|] eqn:Hc; [|discriminate].
    simpl in Hs. inversion Hs; subst tr te.
    rewrite Hn in Htr, Hte.
    exists c. split; [reflexivity|]. exact (record_of_chunk U c _ _ Htr Hte). }
  exists recs. unfold cv_run. cbn [n_splits unique_datasets].
  unfold tid. rewrite <- Hn, Hsplit. split; [exact Hrun|].
  split; [unfold splits in Hrlen; rewrite Hrlen, length_map; exact Hlen|].
  split; [|split; [|split]].
  - intros r Hr. apply In_nth_error in Hr as (k & Hk).
    destruct (Hrec k r Hk) as (c & _ & Htest & Htrain). split.
    + intros d Hd1 Hd2. apply Htrain in Hd1 as (j1 & Hj1 & Hu1).
      apply Htest in Hd2 as (j2 & Hj2 & Hu2).
      rewrite (nth_error_NoDup_inj U j1 j2 d HU Hu1 Hu2) in Hj1. contradiction.
    + intros d. rewrite Htest, Htrain. split.
      * intros Hd. apply In_nth_error in Hd as (j & Hj).
        destruct (in_dec Nat.eq_dec j c); [right|left]; eauto.
      * intros [(j & _ & Hj)|(j & _ & Hj)]; exact (nth_error_In _ _ Hj).
  - intros i j ri rj Hij Hi Hj d Hdi Hdj.
    destruct (Hrec i ri Hi) as (ci & Hci & Htesti & _).
    destruct (Hrec j rj Hj) as (cj & Hcj & Htestj & _).
    apply Htesti in Hdi as (j1 & Hj1 & Hu1). apply Htestj in Hdj as (j2 & Hj2 & Hu2).
    rewrite (nth_error_NoDup_inj U j1 j2 d HU Hu1 Hu2) in Hj1.
    exact (NoDup_concat_disjoint chunks i j ci cj j2 Hnd Hij Hci Hcj Hj1 Hj2).
  - intros d. split.
    + intros Hd. apply In_nth_error in Hd as (j & Hj).
      assert (Hjn : In j (List.concat chunks)).
      { rewrite Hcat. apply (Permutation_in _ (Permutation_sym (shuffle_perm 0 n))).
        assert (Hjlt : (j < List.length U)%nat) by (apply nth_error_Some; rewrite Hj; discriminate).
        apply in_seq. lia. }
      apply in_concat in Hjn as (c & Hc & Hjc).
      apply In_nth_error in Hc as (k & Hk).
      destruct (nth_error recs k) as [r|] eqn:Hr.
      * exists r. split; [exact (nth_error_In _ _ Hr)|].
        destruct (Hrec k r Hr) as (c' & Hc' & Htest & _).
        rewrite Hk in Hc'. inversion Hc'; subst c'. apply Htest. eauto.
      * exfalso. apply nth_error_None in Hr.
        assert (Hkc : (k < List.length chunks)%nat) by (apply nth_error_Some; congruence).
        unfold splits in Hrlen. rewrite length_map in Hrlen. lia.
    + intros (r & Hr & Hd). apply In_nth_error in Hr as (k & Hk).
      destruct (Hrec k r Hk) as (c & _ & Htest & _).
      destruct (proj1 (Htest d) Hd) as (j & _ & Hj). exact (nth_error_In _ _ Hj).
  - intros shuffle' Hs'. unfold kfold_split in Hsplit |- *. rewrite Hs'.
    rewrite Hsplit. exact Hrun.
Qed.

End CrossValidation.

Lemma C5_cv_folds_partition_witness :
  (forall seed n, Permutation (identity_shuffle seed n) (seq 0 n)) /\
  cv_init 2 example_tid_dict ["x"%string; "y"%string]
    (example_list_scorer ["d2"; "a1"; "c1"; "b2"; "a2"; "b1"; "c2"; "d1"]%string) None "sequential"
    = Some (example_cv 2 ["d2"; "a1"; "c1"; "b2"; "a2"; "b1"; "c2"; "d1"]%string) /\
  (2 <= List.length (unique_datasets (example_cv 2 ["d2"; "a1"; "c1"; "b2"; "a2"; "b1"; "c2"; "d1"]%string)))%nat /\
  exists recs,
    cv_run identity_shuffle (example_cv 2 ["d2"; "a1"; "c1"; "b2"; "a2"; "b1"; "c2"; "d1"]%string)
      = Some recs /\ List.length recs = 2%nat.
Proof.
  assert (Hp : forall seed n, Permutation (identity_shuffle seed n) (seq 0 n))
    by (intros; apply Permutation_refl).
  assert (Hi : cv_init 2 example_tid_dict ["x"%string; "y"%string]
    (example_list_scorer ["d2"; "a1"; "c1"; "b2"; "a2"; "b1"; "c2"; "d1"]%string) None "sequential"
    = Some (example_cv 2 ["d2"; "a1"; "c1"; "b2"; "a2"; "b1"; "c2"; "d1"]%string))
    by reflexivity.
  assert (Hl : (2 <= List.length (unique_datasets
                 (example_cv 2 ["d2"; "a1"; "c1"; "b2"; "a2"; "b1"; "c2"; "d1"]%string)))%nat)
    by (vm_compute; lia).
  split; [exact Hp|]. split; [exact Hi|]. split; [exact Hl|].
  destruct (C5_cv_folds_partition identity_shuffle Hp _ _ _ _ _ _ _ Hi Hl)
    as (_ & recs & Hrun & Hlen & _).
  exists recs. split; [exact Hrun|exact Hlen].
Defined.

(** C5: as stated the claim fails: with a single parent dataset and
    [n_splits = 2] the generator is built, but [run] raises (KFold refuses
    more splits than samples), so no fold records exist. *)
Lemma C5_too_few_parents_counterexample :
  cv_init 2 example_tid_dict ["x"%string; "y"%string] (example_list_scorer ["a1"; "a2"]%string)
    None "sequential" = Some (example_cv 2 ["a1"; "a2"]%string) /\
  List.length (unique_datasets (example_cv 2 ["a1"; "a2"]%string)) = 1%nat /\
  cv_run identity_shuffle (example_cv 2 ["a1"; "a2"]%string) = None.
Proof. repeat split; reflexivity. Qed.


(** * Proofs about the context methods *)

(** ** Dicts *)

Section DictFacts.

Context {K V : Type} (K_eq_dec : forall x y : K, {x = y} + {x <> y}).

Lemma dict_keys_app (d1 d2 : list (K * V)) :
  dict_keys (d1 ++ d2) = dict_keys d1 ++ dict_keys d2.
Proof. apply map_app. Qed.

Lemma dict_get_app_notin (d1 d2 : list (K * V)) k :
  ~ In k (dict_keys d1) -> dict_get K_eq_dec (d1 ++ d2) k = dict_get K_eq_dec d2 k.
Proof.
  induction d1 as [|[k' v'] r IH]; intros Hk; simpl; [reflexivity|].
  destruct (K_eq_dec k' k) as [->|]; [exfalso; apply Hk; left; reflexivity|].
  apply IH. intros Hin. apply Hk. right. exact Hin.
Qed.

Lemma dict_set_app_notin (d1 d2 : list (K * V)) k v :
  ~ In k (dict_keys d1) -> dict_set K_eq_dec (d1 ++ d2) k v = d1 ++ dict_set K_eq_dec d2 k v.
Proof.
  induction d1 as [|[k' v'] r IH]; intros Hk; simpl; [reflexivity|].
  destruct (K_eq_dec k' k) as [->|]; [exfalso; apply Hk; left; reflexivity|].
  rewrite IH; [reflexivity|]. intros Hin. apply Hk. right. exact Hin.
Qed.

Lemma dict_get_In (d : list (K * V)) k v :
  dict_get K_eq_dec d k = Some v -> In (k, v) d.
Proof.
  induction d as [|[k' v'] r IH]; simpl; [discriminate|].
  destruct (K_eq_dec k' k) as [->|]; intros H; [inversion H; left; reflexivity|right; auto].
Qed.

Lemma dict_get_NoDup_In (d : list (K * V)) k v :
  NoDup (dict_keys d) -> In (k, v) d -> dict_get K_eq_dec d k = Some v.
Proof.
  induction d as [|[k' v'] r IH]; simpl; intros Hnd Hin; [destruct Hin|].
  inversion Hnd as [|? ? Hk Hnd']; subst.
  destruct Hin as [Heq|Hin].
  - inversion Heq; subst. destruct (K_eq_dec k k); [reflexivity|congruence].
  - destruct (K_eq_dec k' k) as [->|]; [|auto].
    exfalso. apply Hk. apply (in_map fst _ _ Hin).
Qed.

Lemma dict_get_None (d : list (K * V)) k :
  dict_get K_eq_dec d k = None <-> ~ In k (dict_keys d).
Proof.
  induction d as [|[k' v'] r IH]; simpl; [tauto|].
  destruct (K_eq_dec k' k) as [->|Hne]; [split; [discriminate|intros H; exfalso; auto]|].
  rewrite IH. split; [intros H [Heq|Hin]; [congruence|auto]|intros H Hin; auto].
Qed.

Lemma drop_key_notin (k : K) (d : list (K * V)) :
  ~ In k (dict_keys d) -> drop_key K_eq_dec k d = d.
Proof.
  induction d as [|[k' v'] r IH]; simpl; intros Hk; [reflexivity|].
  destruct (K_eq_dec k' k) as [->|]; [exfalso; apply Hk; left; reflexivity|].
  f_equal. apply IH. intros Hin. apply Hk. right. exact Hin.
Qed.

Lemma dict_pop_spec (d : list (K * V)) k :
  NoDup (dict_keys d) ->
  dict_pop K_eq_dec d k = if in_dec K_eq_dec k (dict_keys d) then Some (drop_key K_eq_dec k d) else None.
Proof.
  induction d as [|[k' v'] r IH]; simpl; intros Hnd; [reflexivity|].
  inversion Hnd as [|? ? Hk Hnd']; subst.
  destruct (K_eq_dec k' k) as [->|Hne].
  - rewrite drop_key_notin by exact Hk. reflexivity.
  - rewrite IH by exact Hnd'.
    destruct (in_dec K_eq_dec k (dict_keys r)) as [Hin|Hnin].
    + reflexivity.
    + destruct (in_dec K_eq_dec k (k' :: dict_keys r)) as [[Heq|Hin]|]; [congruence|contradiction|reflexivity].
Qed.

Lemma dict_keys_filter_sub (f : K * V -> bool) (d : list (K * V)) k :
  In k (dict_keys (filter f d)) -> In k (dict_keys d).
Proof.
  unfold dict_keys. rewrite !in_map_iff. intros (p & Hp & Hin).
  apply filter_In in Hin as [Hin _]. eauto.
Qed.

Lemma NoDup_dict_keys_filter (f : K * V -> bool) (d : list (K * V)) :
  NoDup (dict_keys d) -> NoDup (dict_keys (filter f d)).
Proof.
  induction d as [|p r IH]; simpl; intros Hnd; [constructor|].
  inversion Hnd as [|? ? Hk Hnd']; subst.
  destruct (f p); simpl; [|auto].
  constructor; [|auto]. intros Hin. apply Hk. exact (dict_keys_filter_sub _ _ _ Hin).
Qed.

Lemma In_dict_keys_drop_key (k k' : K) (d : list (K * V)) :
  k' <> k -> In k' (dict_keys (drop_key K_eq_dec k d)) <-> In k' (dict_keys d).
Proof.
  intros Hne. unfold drop_key, dict_keys. rewrite !in_map_iff. split.
  - intros (p & Hp & Hin). apply filter_In in Hin as [Hin _]. eauto.
  - intros (p & Hp & Hin). exists p. split; [exact Hp|]. apply filter_In. split; [exact Hin|].
    destruct (K_eq_dec (fst p) k); [congruence|reflexivity].
Qed.

(** A loop [for k in keys: d[k] = f(d[k])] over the keys of [d]. *)
Section UpdateLoop.

Variable f : V -> option V.
Variable loop : list K -> list (K * V) -> option (list (K * V)).
Hypothesis loop_nil : forall d, loop [] d = Some d.
Hypothesis loop_cons : forall k ks d,
  loop (k :: ks) d =
    match dict_get K_eq_dec d k with
    | Some v => match f v with Some v' => loop ks (dict_set K_eq_dec d k v') | None => None end
    | None => None
    end.

Lemma update_loop_spec (pre post : list (K * V)) :
  NoDup (dict_keys (pre ++ post)) ->
  loop (dict_keys post) (pre ++ post) = option_map (app pre) (dict_map_values f post).
Proof.
  revert pre; induction post as [|[k v] post IH]; intros pre Hnd.
  - simpl. rewrite loop_nil, app_nil_r. reflexivity.
  - rewrite dict_keys_app in Hnd. simpl in Hnd.
    assert (Hk : ~ In k (dict_keys pre)).
    { intros Hin. apply NoDup_app_remove_r in Hnd as Hnd1.
      exact (NoDup_app_disjoint _ _ k Hnd Hin (or_introl eq_refl)). }
    cbn [dict_keys map fst]. rewrite loop_cons.
    rewrite dict_get_app_notin by exact Hk. simpl.
    destruct (K_eq_dec k k) as [_|]; [|congruence].
    unfold dict_map_values. simpl.
    destruct (f v) as [v'|]; simpl; [|reflexivity].
    rewrite dict_set_app_notin by exact Hk. simpl.
    destruct (K_eq_dec k k) as [_|]; [|congruence].
    replace (pre ++ (k, v') :: post) with ((pre ++ [(k, v')]) ++ post)
      by (rewrite <- app_assoc; reflexivity).
    rewrite IH.
    + fold (dict_map_values f post).
      destruct (dict_map_values f post); simpl; [|reflexivity].
      rewrite <- app_assoc. reflexivity.
    + rewrite !dict_keys_app. simpl. rewrite <- app_assoc. exact Hnd.
Qed.

End UpdateLoop.

End DictFacts.

(** ** [minimize_memory_zeroshot_pred_proba] *)

Lemma string_eqb_dec (a b : string) :
  String.eqb a b = if string_dec a b then true else false.
Proof. destruct (String.eqb_spec a b), (string_dec a b); congruence. Qed.

Lemma existsb_string_In (k : string) (l : list string) :
  existsb (String.eqb k) l = true <-> In k l.
Proof.
  rewrite existsb_exists. split.
  - intros (x & Hx & Heq). apply String.eqb_eq in Heq. subst. exact Hx.
  - intros Hk. exists k. split; [exact Hk|apply String.eqb_refl].
Qed.

Lemma existsb_string_cons (k' k : string) (l : list string) :
  existsb (String.eqb k') (k :: l) = String.eqb k' k || existsb (String.eqb k') l.
Proof. reflexivity. Qed.

Lemma forallb_ext_in {T : Type} (f g : T -> bool) (l : list T) :
  (forall x, In x l -> f x = g x) -> forallb f l = forallb g l.
Proof.
  induction l as [|x r IH]; intros H; simpl; [reflexivity|].
  rewrite (H x (or_introl eq_refl)), IH; [reflexivity|]. intros y Hy. apply H. right. exact Hy.
Qed.

Lemma filter_filter_ext {T : Type} (f g h : T -> bool) (l : list T) :
  (forall x, f x && g x = h x) -> filter f (filter g l) = filter h l.
Proof.
  intros H. induction l as [|x r IH]; simpl; [reflexivity|].
  specialize (H x). destruct (g x); simpl.
  - destruct (f x); simpl in H; rewrite <- H; rewrite IH; reflexivity.
  - rewrite andb_false_r in H. rewrite <- H. exact IH.
Qed.

Lemma minimize_models_spec {A : Type} (configs : list config) (ks : list string)
    (val test : list (string * A)) :
  NoDup ks -> NoDup (dict_keys val) -> NoDup (dict_keys test) ->
  (forall k, In k ks -> In k (dict_keys val)) ->
  minimize_models configs ks val test =
    if forallb (fun k => negb (not_in_configs configs k) ||
                         existsb (String.eqb k) (dict_keys test)) ks
    then Some (filter (fun '(k, _) => keep_model configs ks k) val,
               filter (fun '(k, _) => keep_model configs ks k) test)
    else None.
Proof.
  revert val test; induction ks as [|k r IH]; intros val test Hks Hval Htest Hin.
  - simpl. unfold keep_model. simpl.
    assert (E : forall l : list (string * A),
               filter (fun '(k, _) => negb (not_in_configs configs k && false)) l = l)
      by (induction l as [|[k x] l IHl]; simpl; [reflexivity|rewrite andb_false_r, IHl; reflexivity]).
    rewrite !E. reflexivity.
  - inversion Hks as [|? ? Hk Hr]; subst.
    assert (Hin' : forall k', In k' r -> In k' (dict_keys val)) by (intros; apply Hin; right; auto).
    simpl. destruct (not_in_configs configs k) eqn:Hnk; simpl.
    + rewrite (dict_pop_spec string_dec val k Hval).
      destruct (in_dec string_dec k (dict_keys val)) as [_|Hnin]; [|exfalso; apply Hnin, Hin; left; reflexivity].
      rewrite (dict_pop_spec string_dec test k Htest).
      destruct (in_dec string_dec k (dict_keys test)) as [Hkt|Hkt].
      * assert (Ek : existsb (String.eqb k) (dict_keys test) = true)
          by (apply existsb_string_In; exact Hkt).
        rewrite Ek. simpl.
        rewrite IH; [| exact Hr
                     | apply NoDup_dict_keys_filter; exact Hval
                     | apply NoDup_dict_keys_filter; exact Htest
                     | intros k' Hk'; apply In_dict_keys_drop_key;
                       [intros ->; contradiction|apply Hin'; exact Hk']].
        rewrite (forallb_ext_in _
                   (fun k0 => negb (not_in_configs configs k0) ||
                              existsb (String.eqb k0) (dict_keys test))).
        -- destruct (forallb _ r); [|reflexivity].
           unfold drop_key. rewrite !filter_filter_ext with
             (h := fun '(k0, _) => keep_model configs (k :: r) k0); [reflexivity| |];
             (intros [k0 x]; unfold keep_model; rewrite existsb_string_cons, string_eqb_dec;
              simpl; destruct (string_dec k0 k) as [->|]; simpl;
              [rewrite Hnk, andb_false_r; reflexivity|rewrite andb_true_r; reflexivity]).
        -- intros k' Hk'. f_equal.
           assert (Hne : k' <> k) by (intros ->; contradiction).
           destruct (existsb (String.eqb k') (dict_keys (drop_key string_dec k test))) eqn:E1,
                    (existsb (String.eqb k') (dict_keys test)) eqn:E2; try reflexivity.
           ++ apply existsb_string_In in E1. apply In_dict_keys_drop_key in E1; [|exact Hne].
              apply existsb_string_In in E1. congruence.
           ++ apply existsb_string_In in E2. rewrite <- (In_dict_keys_drop_key string_dec k) in E2 by exact Hne.
              apply existsb_string_In in E2. congruence.
      * assert (Ek : existsb (String.eqb k) (dict_keys test) = false).
        { destruct (existsb (String.eqb k) (dict_keys test)) eqn:E; [|reflexivity].
          apply existsb_string_In in E. contradiction. }
        rewrite Ek. reflexivity.
    + rewrite IH by assumption.
      destruct (forallb _ r); [|reflexivity].
      f_equal. f_equal; apply filter_ext; intros [k0 x]; unfold keep_model;
        rewrite existsb_string_cons, string_eqb_dec;
        destruct (string_dec k0 k) as [->|]; simpl; [rewrite Hnk; reflexivity|reflexivity
                                                     |rewrite Hnk; reflexivity|reflexivity].
Qed.

Lemma dict_map_values_ext_in {K V W : Type} (f g : V -> option W) (d : list (K * V)) :
  (forall k v, In (k, v) d -> f v = g v) -> dict_map_values f d = dict_map_values g d.
Proof.
  unfold dict_map_values. induction d as [|[k v] r IH]; intros H; simpl; [reflexivity|].
  rewrite (H k v (or_introl eq_refl)), IH; [reflexivity|].
  intros k' v' Hin. apply (H k' v'). right. exact Hin.
Qed.

Lemma dict_map_values_if {K V W : Type} (ok : V -> bool) (g : V -> W) (d : list (K * V)) :
  dict_map_values (fun v => if ok v then Some (g v) else None) d =
  if forallb (fun '(_, v) => ok v) d then Some (map (fun '(k, v) => (k, g v)) d) else None.
Proof.
  unfold dict_map_values. induction d as [|[k v] r IH]; simpl; [reflexivity|].
  destruct (ok v); simpl; [|reflexivity].
  rewrite IH. destruct (forallb _ r); reflexivity.
Qed.

Lemma minimize_fold_spec {A : Type} (configs : list config) (fp : fold_pred_proba A) :
  NoDup (dict_keys (pred_proba_dict_val fp)) -> NoDup (dict_keys (pred_proba_dict_test fp)) ->
  minimize_fold configs fp =
    if fold_minimizable configs fp then Some (minimized_fold configs fp) else None.
Proof.
  intros Hval Htest. unfold minimize_fold, fold_minimizable, minimized_fold.
  rewrite minimize_models_spec by auto.
  destruct (forallb _ _); reflexivity.
Qed.

Lemma minimize_folds_spec {A : Type} (configs : list config) (td : list (Z * fold_pred_proba A)) :
  NoDup (dict_keys td) ->
  minimize_folds configs (dict_keys td) td = dict_map_values (minimize_fold configs) td.
Proof.
  intros Hnd.
  pose proof (update_loop_spec Z.eq_dec (minimize_fold configs) (minimize_folds configs)
                (fun d => eq_refl) (fun k ks d => eq_refl) [] td Hnd) as H.
  simpl in H. rewrite H. destruct (dict_map_values _ td); reflexivity.
Qed.

Lemma minimize_tasks_spec {A : Type} (configs : list config)
    (zpp : list (tid * list (Z * fold_pred_proba A))) :
  NoDup (dict_keys zpp) ->
  minimize_tasks configs (dict_keys zpp) zpp =
    dict_map_values (fun td => minimize_folds configs (dict_keys td) td) zpp.
Proof.
  intros Hnd.
  pose proof (update_loop_spec Z.eq_dec (fun td => minimize_folds configs (dict_keys td) td)
                (minimize_tasks configs) (fun d => eq_refl) (fun k ks d => eq_refl) [] zpp Hnd) as H.
  cbn [app] in H. unfold tid in *. rewrite H. destruct (dict_map_values _ zpp); reflexivity.
Qed.

Lemma filter_id_in {T : Type} (f : T -> bool) (l : list T) :
  (forall x, In x l -> f x = true) -> filter f l = l.
Proof.
  induction l as [|x r IH]; intros H; simpl; [reflexivity|].
  rewrite (H x (or_introl eq_refl)), IH; [reflexivity|]. intros y Hy. apply H. right. exact Hy.
Qed.

Lemma in_dict_keys {K V : Type} (k : K) (v : V) (d : list (K * V)) :
  In (k, v) d -> In k (dict_keys d).
Proof. intros H. exact (in_map fst _ _ H). Qed.

Lemma dict_keys_map_values {K V W : Type} (g : V -> W) (d : list (K * V)) :
  dict_keys (map (fun '(k, v) => (k, g v)) d) = dict_keys d.
Proof. induction d as [|[k v] r IH]; simpl; [reflexivity|]. f_equal. exact IH. Qed.

(** [minimize_memory_zeroshot_pred_proba] in one formula. *)
Lemma minimize_memory_zeroshot_pred_proba_eq {A : Type}
    (zpp : list (tid * list (Z * fold_pred_proba A))) (configs : list config) :
  pred_proba_wf zpp ->
  minimize_memory_zeroshot_pred_proba zpp configs =
    if forallb (fun '(_, td) => forallb (fun '(_, fp) => fold_minimizable configs fp) td) zpp
    then Some (map (fun '(t, td) => (t, map (fun '(f, fp) => (f, minimized_fold configs fp)) td)) zpp)
    else None.
Proof.
  intros [Hnd Hwf]. unfold minimize_memory_zeroshot_pred_proba.
  rewrite minimize_tasks_spec by exact Hnd.
  rewrite (dict_map_values_ext_in _
             (fun td => if forallb (fun '(_, fp) => fold_minimizable configs fp) td
                        then Some (map (fun '(f, fp) => (f, minimized_fold configs fp)) td)
                        else None)).
  - apply (dict_map_values_if (fun td => forallb (fun '(_, fp) => fold_minimizable configs fp) td)
             (fun td => map (fun '(f, fp) => (f, minimized_fold configs fp)) td)).
  - intros t td Hin. destruct (Hwf t td Hin) as [Hndt Hfp].
    rewrite minimize_folds_spec by exact Hndt.
    rewrite (dict_map_values_ext_in _
               (fun fp => if fold_minimizable configs fp then Some (minimized_fold configs fp) else None)).
    + apply dict_map_values_if.
    + intros f fp Hf. destruct (Hfp f fp Hf) as [Hv Ht]. apply minimize_fold_spec; assumption.
Qed.

Lemma keep_model_in_keys (configs : list config) (ks : list string) (k : string) :
  In k ks -> keep_model configs ks k = true -> not_in_configs configs k = false.
Proof.
  intros Hk. unfold keep_model. rewrite (proj2 (existsb_string_In k ks) Hk).
  destruct (not_in_configs configs k); simpl; congruence.
Qed.

Lemma minimized_fold_twice {A : Type} (configs : list config) (fp : fold_pred_proba A) :
  fold_minimizable configs (minimized_fold configs fp) = true /\
  minimized_fold configs (minimized_fold configs fp) = minimized_fold configs fp.
Proof.
  destruct fp as [val test]. unfold minimized_fold, fold_minimizable. cbn.
  set (ks := dict_keys val).
  set (val' := filter (fun '(k, _) => keep_model configs ks k) val).
  assert (Hval' : forall k, In k (dict_keys val') -> not_in_configs configs k = false).
  { intros k Hk. unfold dict_keys in Hk. apply in_map_iff in Hk as ([k0 x] & <- & Hin).
    unfold val' in Hin. apply filter_In in Hin as [Hin Hkeep].
    exact (keep_model_in_keys configs ks k0 (in_dict_keys _ _ _ Hin) Hkeep). }
  split.
  - apply forallb_forall. intros k Hk. rewrite (Hval' k Hk). reflexivity.
  - f_equal; apply filter_id_in; intros [k x] Hin; unfold keep_model.
    + apply (in_dict_keys k x) in Hin. rewrite (Hval' k Hin). reflexivity.
    + apply filter_In in Hin as [_ Hkeep]. unfold keep_model in Hkeep.
      destruct (not_in_configs configs k) eqn:Hnk; [|reflexivity]. simpl.
      apply negb_true_iff, not_true_iff_false. intros E.
      apply existsb_string_In in E. rewrite (Hval' k E) in Hnk. discriminate.
Qed.

Lemma not_in_configs_In (configs : list config) (k : string) :
  not_in_configs configs k = true <-> ~ In k configs.
Proof.
  unfold not_in_configs. rewrite negb_true_iff, <- not_true_iff_false, existsb_string_In.
  reflexivity.
Qed.

Lemma forallb_false_exists {T : Type} (f : T -> bool) (l : list T) :
  forallb f l = false -> exists x, In x l /\ f x = false.
Proof.
  induction l as [|x r IH]; simpl; [discriminate|].
  destruct (f x) eqn:Hx; simpl; intros H; [destruct (IH H) as (y & Hy & Hf); eauto|eauto].
Qed.

Lemma forallb_minimizable_false {A : Type} (configs : list config)
    (zpp : list (tid * list (Z * fold_pred_proba A))) :
  forallb (fun '(_, td) => forallb (fun '(_, fp) => fold_minimizable configs fp) td) zpp = false <->
  exists t td f fp k, In (t, td) zpp /\ In (f, fp) td /\
    In k (dict_keys (pred_proba_dict_val fp)) /\ ~ In k configs /\
    ~ In k (dict_keys (pred_proba_dict_test fp)).
Proof.
  split.
  - intros H. apply forallb_false_exists in H as ([t td] & Htd & H).
    apply forallb_false_exists in H as ([f fp] & Hfp & H).
    apply forallb_false_exists in H as (k & Hk & H).
    apply orb_false_iff in H as [Hnk E]. apply negb_false_iff in Hnk.
    exists t, td, f, fp, k. repeat split; auto.
    + apply not_in_configs_In. exact Hnk.
    + intros Hin. apply existsb_string_In in Hin. congruence.
  - intros (t & td & f & fp & k & Htd & Hfp & Hk & Hc & Ht).
    apply not_true_iff_false. intros H. rewrite forallb_forall in H.
    specialize (H (t, td) Htd). rewrite forallb_forall in H. specialize (H (f, fp) Hfp).
    unfold fold_minimizable in H. rewrite forallb_forall in H. specialize (H k Hk).
    rewrite (proj2 (not_in_configs_In configs k) Hc) in H. simpl in H.
    apply existsb_string_In in H. contradiction.
Qed.

Lemma minimized_wf {A : Type} (configs : list config)
    (zpp : list (tid * list (Z * fold_pred_proba A))) :
  pred_proba_wf zpp ->
  pred_proba_wf (map (fun '(t, td) => (t, map (fun '(f, fp) => (f, minimized_fold configs fp)) td)) zpp).
Proof.
  intros [Hnd Hwf]. split.
  - rewrite (dict_keys_map_values (fun td => map (fun '(f, fp) => (f, minimized_fold configs fp)) td)).
    exact Hnd.
  - intros t td' Hin. apply in_map_iff in Hin as ([t0 td] & Heq & Hin). inversion Heq; subst t0 td'.
    destruct (Hwf t td Hin) as [Hndt Hfp]. split.
    + rewrite (dict_keys_map_values (minimized_fold configs)). exact Hndt.
    + intros f fp' Hf. apply in_map_iff in Hf as ([f0 fp] & Heq' & Hf). inversion Heq'; subst f0 fp'.
      destruct (Hfp f fp Hf) as [Hv Ht]. split; apply NoDup_dict_keys_filter; assumption.
Qed.

(** [minimize_memory_zeroshot_pred_proba] (simulation_context.py): on
    predictions whose dicts have distinct keys, the call raises [KeyError]
    exactly when some fold has a model in its validation dict that is not
    in [configs] and is missing from its test dict.  Otherwise it returns
    the predictions with the same tasks and folds in which each fold keeps,
    in its validation dict, the models of [configs], and, in its test dict,
    the models of [configs] and those absent from the validation dict. *)
Theorem minimize_memory_zeroshot_pred_proba_result {A : Type}
    (zpp : list (tid * list (Z * fold_pred_proba A))) (configs : list config) :
  pred_proba_wf zpp ->
  (minimize_memory_zeroshot_pred_proba zpp configs = None <->
     exists t td f fp k, In (t, td) zpp /\ In (f, fp) td /\
       In k (dict_keys (pred_proba_dict_val fp)) /\ ~ In k configs /\
       ~ In k (dict_keys (pred_proba_dict_test fp))) /\
  (forall r, minimize_memory_zeroshot_pred_proba zpp configs = Some r ->
     r = map (fun '(t, td) => (t, map (fun '(f, fp) => (f, minimized_fold configs fp)) td)) zpp).
Proof.
  intros Hwf. rewrite (minimize_memory_zeroshot_pred_proba_eq zpp configs Hwf).
  rewrite <- forallb_minimizable_false.
  destruct (forallb _ zpp); split; try split; try congruence;
    intros r H; inversion H; reflexivity.
Qed.

(** [minimize_memory_zeroshot_pred_proba] is idempotent: minimizing its
    result again for the same [configs] succeeds and changes nothing. *)
Theorem minimize_memory_zeroshot_pred_proba_idempotent {A : Type}
    (zpp : list (tid * list (Z * fold_pred_proba A))) (configs : list config) r :
  pred_proba_wf zpp ->
  minimize_memory_zeroshot_pred_proba zpp configs = Some r ->
  minimize_memory_zeroshot_pred_proba r configs = Some r.
Proof.
  intros Hwf H. rewrite (minimize_memory_zeroshot_pred_proba_eq zpp configs Hwf) in H.
  destruct (forallb _ zpp); [|discriminate]. inversion H; subst r. clear H.
  rewrite (minimize_memory_zeroshot_pred_proba_eq _ configs (minimized_wf configs zpp Hwf)).
  assert (E : forall td : list (Z * fold_pred_proba A),
            map (fun '(f, fp) => (f, minimized_fold configs fp))
              (map (fun '(f, fp) => (f, minimized_fold configs fp)) td) =
            map (fun '(f, fp) => (f, minimized_fold configs fp)) td /\
            forallb (fun '(_, fp) => fold_minimizable configs fp)
              (map (fun '(f, fp) => (f, minimized_fold configs fp)) td) = true).
  { induction td as [|[f fp] td [IH1 IH2]]; simpl; [split; reflexivity|].
    destruct (minimized_fold_twice configs fp) as [H1 H2].
    rewrite H1, H2, IH1, IH2. split; reflexivity. }
  assert (E2 : forallb (fun '(_, td) => forallb (fun '(_, fp) => fold_minimizable configs fp) td)
                 (map (fun '(t, td) => (t, map (fun '(f, fp) => (f, minimized_fold configs fp)) td)) zpp)
               = true).
  { clear - E. induction zpp as [|[t td] zpp IH]; simpl; [reflexivity|].
    rewrite (proj2 (E td)). exact IH. }
  rewrite E2. f_equal. rewrite map_map. apply map_ext. intros [t td]. rewrite (proj1 (E td)). reflexivity.
Qed.

Ltac solve_NoDup :=
  repeat (constructor; [simpl; intuition discriminate|]); constructor.

Lemma example_pred_proba_wf : pred_proba_wf example_pred_proba.
Proof.
  split; [solve_NoDup|].
  intros t td [Heq|[]]. inversion Heq; subst. split; [solve_NoDup|].
  intros f fp [Heq'|[]]. inversion Heq'; subst. split; solve_NoDup.
Qed.

Lemma minimize_memory_zeroshot_pred_proba_result_witness :
  pred_proba_wf example_pred_proba /\
  minimize_memory_zeroshot_pred_proba example_pred_proba ["m1"%string]
    = Some [(1, [(0, mkFoldPredProba [("m1", 1%nat)] [("m1", 3%nat); ("m3", 5%nat)])])]%string /\
  [(1, [(0, mkFoldPredProba [("m1", 1%nat)] [("m1", 3%nat); ("m3", 5%nat)])])]%string =
    map (fun '(t, td) => (t, map (fun '(f, fp) => (f, minimized_fold ["m1"%string] fp)) td))
      example_pred_proba.
Proof.
  assert (E : minimize_memory_zeroshot_pred_proba example_pred_proba ["m1"%string]
    = Some [(1, [(0, mkFoldPredProba [("m1", 1%nat)] [("m1", 3%nat); ("m3", 5%nat)])])]%string)
    by (vm_compute; reflexivity).
  split; [exact example_pred_proba_wf|]. split; [exact E|].
  exact (proj2 (minimize_memory_zeroshot_pred_proba_result example_pred_proba ["m1"%string]
                  example_pred_proba_wf) _ E).
Defined.

Lemma minimize_memory_zeroshot_pred_proba_idempotent_witness :
  minimize_memory_zeroshot_pred_proba example_pred_proba ["m1"%string]
    = Some [(1, [(0, mkFoldPredProba [("m1", 1%nat)] [("m1", 3%nat); ("m3", 5%nat)])])]%string /\
  minimize_memory_zeroshot_pred_proba
    [(1, [(0, mkFoldPredProba [("m1", 1%nat)] [("m1", 3%nat); ("m3", 5%nat)])])]%string ["m1"%string]
    = Some [(1, [(0, mkFoldPredProba [("m1", 1%nat)] [("m1", 3%nat); ("m3", 5%nat)])])]%string.
Proof.
  assert (E : minimize_memory_zeroshot_pred_proba example_pred_proba ["m1"%string]
    = Some [(1, [(0, mkFoldPredProba [("m1", 1%nat)] [("m1", 3%nat); ("m3", 5%nat)])])]%string)
    by (vm_compute; reflexivity).
  split; [exact E|].
  exact (minimize_memory_zeroshot_pred_proba_idempotent example_pred_proba ["m1"%string] _
           example_pred_proba_wf E).
Defined.

(** ** [get_datasets] and [get_dataset_folds] *)

Lemma filter_by_type_spec {A : Type} (type_dict : A -> option string) (p : string) (l : list A) :
  (filter_by_type type_dict p l = None <-> exists d, In d l /\ type_dict d = None) /\
  (forall r, filter_by_type type_dict p l = Some r ->
     subseq r l /\ forall d, In d r <-> In d l /\ type_dict d = Some p).
Proof.
  induction l as [|x l [IHn IHs]]; simpl.
  - split; [split; [discriminate|intros (d & [] & _)]|].
    intros r H. inversion H; subst. split; [constructor|intros d; simpl; tauto].
  - destruct (type_dict x) as [t|] eqn:Hx.
    + destruct (filter_by_type type_dict p l) as [r'|] eqn:Hr.
      * specialize (IHs r' eq_refl) as [Hsub Hin]. split.
        -- split; [discriminate|]. intros (d & [<-|Hd] & Hn); [congruence|].
           pose proof (proj2 IHn (ex_intro _ d (conj Hd Hn))). congruence.
        -- intros r H. inversion H; subst r. destruct (String.eqb_spec t p) as [->|Hne].
           ++ split; [constructor; exact Hsub|]. intros d. simpl. rewrite Hin.
              split; [intros [<-|[]]; auto|intros [[<-|] ?]; auto].
           ++ split; [constructor; exact Hsub|]. intros d. rewrite Hin. simpl.
              split; [tauto|intros [[<-|] ?]; [congruence|auto]].
      * split; [split; [intros _|reflexivity]|discriminate].
        destruct (proj1 IHn eq_refl) as (d & Hd & Hn). eauto.
    + split; [split; [intros _; eauto|reflexivity]|discriminate].
Qed.

(** [get_datasets] and [get_dataset_folds] (simulation_context.py): without
    a problem type they return all the datasets (tasks, resp. task folds).
    With a problem type [p] they raise [KeyError] as soon as one dataset has
    no problem type, whatever its type would be; otherwise they return, in
    their original order, exactly the datasets of type [p]. *)
Theorem get_datasets_filter (ctx : ZeroshotSimulatorContext) (p : string) :
  get_datasets ctx None = Some (sim_unique_datasets ctx) /\
  (get_datasets ctx (Some p) = None <->
     exists d, In d (sim_unique_datasets ctx) /\ tid_to_problem_type_dict ctx d = None) /\
  (forall r, get_datasets ctx (Some p) = Some r ->
     subseq r (sim_unique_datasets ctx) /\
     forall d, In d r <-> In d (sim_unique_datasets ctx) /\ tid_to_problem_type_dict ctx d = Some p) /\
  get_dataset_folds ctx None = Some (sim_unique_dataset_folds ctx) /\
  (get_dataset_folds ctx (Some p) = None <->
     exists d, In d (sim_unique_dataset_folds ctx) /\ dataset_to_problem_type_dict ctx d = None) /\
  (forall r, get_dataset_folds ctx (Some p) = Some r ->
     subseq r (sim_unique_dataset_folds ctx) /\
     forall d, In d r <-> In d (sim_unique_dataset_folds ctx) /\
                          dataset_to_problem_type_dict ctx d = Some p).
Proof.
  unfold get_datasets, get_dataset_folds.
  destruct (filter_by_type_spec (tid_to_problem_type_dict ctx) p (sim_unique_datasets ctx)) as [H1 H2].
  destruct (filter_by_type_spec (dataset_to_problem_type_dict ctx) p (sim_unique_dataset_folds ctx))
    as [H3 H4].
  split; [reflexivity|]. split; [exact H1|]. split; [exact H2|].
  split; [reflexivity|]. split; [exact H3|exact H4].
Qed.

(** ** [load_zeroshot_pred_proba] *)

Section DictSetFacts.

Context {K V : Type} (K_eq_dec : forall x y : K, {x = y} + {x <> y}).

Lemma dict_keys_set_in (d : list (K * V)) k v :
  In k (dict_keys d) -> dict_keys (dict_set K_eq_dec d k v) = dict_keys d.
Proof.
  induction d as [|[k' v'] r IH]; simpl; intros Hk; [destruct Hk|].
  destruct (K_eq_dec k' k) as [->|Hne]; simpl; [reflexivity|].
  f_equal. apply IH. destruct Hk as [->|Hk]; [congruence|exact Hk].
Qed.

Lemma dict_keys_set (d : list (K * V)) k v x :
  In x (dict_keys (dict_set K_eq_dec d k v)) <-> x = k \/ In x (dict_keys d).
Proof.
  induction d as [|[k' v'] r IH]; simpl; [split; intros H; intuition congruence|].
  destruct (K_eq_dec k' k) as [->|Hne]; simpl; [split; intros H; intuition congruence|].
  rewrite IH. tauto.
Qed.

Lemma NoDup_dict_set (d : list (K * V)) k v :
  NoDup (dict_keys d) -> NoDup (dict_keys (dict_set K_eq_dec d k v)).
Proof.
  induction d as [|[k' v'] r IH]; simpl; intros Hnd; [constructor; [intros []|constructor]|].
  inversion Hnd as [|? ? Hk Hnd']; subst.
  destruct (K_eq_dec k' k) as [->|Hne]; simpl; [constructor; assumption|].
  constructor; [|auto]. rewrite dict_keys_set. intros [->|Hin]; [congruence|contradiction].
Qed.

Lemma In_dict_set (d : list (K * V)) k v x w :
  NoDup (dict_keys d) -> In (x, w) (dict_set K_eq_dec d k v) ->
  (x = k /\ w = v) \/ (x <> k /\ In (x, w) d).
Proof.
  induction d as [|[k' v'] r IH]; simpl; intros Hnd Hin.
  - destruct Hin as [Heq|[]]. inversion Heq; auto.
  - inversion Hnd as [|? ? Hk Hnd']; subst.
    destruct (K_eq_dec k' k) as [->|Hne].
    + destruct Hin as [Heq|Hin]; [inversion Heq; auto|].
      right. split; [|right; exact Hin]. intros ->. apply Hk. exact (in_dict_keys _ _ _ Hin).
    + destruct Hin as [Heq|Hin]; [inversion Heq; subst; right; split; [exact Hne|left; reflexivity]|].
      destruct (IH Hnd' Hin) as [H|[H1 H2]]; [left; exact H|right; split; [exact H1|right; exact H2]].
Qed.

Lemma In_dict_set_other (d : list (K * V)) k v x w :
  x <> k -> In (x, w) d -> In (x, w) (dict_set K_eq_dec d k v).
Proof.
  induction d as [|[k' v'] r IH]; simpl; intros Hne Hin; [destruct Hin|].
  destruct (K_eq_dec k' k) as [->|Hne'].
  - destruct Hin as [Heq|Hin]; [inversion Heq; congruence|right; exact Hin].
  - destruct Hin as [Heq|Hin]; [left; exact Heq|right; auto].
Qed.

Lemma dict_get_set_same (d : list (K * V)) k v :
  dict_get K_eq_dec (dict_set K_eq_dec d k v) k = Some v.
Proof.
  induction d as [|[k' v'] r IH]; simpl.
  - destruct (K_eq_dec k k); [reflexivity|congruence].
  - destruct (K_eq_dec k' k) as [->|Hne]; simpl.
    + destruct (K_eq_dec k k); [reflexivity|congruence].
    + destruct (K_eq_dec k' k); [congruence|exact IH].
Qed.

Lemma dict_set_set (d : list (K * V)) k v v' :
  dict_set K_eq_dec (dict_set K_eq_dec d k v) k v' = dict_set K_eq_dec d k v'.
Proof.
  induction d as [|[k0 v0] r IH]; simpl.
  - destruct (K_eq_dec k k); [reflexivity|congruence].
  - destruct (K_eq_dec k0 k) as [->|Hne]; simpl.
    + destruct (K_eq_dec k k); [reflexivity|congruence].
    + destruct (K_eq_dec k0 k); [congruence|]. rewrite IH. reflexivity.
Qed.

Lemma dict_set_get (d : list (K * V)) k v :
  dict_get K_eq_dec d k = Some v -> dict_set K_eq_dec d k v = d.
Proof.
  induction d as [|[k0 v0] r IH]; simpl; [discriminate|].
  destruct (K_eq_dec k0 k) as [->|Hne]; intros H; [inversion H; reflexivity|].
  rewrite IH by exact H. reflexivity.
Qed.

Lemma In_drop_key (k : K) (d : list (K * V)) x w :
  In (x, w) (drop_key K_eq_dec k d) <-> In (x, w) d /\ x <> k.
Proof.
  unfold drop_key. rewrite filter_In. simpl.
  destruct (K_eq_dec x k); split; intros [H1 H2]; auto; try discriminate; congruence.
Qed.

End DictSetFacts.

Lemma existsb_Z_In (x : Z) (l : list Z) : existsb (Z.eqb x) l = true <-> In x l.
Proof.
  rewrite existsb_exists. split.
  - intros (y & Hy & Heq). apply Z.eqb_eq in Heq. subst. exact Hy.
  - intros Hx. exists x. split; [exact Hx|apply Z.eqb_refl].
Qed.

Lemma prune_folds_spec {P G : Type} (folds : list Z) (d : tid) (fs : list Z)
    (zpp : list (tid * list (Z * P))) (zgt : list (tid * list (Z * G))) fd zpp' zgt' :
  dict_get Z.eq_dec zpp d = Some fd -> NoDup (dict_keys fd) -> NoDup fs ->
  (forall f, In f fs -> In f (dict_keys fd)) ->
  prune_folds folds d fs zpp zgt = Some (zpp', zgt') ->
  zpp' = dict_set Z.eq_dec zpp d
           (filter (fun p => negb (existsb (Z.eqb (fst p)) fs &&
                                   negb (existsb (Z.eqb (fst p)) folds))) fd).
Proof.
  revert zpp zgt fd; induction fs as [|f r IH]; intros zpp zgt fd Hget Hnd Hfs Hin H; simpl in H.
  - inversion H; subst. rewrite filter_id_in by (intros; reflexivity).
    symmetry. apply dict_set_get. exact Hget.
  - inversion Hfs as [|? ? Hf Hr]; subst.
    assert (Hin' : forall f', In f' r -> In f' (dict_keys fd)) by (intros; apply Hin; right; auto).
    destruct (existsb (Z.eqb f) folds) eqn:Ef.
    + rewrite (IH zpp zgt fd Hget Hnd Hr Hin' H). f_equal. apply filter_ext. intros [x v]. simpl.
      destruct (Z.eqb_spec x f) as [->|]; simpl; [rewrite Ef, andb_false_r; reflexivity|reflexivity].
    + rewrite Hget in H. rewrite (dict_pop_spec Z.eq_dec fd f Hnd) in H.
      destruct (in_dec Z.eq_dec f (dict_keys fd)) as [_|Hn]; [|exfalso; apply Hn, Hin; left; reflexivity].
      destruct (dict_get Z.eq_dec zgt d) as [fg|]; [|discriminate].
      destruct (dict_pop Z.eq_dec fg f) as [fg'|]; [|discriminate].
      rewrite (IH _ (dict_set Z.eq_dec zgt d fg') (drop_key Z.eq_dec f fd) (dict_get_set_same Z.eq_dec zpp d _)
                 (NoDup_dict_keys_filter _ _ Hnd) Hr); [|clear H|exact H].
      * rewrite dict_set_set. f_equal. unfold drop_key.
        apply filter_filter_ext. intros [x v]. simpl.
        destruct (Z.eq_dec x f) as [->|Hne]; simpl.
        -- rewrite Ef, Z.eqb_refl. simpl. rewrite andb_false_r. reflexivity.
        -- destruct (Z.eqb_spec x f); [congruence|]. rewrite andb_true_r. reflexivity.
      * intros f' Hf'. apply In_dict_keys_drop_key; [intros ->; contradiction|apply Hin'; exact Hf'].
Qed.

Lemma In_dict_keys_filter {K V : Type} (g : K * V -> bool) (d : list (K * V)) k :
  In k (dict_keys (filter g d)) <-> exists v, In (k, v) d /\ g (k, v) = true.
Proof.
  unfold dict_keys. rewrite in_map_iff. split.
  - intros ([k' v] & Hk & Hin). simpl in Hk. subst k'. apply filter_In in Hin. eauto.
  - intros (v & Hin & Hg). exists (k, v). split; [reflexivity|]. apply filter_In. auto.
Qed.

Lemma prune_tasks_spec {P G : Type} (unique_datasets : list tid) (folds : list Z) (ns : list tid)
    (zpp : list (tid * list (Z * P))) (zgt : list (tid * list (Z * G))) zpp' zgt' :
  NoDup (dict_keys zpp) -> (forall d fd, In (d, fd) zpp -> NoDup (dict_keys fd)) ->
  NoDup ns -> (forall d, In d ns -> In d (dict_keys zpp)) ->
  prune_tasks unique_datasets folds ns zpp zgt = Some (zpp', zgt') ->
  NoDup (dict_keys zpp') /\ (forall d fd, In (d, fd) zpp' -> NoDup (dict_keys fd)) /\
  (forall d, In d (dict_keys zpp') <-> In d (dict_keys zpp) /\ (In d ns -> In d unique_datasets)) /\
  (forall d fd', In (d, fd') zpp' -> exists fd, In (d, fd) zpp /\
     (In d ns -> forall f, In f (dict_keys fd') <-> In f (dict_keys fd) /\ In f folds) /\
     (~ In d ns -> fd' = fd)).
Proof.
  revert zpp zgt; induction ns as [|d r IH]; intros zpp zgt Hnd Hinner Hns Hsub H; simpl in H.
  - inversion H; subst. split; [exact Hnd|]. split; [exact Hinner|]. split.
    + intros d. simpl. tauto.
    + intros d fd' Hin. exists fd'. split; [exact Hin|]. split; [intros []|reflexivity].
  - inversion Hns as [|? ? Hd Hr]; subst.
    assert (Hdk : In d (dict_keys zpp)) by (apply Hsub; left; reflexivity).
    assert (Hsub' : forall x, In x r -> In x (dict_keys zpp)) by (intros; apply Hsub; right; auto).
    destruct (existsb (Z.eqb d) unique_datasets) eqn:Eu; simpl in H.
    + destruct (dict_get Z.eq_dec zpp d) as [fd|] eqn:Hget;
        [|apply dict_get_None in Hget; contradiction].
      destruct (prune_folds folds d (dict_keys fd) zpp zgt) as [[zpp1 zgt1]|] eqn:Hpf; [|discriminate].
      pose proof (Hinner d fd (dict_get_In _ _ _ _ Hget)) as Hndfd.
      pose proof (prune_folds_spec folds d _ zpp zgt fd zpp1 zgt1 Hget Hndfd Hndfd (fun f H => H) Hpf)
        as Hz1.
      set (fd1 := filter _ fd) in Hz1.
      assert (Hk1 : dict_keys zpp1 = dict_keys zpp) by (rewrite Hz1; apply dict_keys_set_in; exact Hdk).
      destruct (IH zpp1 zgt1) as (Ha & Hb & Hc & Hd'); auto.
      * rewrite Hz1. apply NoDup_dict_set. exact Hnd.
      * intros x w Hin. rewrite Hz1 in Hin. destruct (In_dict_set _ _ _ _ _ _ Hnd Hin) as [[-> ->]|[_ Hin']].
        -- apply NoDup_dict_keys_filter. exact Hndfd.
        -- exact (Hinner x w Hin').
      * intros x Hx. rewrite Hk1. auto.
      * split; [exact Ha|]. split; [exact Hb|]. split.
        -- intros x. rewrite Hc, Hk1. split.
           ++ intros [H1 H2]. split; [exact H1|]. intros [<-|Hx]; [apply existsb_Z_In; exact Eu|auto].
           ++ intros [H1 H2]. split; [exact H1|]. intros Hx. apply H2. right. exact Hx.
        -- intros x fd' Hin. destruct (Hd' x fd' Hin) as (w & Hw & Hw1 & Hw2).
           rewrite Hz1 in Hw. destruct (In_dict_set _ _ _ _ _ _ Hnd Hw) as [[-> ->]|[Hne Hw']].
           ++ rewrite (Hw2 Hd). exists fd. split; [exact (dict_get_In _ _ _ _ Hget)|].
              split; [|intros Hn; exfalso; apply Hn; left; reflexivity].
              intros _ f. unfold fd1. rewrite In_dict_keys_filter. split.
              ** intros (v & Hv & Hg). simpl in Hg.
                 rewrite (proj2 (existsb_Z_In f _) (in_dict_keys _ _ _ Hv)) in Hg. simpl in Hg.
                 apply negb_true_iff, negb_false_iff, existsb_Z_In in Hg.
                 split; [exact (in_dict_keys _ _ _ Hv)|exact Hg].
              ** intros [Hf Hff]. unfold dict_keys in Hf. apply in_map_iff in Hf as ([f' v] & Hf' & Hv).
                 simpl in Hf'. subst f'. exists v. split; [exact Hv|]. simpl.
                 rewrite (proj2 (existsb_Z_In f _) (in_dict_keys _ _ _ Hv)),
                         (proj2 (existsb_Z_In f _) Hff). reflexivity.
           ++ exists w. split; [exact Hw'|]. split.
              ** intros [->|Hx]; [congruence|exact (Hw1 Hx)].
              ** intros Hn. apply Hw2. intros Hx. apply Hn. right. exact Hx.
    + rewrite (dict_pop_spec Z.eq_dec zpp d Hnd) in H.
      lazymatch type of H with
      | context [in_dec ?e d ?l] => destruct (in_dec e d l) as [_|]; [|contradiction]
      end.
      cbv beta iota in H.
      destruct (dict_pop Z.eq_dec zgt d) as [zgt1|]; [|discriminate].
      assert (Hnotd : ~ In d (dict_keys (drop_key Z.eq_dec d zpp))).
      { intros Hin. unfold dict_keys in Hin. apply in_map_iff in Hin as ([x w] & Hx & Hin).
        simpl in Hx. subst x. apply In_drop_key in Hin as [_ Hne]. congruence. }
      destruct (IH (drop_key Z.eq_dec d zpp) zgt1) as (Ha & Hb & Hc & Hd'); auto.
      * apply NoDup_dict_keys_filter. exact Hnd.
      * intros x w Hin. apply In_drop_key in Hin as [Hin _]. exact (Hinner x w Hin).
      * intros x Hx. apply In_dict_keys_drop_key; [intros ->; contradiction|auto].
      * split; [exact Ha|]. split; [exact Hb|]. split.
        -- intros x. rewrite Hc. destruct (Z.eq_dec x d) as [->|Hne].
           ++ split; [intros [H1 _]; contradiction|].
              intros [_ H2]. exfalso. specialize (H2 (or_introl eq_refl)).
              apply existsb_Z_In in H2. congruence.
           ++ rewrite In_dict_keys_drop_key by exact Hne. split.
              ** intros [H1 H2]. split; [exact H1|]. intros [->|Hx]; [congruence|auto].
              ** intros [H1 H2]. split; [exact H1|]. intros Hx. apply H2. right. exact Hx.
        -- intros x fd' Hin. destruct (Hd' x fd' Hin) as (w & Hw & Hw1 & Hw2).
           apply In_drop_key in Hw as [Hw Hne]. exists w. split; [exact Hw|]. split.
           ++ intros [->|Hx]; [congruence|exact (Hw1 Hx)].
           ++ intros Hn. apply Hw2. intros Hx. apply Hn. right. exact Hx.
Qed.

(** ** Loading the pickled predictions *)

Lemma rename_tasks_spec {K X V : Type} (d2t : K -> option X) (n2t : X -> option tid)
    (acc : list (tid * V)) (d : list (K * V)) (r : list (tid * V)) :
  NoDup (dict_keys acc) -> rename_tasks d2t n2t acc d = Some r ->
  NoDup (dict_keys r) /\ (forall t v, In (t, v) r -> In (t, v) acc \/ exists k, In (k, v) d).
Proof.
  revert acc; induction d as [|[k v] d IH]; intros acc Hnd H; simpl in H.
  - inversion H; subst. split; [exact Hnd|]. intros t v Hin. left. exact Hin.
  - destruct (d2t k) as [x|]; [|discriminate]. destruct (n2t x) as [t|]; [|discriminate].
    destruct (IH _ (NoDup_dict_set Z.eq_dec acc t v Hnd) H) as [H1 H2].
    split; [exact H1|]. intros t' v' Hin. destruct (H2 t' v' Hin) as [Hs|(k' & Hk')].
    + destruct (In_dict_set Z.eq_dec acc t v t' v' Hnd Hs) as [[-> ->]|[_ Hs']].
      * right. exists k. left. reflexivity.
      * left. exact Hs'.
    + right. exists k'. right. exact Hk'.
Qed.

Lemma filter_known_In {K X V : Type} (d2t : K -> option X) (d : list (K * V)) k v :
  In (k, v) (filter_known d2t d) -> In (k, v) d.
Proof.
  unfold filter_known. intros H. apply filter_In in H. apply H.
Qed.

Lemma check_tasks_ok {P : Type} (zpp : list (tid * list (Z * P))) (folds : list Z)
    (unique_datasets : list tid) :
  check_tasks zpp folds unique_datasets = inl tt <->
  forall d, In d unique_datasets ->
    exists fd, dict_get Z.eq_dec zpp d = Some fd /\ forall f, In f folds -> In f (dict_keys fd).
Proof.
  induction unique_datasets as [|d r IH]; simpl.
  - split; [intros _ d []|reflexivity].
  - destruct (dict_get Z.eq_dec zpp d) as [fd|] eqn:Hg.
    + destruct (forallb (fun f => existsb (Z.eqb f) (dict_keys fd)) folds) eqn:Hf.
      * rewrite IH. split.
        -- intros H x [<-|Hx]; [|exact (H x Hx)]. exists fd. split; [exact Hg|].
           intros f Hin. rewrite forallb_forall in Hf. apply existsb_Z_In, Hf, Hin.
        -- intros H x Hx. apply H. right. exact Hx.
      * split; [discriminate|]. intros H. destruct (H d (or_introl eq_refl)) as (fd' & Hg' & Hall).
        rewrite Hg in Hg'. injection Hg' as <-.
        assert (E : forallb (fun f => existsb (Z.eqb f) (dict_keys fd)) folds = true).
        { apply forallb_forall. intros f Hin. apply existsb_Z_In, Hall, Hin. }
        congruence.
    + split; [discriminate|]. intros H. destruct (H d (or_introl eq_refl)) as (fd' & Hg' & _).
      congruence.
Qed.

Lemma check_tasks_fail {P : Type} (zpp : list (tid * list (Z * P))) (folds : list Z)
    (unique_datasets : list tid) :
  check_tasks zpp folds unique_datasets = inl tt \/
  (check_tasks zpp folds unique_datasets = inr AssertionError /\
   exists d, In d unique_datasets /\
     forall fd, dict_get Z.eq_dec zpp d = Some fd -> exists f, In f folds /\ ~ In f (dict_keys fd)).
Proof.
  induction unique_datasets as [|d r IH]; simpl; [left; reflexivity|].
  destruct (dict_get Z.eq_dec zpp d) as [fd|] eqn:Hg.
  - destruct (forallb (fun f => existsb (Z.eqb f) (dict_keys fd)) folds) eqn:Hf.
    + destruct IH as [IH|[IH (x & Hx & Hfd)]]; [left; exact IH|right; split; [exact IH|]].
      exists x. split; [right; exact Hx|exact Hfd].
    + right. split; [reflexivity|]. exists d. split; [left; reflexivity|].
      intros fd' Hg'. rewrite Hg in Hg'. injection Hg' as <-.
      apply forallb_false_exists in Hf as (f & Hin & Hf). exists f. split; [exact Hin|].
      intros Hk. apply existsb_Z_In in Hk. congruence.
  - right. split; [reflexivity|]. exists d. split; [left; reflexivity|].
    intros fd' Hg'. congruence.
Qed.

Lemma load_zeroshot_pred_proba_steps {K X P G : Type} (d2t : K -> option X)
    (n2t : X -> option tid) (unique_datasets : list tid) (folds : list Z)
    (zpp0 : list (K * list (Z * P))) (zgt0 : list (K * list (Z * G))) r :
  load_zeroshot_pred_proba d2t n2t unique_datasets folds zpp0 zgt0 = r ->
  match rename_tasks d2t n2t [] (filter_known d2t zgt0) with
  | None => r = inr KeyError
  | Some gt2 =>
      match rename_tasks d2t n2t [] (filter_known d2t zpp0) with
      | None => r = inr KeyError
      | Some pp2 =>
          match check_tasks pp2 folds unique_datasets with
          | inr e => r = inr e
          | inl _ => r = raise_on KeyError (prune_tasks unique_datasets folds (dict_keys pp2) pp2 gt2)
          end
      end
  end.
Proof.
  intros <-. unfold load_zeroshot_pred_proba.
  destruct (rename_tasks d2t n2t [] (filter_known d2t zgt0)); [|reflexivity]. simpl.
  destruct (rename_tasks d2t n2t [] (filter_known d2t zpp0)); [|reflexivity]. simpl.
  destruct (check_tasks _ folds unique_datasets); reflexivity.
Qed.

(** [load_zeroshot_pred_proba] (simulation_context.py): when it returns,
    the predictions hold each task of [unique_datasets] exactly once and no
    other task, and each task holds exactly the folds of [folds] (given
    fold dicts without repeated keys in the loaded predictions). *)
Theorem load_zeroshot_pred_proba_tasks_folds {K X P G : Type} (d2t : K -> option X)
    (n2t : X -> option tid) (unique_datasets : list tid) (folds : list Z)
    (zpp0 : list (K * list (Z * P))) (zgt0 : list (K * list (Z * G))) zpp zgt :
  (forall k fd, In (k, fd) zpp0 -> NoDup (dict_keys fd)) ->
  load_zeroshot_pred_proba d2t n2t unique_datasets folds zpp0 zgt0 = inl (zpp, zgt) ->
  NoDup (dict_keys zpp) /\ (forall d, In d (dict_keys zpp) <-> In d unique_datasets) /\
  (forall d fd, In (d, fd) zpp ->
     NoDup (dict_keys fd) /\ (forall f, In f (dict_keys fd) <-> In f folds)).
Proof.
  intros Hin0 H. apply load_zeroshot_pred_proba_steps in H.
  destruct (rename_tasks d2t n2t [] (filter_known d2t zgt0)) as [gt2|]; [|discriminate].
  destruct (rename_tasks d2t n2t [] (filter_known d2t zpp0)) as [pp2|] eqn:Hpp; [|discriminate].
  destruct (check_tasks pp2 folds unique_datasets) as [[]|e] eqn:Hck; [|discriminate].
  destruct (prune_tasks unique_datasets folds (dict_keys pp2) pp2 gt2) as [[a b]|] eqn:Hpr;
    simpl in H; [|discriminate].
  injection H as <- <-.
  destruct (rename_tasks_spec d2t n2t [] _ pp2 (NoDup_nil _) Hpp) as [Hnd2 Hfrom].
  assert (Hinner2 : forall d fd, In (d, fd) pp2 -> NoDup (dict_keys fd)).
  { intros d fd Hin. destruct (Hfrom d fd Hin) as [[]|(k & Hk)].
    exact (Hin0 k fd (filter_known_In _ _ _ _ Hk)). }
  pose proof (proj1 (check_tasks_ok pp2 folds unique_datasets) Hck) as Hck'. clear Hck. rename Hck' into Hck.
  destruct (prune_tasks_spec unique_datasets folds (dict_keys pp2) pp2 gt2 zpp zgt
              Hnd2 Hinner2 Hnd2 (fun d H => H) Hpr) as (Ha & Hb & Hc & Hd).
  split; [exact Ha|]. split.
  - intros d. rewrite Hc. split; [intros [H1 H2]; exact (H2 H1)|].
    intros Hu. destruct (Hck d Hu) as (fd & Hg & _).
    pose proof (in_dict_keys _ _ _ (dict_get_In Z.eq_dec _ _ _ Hg)) as Hk. tauto.
  - intros d fd Hin. split; [exact (Hb d fd Hin)|].
    destruct (Hd d fd Hin) as (w & Hw & Hw1 & _).
    pose proof (in_dict_keys _ _ _ Hw) as Hk.
    assert (Hu : In d unique_datasets) by (apply (proj1 (Hc d) (in_dict_keys _ _ _ Hin)), Hk).
    destruct (Hck d Hu) as (fd0 & Hg & Hall).
    rewrite (dict_get_NoDup_In Z.eq_dec pp2 d w Hnd2 Hw) in Hg. injection Hg as ->.
    intros f. rewrite (Hw1 Hk f). split; [intros [_ Hf]; exact Hf|].
    intros Hf. split; [exact (Hall f Hf)|exact Hf].
Qed.

(** [load_zeroshot_pred_proba] raises [AssertionError] exactly when both
    renamings succeed and some task of [unique_datasets] is missing from the
    renamed predictions or lacks one of the [folds]. *)
Theorem load_zeroshot_pred_proba_assertion {K X P G : Type} (d2t : K -> option X)
    (n2t : X -> option tid) (unique_datasets : list tid) (folds : list Z)
    (zpp0 : list (K * list (Z * P))) (zgt0 : list (K * list (Z * G))) :
  load_zeroshot_pred_proba d2t n2t unique_datasets folds zpp0 zgt0 = inr AssertionError <->
  exists gt2 pp2,
    rename_tasks d2t n2t [] (filter_known d2t zgt0) = Some gt2 /\
    rename_tasks d2t n2t [] (filter_known d2t zpp0) = Some pp2 /\
    exists d, In d unique_datasets /\
      forall fd, dict_get Z.eq_dec pp2 d = Some fd -> exists f, In f folds /\ ~ In f (dict_keys fd).
Proof.
  pose proof (load_zeroshot_pred_proba_steps d2t n2t unique_datasets folds zpp0 zgt0 _ eq_refl) as H.
  destruct (rename_tasks d2t n2t [] (filter_known d2t zgt0)) as [gt2|];
    [|rewrite H; split; [discriminate|intros (? & ? & ? & _); discriminate]].
  destruct (rename_tasks d2t n2t [] (filter_known d2t zpp0)) as [pp2|];
    [|rewrite H; split; [discriminate|intros (? & ? & _ & ? & _); discriminate]].
  destruct (check_tasks_fail pp2 folds unique_datasets) as [Hck|[Hck Hex]]; rewrite Hck in H.
  - rewrite H. split.
    + destruct (prune_tasks unique_datasets folds (dict_keys pp2) pp2 gt2); discriminate.
    + intros (g & p & Hg & Hp & d & Hu & Hm). injection Hg as <-. injection Hp as <-.
      destruct (proj1 (check_tasks_ok pp2 folds unique_datasets) Hck d Hu) as (fd & Hfd & Hall).
      destruct (Hm fd Hfd) as (f & Hf & Hn). exfalso. exact (Hn (Hall f Hf)).
  - rewrite H. split; [intros _|reflexivity].
    exists gt2, pp2. split; [reflexivity|]. split; [reflexivity|exact Hex].
Qed.

Lemma example_raw_pred_proba_inner_NoDup :
  forall k fd, In (k, fd) example_raw_pred_proba -> NoDup (dict_keys fd).
Proof.
  intros k fd H. simpl in H.
  repeat (destruct H as [H|H]; [injection H as <- <-; solve_NoDup|]). destruct H.
Qed.

Lemma load_zeroshot_pred_proba_tasks_folds_witness :
  (forall k fd, In (k, fd) example_raw_pred_proba -> NoDup (dict_keys fd)) /\
  load_zeroshot_pred_proba example_dataset_to_tid example_name_to_tid [1; 2] [0]
    example_raw_pred_proba example_raw_gt
    = inl ([(1, [(0, 10%nat)]); (2, [(0, 20%nat)])], [(1, [(0, 110%nat)]); (2, [(0, 120%nat)])]) /\
  NoDup (dict_keys [(1, [(0, 10%nat)]); (2, [(0, 20%nat)])]) /\
  (forall d, In d (dict_keys [(1, [(0, 10%nat)]); (2, [(0, 20%nat)])]) <-> In d [1; 2]) /\
  (forall d fd, In (d, fd) [(1, [(0, 10%nat)]); (2, [(0, 20%nat)])] ->
     NoDup (dict_keys fd) /\ (forall f, In f (dict_keys fd) <-> In f [0])).
Proof.
  assert (E : load_zeroshot_pred_proba example_dataset_to_tid example_name_to_tid [1; 2] [0]
    example_raw_pred_proba example_raw_gt
    = inl ([(1, [(0, 10%nat)]); (2, [(0, 20%nat)])], [(1, [(0, 110%nat)]); (2, [(0, 120%nat)])]))
    by (vm_compute; reflexivity).
  split; [exact example_raw_pred_proba_inner_NoDup|]. split; [exact E|].
  exact (load_zeroshot_pred_proba_tasks_folds example_dataset_to_tid example_name_to_tid [1; 2] [0]
           example_raw_pred_proba example_raw_gt _ _ example_raw_pred_proba_inner_NoDup E).
Defined.

Section DictPopFacts.

Context {K V : Type} (K_eq_dec : forall x y : K, {x = y} + {x <> y}).

Lemma dict_pop_None (d : list (K * V)) k :
  dict_pop K_eq_dec d k = None <-> ~ In k (dict_keys d).
Proof.
  induction d as [|[k' v'] r IH]; simpl; [tauto|].
  destruct (K_eq_dec k' k) as [->|Hne]; [split; [discriminate|tauto]|].
  split.
  - destruct (dict_pop K_eq_dec r k) eqn:Hr; simpl; [discriminate|].
    intros _ [->|Hk]; [congruence|]. exact (proj1 IH eq_refl Hk).
  - intros Hn. rewrite (proj2 IH (fun Hk => Hn (or_intror Hk))). reflexivity.
Qed.

Lemma dict_pop_other (d d' : list (K * V)) k x :
  dict_pop K_eq_dec d k = Some d' -> x <> k ->
  dict_get K_eq_dec d' x = dict_get K_eq_dec d x /\
  (In x (dict_keys d') <-> In x (dict_keys d)).
Proof.
  revert d'; induction d as [|[k' v'] r IH]; simpl; intros d' H Hne; [discriminate|].
  destruct (K_eq_dec k' k) as [->|Hne'].
  - injection H as <-. destruct (K_eq_dec k x) as [->|]; [congruence|]. split; [reflexivity|].
    split; [intros Hx; right; exact Hx|intros [->|Hx]; [congruence|exact Hx]].
  - destruct (dict_pop K_eq_dec r k) as [r'|] eqn:Hr; simpl in H; [|discriminate].
    injection H as <-. destruct (IH r' eq_refl Hne) as [H1 H2]. simpl.
    destruct (K_eq_dec k' x); [split; [reflexivity|tauto]|]. split; [exact H1|]. rewrite H2. tauto.
Qed.

Lemma dict_get_set_other (d : list (K * V)) k v x :
  x <> k -> dict_get K_eq_dec (dict_set K_eq_dec d k v) x = dict_get K_eq_dec d x.
Proof.
  intros Hne. induction d as [|[k' v'] r IH]; simpl.
  - destruct (K_eq_dec k x); [congruence|reflexivity].
  - destruct (K_eq_dec k' k) as [->|Hne']; simpl.
    + destruct (K_eq_dec k x); [congruence|reflexivity].
    + destruct (K_eq_dec k' x); [reflexivity|exact IH].
Qed.

Lemma dict_get_drop_key_other (d : list (K * V)) k x :
  x <> k -> dict_get K_eq_dec (drop_key K_eq_dec k d) x = dict_get K_eq_dec d x.
Proof.
  intros Hne. induction d as [|[k' v'] r IH]; simpl; [reflexivity|].
  destruct (K_eq_dec k' k) as [->|Hne']; simpl.
  - destruct (K_eq_dec k x); [congruence|exact IH].
  - destruct (K_eq_dec k' x); [reflexivity|exact IH].
Qed.

End DictPopFacts.

Lemma prune_folds_other {P G : Type} (folds : list Z) (d : tid) (fs : list Z)
    (zpp : list (tid * list (Z * P))) (zgt : list (tid * list (Z * G))) zpp' zgt' x :
  prune_folds folds d fs zpp zgt = Some (zpp', zgt') -> x <> d ->
  dict_get Z.eq_dec zgt' x = dict_get Z.eq_dec zgt x /\
  (In x (dict_keys zgt') <-> In x (dict_keys zgt)).
Proof.
  intros H Hne. revert zpp zgt H; induction fs as [|f r IH]; intros zpp zgt H; simpl in H.
  - injection H as <- <-. tauto.
  - destruct (existsb (Z.eqb f) folds); [exact (IH zpp zgt H)|].
    destruct (dict_get Z.eq_dec zpp d); [|discriminate].
    destruct (dict_pop Z.eq_dec l f); [|discriminate].
    destruct (dict_get Z.eq_dec zgt d) as [fg|] eqn:Hg; [|discriminate].
    destruct (dict_pop Z.eq_dec fg f) as [fg'|]; [|discriminate].
    destruct (IH _ _ H) as [H1 H2]. rewrite H1, H2, dict_get_set_other, dict_keys_set by exact Hne.
    split; [reflexivity|]. split; [intros [->|Hx]; [contradiction|exact Hx]|intros Hx; right; exact Hx].
Qed.

Lemma prune_folds_none {P G : Type} (folds : list Z) (d : tid) (fs : list Z)
    (zpp : list (tid * list (Z * P))) (zgt : list (tid * list (Z * G))) fd :
  dict_get Z.eq_dec zpp d = Some fd -> NoDup (dict_keys fd) -> NoDup fs ->
  (forall f, In f fs -> In f (dict_keys fd)) ->
  (prune_folds folds d fs zpp zgt = None <->
   exists f, In f fs /\ ~ In f folds /\
     forall fg, dict_get Z.eq_dec zgt d = Some fg -> ~ In f (dict_keys fg)).
Proof.
  revert zpp zgt fd; induction fs as [|f r IH]; intros zpp zgt fd Hget Hnd Hfs Hin; simpl.
  - split; [discriminate|intros (f & [] & _)].
  - inversion Hfs as [|? ? Hf Hr]; subst.
    assert (Hin' : forall f', In f' r -> In f' (dict_keys fd)) by (intros; apply Hin; right; auto).
    destruct (existsb (Z.eqb f) folds) eqn:Ef.
    + rewrite (IH zpp zgt fd Hget Hnd Hr Hin'). split.
      * intros (f' & Hf' & H1 & H2). exists f'. split; [right; exact Hf'|split; assumption].
      * intros (f' & [<-|Hf'] & H1 & H2); [apply existsb_Z_In in Ef; contradiction|].
        exists f'. split; [exact Hf'|split; assumption].
    + assert (Hfo : ~ In f folds) by (intros Hx; apply existsb_Z_In in Hx; congruence).
      rewrite Hget, (dict_pop_spec Z.eq_dec fd f Hnd).
      destruct (in_dec Z.eq_dec f (dict_keys fd)) as [_|Hn]; [|exfalso; apply Hn, Hin; left; reflexivity].
      cbv beta iota.
      destruct (dict_get Z.eq_dec zgt d) as [fg|] eqn:Hg.
      2:{ split; [intros _|reflexivity]. exists f. split; [left; reflexivity|split; [exact Hfo|discriminate]]. }
      destruct (dict_pop Z.eq_dec fg f) as [fg'|] eqn:Hp.
      2:{ split; [intros _|reflexivity]. exists f. split; [left; reflexivity|split; [exact Hfo|]].
          intros fg0 Hfg0. injection Hfg0 as <-. exact (proj1 (dict_pop_None Z.eq_dec fg f) Hp). }
      rewrite (IH _ (dict_set Z.eq_dec zgt d fg') (drop_key Z.eq_dec f fd) (dict_get_set_same Z.eq_dec zpp d _)
                 (NoDup_dict_keys_filter _ _ Hnd) Hr).
      2:{ intros f' Hf'. apply In_dict_keys_drop_key; [intros ->; contradiction|apply Hin'; exact Hf']. }
      rewrite dict_get_set_same. split.
      * intros (f' & Hf' & H1 & H2). exists f'. split; [right; exact Hf'|split; [exact H1|]].
        intros fg0 Hfg0. injection Hfg0 as <-. intros Hk. apply (H2 fg' eq_refl).
        apply (dict_pop_other Z.eq_dec fg fg' f f' Hp); [intros ->; contradiction|exact Hk].
      * intros (f' & [<-|Hf'] & H1 & H2).
        -- exfalso. apply (H2 fg eq_refl). destruct (in_dec Z.eq_dec f (dict_keys fg)) as [Hk|Hk];
             [exact Hk|rewrite (proj2 (dict_pop_None Z.eq_dec fg f) Hk) in Hp; discriminate].
        -- exists f'. split; [exact Hf'|split; [exact H1|]].
           intros fg0 Hfg0. injection Hfg0 as <-. intros Hk. apply (H2 fg eq_refl).
           apply (dict_pop_other Z.eq_dec fg fg' f f' Hp); [intros ->; contradiction|exact Hk].
Qed.

Lemma prune_tasks_none {P G : Type} (unique_datasets : list tid) (folds : list Z) (ns : list tid)
    (zpp : list (tid * list (Z * P))) (zgt : list (tid * list (Z * G))) :
  NoDup (dict_keys zpp) -> (forall d fd, In (d, fd) zpp -> NoDup (dict_keys fd)) ->
  NoDup ns -> (forall d, In d ns -> In d (dict_keys zpp)) ->
  (prune_tasks unique_datasets folds ns zpp zgt = None <->
   exists d, In d ns /\
     ((~ In d unique_datasets /\ ~ In d (dict_keys zgt)) \/
      (In d unique_datasets /\ exists fd, dict_get Z.eq_dec zpp d = Some fd /\
         exists f, In f (dict_keys fd) /\ ~ In f folds /\
           forall fg, dict_get Z.eq_dec zgt d = Some fg -> ~ In f (dict_keys fg)))).
Proof.
  revert zpp zgt; induction ns as [|d r IH]; intros zpp zgt Hnd Hinner Hns Hsub; simpl.
  - split; [discriminate|intros (d & [] & _)].
  - inversion Hns as [|? ? Hd Hr]; subst.
    assert (Hdk : In d (dict_keys zpp)) by (apply Hsub; left; reflexivity).
    assert (Hsub' : forall x, In x r -> In x (dict_keys zpp)) by (intros; apply Hsub; right; auto).
    destruct (existsb (Z.eqb d) unique_datasets) eqn:Eu; simpl.
    + assert (Hu : In d unique_datasets) by (apply existsb_Z_In; exact Eu).
      destruct (dict_get Z.eq_dec zpp d) as [fd|] eqn:Hget;
        [|apply dict_get_None in Hget; contradiction].
      pose proof (Hinner d fd (dict_get_In _ _ _ _ Hget)) as Hndfd.
      pose proof (prune_folds_none folds d (dict_keys fd) zpp zgt fd Hget Hndfd Hndfd (fun f H => H))
        as Hpn.
      destruct (prune_folds folds d (dict_keys fd) zpp zgt) as [[zpp1 zgt1]|] eqn:Hpf.
      * pose proof (prune_folds_spec folds d _ zpp zgt fd zpp1 zgt1 Hget Hndfd Hndfd (fun f H => H) Hpf)
          as Hz1.
        set (fd1 := filter _ fd) in Hz1.
        assert (Hk1 : dict_keys zpp1 = dict_keys zpp) by (rewrite Hz1; apply dict_keys_set_in; exact Hdk).
        rewrite (IH zpp1 zgt1).
        2:{ rewrite Hz1. apply NoDup_dict_set. exact Hnd. }
        2:{ intros x w Hin. rewrite Hz1 in Hin.
            destruct (In_dict_set _ _ _ _ _ _ Hnd Hin) as [[-> ->]|[_ Hin']].
            - apply NoDup_dict_keys_filter. exact Hndfd.
            - exact (Hinner x w Hin'). }
        2:{ exact Hr. }
        2:{ intros x Hx. rewrite Hk1. auto. }
        split.
        -- intros (x & Hx & Hb). exists x. split; [right; exact Hx|].
           assert (Hne : x <> d) by (intros ->; contradiction).
           destruct (prune_folds_other folds d _ zpp zgt zpp1 zgt1 x Hpf Hne) as [Hg1 Hk1'].
           rewrite Hz1, dict_get_set_other in Hb by exact Hne. rewrite Hg1, Hk1' in Hb. exact Hb.
        -- intros (x & [<-|Hx] & Hb).
           ++ exfalso. destruct Hb as [[Hn _]|[_ (fd' & Hg' & Hex)]]; [contradiction|].
              rewrite Hget in Hg'. injection Hg' as <-. apply proj2 in Hpn. discriminate (Hpn Hex).
           ++ exists x. split; [exact Hx|].
              assert (Hne : x <> d) by (intros ->; contradiction).
              destruct (prune_folds_other folds d _ zpp zgt zpp1 zgt1 x Hpf Hne) as [Hg1 Hk1'].
              rewrite Hz1, dict_get_set_other by exact Hne. rewrite Hg1, Hk1'. exact Hb.
      * split; [intros _|reflexivity]. destruct (proj1 Hpn eq_refl) as (f & Hf & Hfo & Hfg).
        exists d. split; [left; reflexivity|]. right. split; [exact Hu|].
        exists fd. split; [exact Hget|]. exists f. auto.
    + assert (Hu : ~ In d unique_datasets) by (intros Hx; apply existsb_Z_In in Hx; congruence).
      rewrite (dict_pop_spec Z.eq_dec zpp d Hnd).
      lazymatch goal with
      | |- context [in_dec ?e d ?l] => destruct (in_dec e d l) as [_|]; [|contradiction]
      end.
      cbv beta iota.
      destruct (dict_pop Z.eq_dec zgt d) as [zgt1|] eqn:Hp.
      * assert (Hdg : In d (dict_keys zgt)).
        { destruct (in_dec Z.eq_dec d (dict_keys zgt)) as [Hk|Hk]; [exact Hk|].
          rewrite (proj2 (dict_pop_None Z.eq_dec zgt d) Hk) in Hp. discriminate. }
        rewrite (IH (drop_key Z.eq_dec d zpp) zgt1).
        2:{ apply NoDup_dict_keys_filter. exact Hnd. }
        2:{ intros x w Hin. apply In_drop_key in Hin as [Hin _]. exact (Hinner x w Hin). }
        2:{ exact Hr. }
        2:{ intros x Hx. apply In_dict_keys_drop_key; [intros ->; contradiction|auto]. }
        assert (Hg : forall x, x <> d -> dict_get Z.eq_dec (drop_key Z.eq_dec d zpp) x = dict_get Z.eq_dec zpp x).
        { intros x Hne. apply dict_get_drop_key_other. exact Hne. }
        split.
        -- intros (x & Hx & Hb). exists x. split; [right; exact Hx|].
           assert (Hne : x <> d) by (intros ->; contradiction).
           destruct (dict_pop_other Z.eq_dec zgt zgt1 d x Hp Hne) as [Hg1 Hk1'].
           rewrite (Hg x Hne), Hg1, Hk1' in Hb. exact Hb.
        -- intros (x & [<-|Hx] & Hb).
           ++ exfalso. destruct Hb as [[_ Hn]|[Hn _]]; contradiction.
           ++ exists x. split; [exact Hx|].
              assert (Hne : x <> d) by (intros ->; contradiction).
              destruct (dict_pop_other Z.eq_dec zgt zgt1 d x Hp Hne) as [Hg1 Hk1'].
              rewrite (Hg x Hne), Hg1, Hk1'. exact Hb.
      * split; [intros _|reflexivity]. exists d. split; [left; reflexivity|]. left.
        split; [exact Hu|]. exact (proj1 (dict_pop_None Z.eq_dec zgt d) Hp).
Qed.

Lemma rename_tasks_None {K X V : Type} (d2t : K -> option X) (n2t : X -> option tid)
    (acc : list (tid * V)) (d : list (K * V)) :
  rename_tasks d2t n2t acc (filter_known d2t d) = None <->
  exists k v x, In (k, v) d /\ d2t k = Some x /\ n2t x = None.
Proof.
  revert acc; induction d as [|[k v] d IH]; intros acc; simpl.
  - split; [discriminate|intros (? & ? & ? & [] & _)].
  - destruct (d2t k) as [x|] eqn:Hk; simpl.
    + rewrite Hk. destruct (n2t x) as [t|] eqn:Hx.
      * rewrite IH. split.
        -- intros (k' & v' & x' & H1 & H2 & H3). exists k', v', x'. auto.
        -- intros (k' & v' & x' & [Heq|H1] & H2 & H3); [|exists k', v', x'; auto].
           inversion Heq; subst. congruence.
      * split; [intros _|reflexivity]. exists k, v, x. auto.
    + rewrite IH. split.
      * intros (k' & v' & x' & H1 & H2 & H3). exists k', v', x'. auto.
      * intros (k' & v' & x' & [Heq|H1] & H2 & H3); [|exists k', v', x'; auto].
        inversion Heq; subst. congruence.
Qed.

(** [load_zeroshot_pred_proba] raises [KeyError] exactly when a known
    dataset of the ground truth or of the predictions has no task id, or,
    after the checks pass, when a task to drop is missing from the ground
    truth, or a fold to drop of a kept task is missing from its ground
    truth. *)
Theorem load_zeroshot_pred_proba_key_error {K X P G : Type} (d2t : K -> option X)
    (n2t : X -> option tid) (unique_datasets : list tid) (folds : list Z)
    (zpp0 : list (K * list (Z * P))) (zgt0 : list (K * list (Z * G))) :
  (forall k fd, In (k, fd) zpp0 -> NoDup (dict_keys fd)) ->
  (load_zeroshot_pred_proba d2t n2t unique_datasets folds zpp0 zgt0 = inr KeyError <->
   (exists k v x, In (k, v) zgt0 /\ d2t k = Some x /\ n2t x = None) \/
   (exists k v x, In (k, v) zpp0 /\ d2t k = Some x /\ n2t x = None) \/
   (exists gt2 pp2,
      rename_tasks d2t n2t [] (filter_known d2t zgt0) = Some gt2 /\
      rename_tasks d2t n2t [] (filter_known d2t zpp0) = Some pp2 /\
      check_tasks pp2 folds unique_datasets = inl tt /\
      exists d, In d (dict_keys pp2) /\
        ((~ In d unique_datasets /\ ~ In d (dict_keys gt2)) \/
         (In d unique_datasets /\ exists fd, dict_get Z.eq_dec pp2 d = Some fd /\
            exists f, In f (dict_keys fd) /\ ~ In f folds /\
              forall fg, dict_get Z.eq_dec gt2 d = Some fg -> ~ In f (dict_keys fg))))).
Proof.
  intros Hin0.
  pose proof (load_zeroshot_pred_proba_steps d2t n2t unique_datasets folds zpp0 zgt0 _ eq_refl) as H.
  pose proof (rename_tasks_None d2t n2t [] zgt0) as Ngt.
  pose proof (rename_tasks_None d2t n2t [] zpp0) as Npp.
  destruct (rename_tasks d2t n2t [] (filter_known d2t zgt0)) as [gt2|].
  2:{ rewrite H. split; [intros _; left; apply Ngt; reflexivity|reflexivity]. }
  assert (Ngt' : ~ exists k v x, In (k, v) zgt0 /\ d2t k = Some x /\ n2t x = None)
    by (intros Hx; apply Ngt in Hx; discriminate). clear Ngt.
  destruct (rename_tasks d2t n2t [] (filter_known d2t zpp0)) as [pp2|] eqn:Hpp.
  2:{ rewrite H. split; [intros _; right; left; apply Npp; reflexivity|reflexivity]. }
  assert (Npp' : ~ exists k v x, In (k, v) zpp0 /\ d2t k = Some x /\ n2t x = None)
    by (intros Hx; apply Npp in Hx; discriminate). clear Npp.
  destruct (rename_tasks_spec d2t n2t [] _ pp2 (NoDup_nil _) Hpp) as [Hnd2 Hfrom].
  assert (Hinner2 : forall d fd, In (d, fd) pp2 -> NoDup (dict_keys fd)).
  { intros d fd Hin. destruct (Hfrom d fd Hin) as [[]|(k & Hk)].
    exact (Hin0 k fd (filter_known_In _ _ _ _ Hk)). }
  destruct (check_tasks_fail pp2 folds unique_datasets) as [Hck|[Hck _]]; rewrite Hck in H.
  - rewrite H. pose proof (prune_tasks_none unique_datasets folds (dict_keys pp2) pp2 gt2
                             Hnd2 Hinner2 Hnd2 (fun d H => H)) as Hn.
    split.
    + intros E. right. right. exists gt2, pp2. split; [reflexivity|]. split; [reflexivity|].
      split; [exact Hck|]. apply Hn.
      destruct (prune_tasks unique_datasets folds (dict_keys pp2) pp2 gt2); [discriminate|reflexivity].
    + intros [Hx|[Hx|(g & p & Hg & Hp & _ & Hex)]]; [contradiction|contradiction|].
      injection Hg as <-. injection Hp as <-. apply Hn in Hex. rewrite Hex. reflexivity.
  - rewrite H. split; [discriminate|].
    intros [Hx|[Hx|(g & p & Hg & Hp & Hc & _)]]; [contradiction|contradiction|].
    injection Hp as <-. congruence.
Qed.

Lemma load_zeroshot_pred_proba_key_error_witness :
  (forall k fd, In (k, fd) example_raw_pred_proba -> NoDup (dict_keys fd)) /\
  load_zeroshot_pred_proba example_dataset_to_tid example_name_to_tid [1; 2] [0]
    example_raw_pred_proba example_raw_gt_no_c = inr KeyError /\
  ((exists k v x, In (k, v) example_raw_gt_no_c /\ example_dataset_to_tid k = Some x /\
                  example_name_to_tid x = None) \/
   (exists k v x, In (k, v) example_raw_pred_proba /\ example_dataset_to_tid k = Some x /\
                  example_name_to_tid x = None) \/
   (exists gt2 pp2,
      rename_tasks example_dataset_to_tid example_name_to_tid []
        (filter_known example_dataset_to_tid example_raw_gt_no_c) = Some gt2 /\
      rename_tasks example_dataset_to_tid example_name_to_tid []
        (filter_known example_dataset_to_tid example_raw_pred_proba) = Some pp2 /\
      check_tasks pp2 [0] [1; 2] = inl tt /\
      exists d, In d (dict_keys pp2) /\
        ((~ In d [1; 2] /\ ~ In d (dict_keys gt2)) \/
         (In d [1; 2] /\ exists fd, dict_get Z.eq_dec pp2 d = Some fd /\
            exists f, In f (dict_keys fd) /\ ~ In f [0] /\
              forall fg, dict_get Z.eq_dec gt2 d = Some fg -> ~ In f (dict_keys fg))))).
Proof.
  assert (E : load_zeroshot_pred_proba example_dataset_to_tid example_name_to_tid [1; 2] [0]
    example_raw_pred_proba example_raw_gt_no_c = inr KeyError) by (vm_compute; reflexivity).
  split; [exact example_raw_pred_proba_inner_NoDup|]. split; [exact E|].
  exact (proj1 (load_zeroshot_pred_proba_key_error example_dataset_to_tid example_name_to_tid
                  [1; 2] [0] example_raw_pred_proba example_raw_gt_no_c
                  example_raw_pred_proba_inner_NoDup) E).
Defined.


(** * More proofs about [config_generator.py] *)

(** ** Subsequences *)

Lemma subseq_refl {A : Type} (l : list A) : subseq l l.
Proof. induction l; constructor; assumption. Qed.

Lemma subseq_trans {A : Type} (l1 l2 l3 : list A) :
  subseq l1 l2 -> subseq l2 l3 -> subseq l1 l3.
Proof.
  intros H12 H23. revert l1 H12. induction H23 as [|x l2 l3 H23 IH|x l2 l3 H23 IH]; intros l1 H12.
  - exact H12.
  - inversion H12; subst; constructor; auto.
  - constructor. auto.
Qed.

Lemma subseq_remove_middle {A : Type} (l1 l2 : list A) x :
  subseq (l1 ++ l2) (l1 ++ x :: l2).
Proof.
  induction l1 as [|y r IH]; simpl; [constructor; apply subseq_refl|constructor; exact IH].
Qed.

Lemma subseq_length {A : Type} (l1 l2 : list A) :
  subseq l1 l2 -> (List.length l1 <= List.length l2)%nat.
Proof. induction 1; simpl; lia. Qed.

Lemma subseq_In {A : Type} (l1 l2 : list A) x : subseq l1 l2 -> In x l1 -> In x l2.
Proof.
  induction 1; simpl; [tauto|intros [->|H']; [left; reflexivity|right; auto]|intros H'; right; auto].
Qed.

(** ** The result of [prune_zeroshot_configs] *)

Lemma prune_reach_subseq sc thr zs0 bs0 zs bs :
  prune_reach sc thr zs0 bs0 zs bs -> subseq zs zs0.
Proof.
  induction 1 as [|zs bs bs' x zs' Hr IH Hround Hrem]; [apply subseq_refl|].
  destruct (py_remove_spec _ _ _ Hrem) as (l1 & l2 & -> & _ & ->).
  exact (subseq_trans _ _ _ (subseq_remove_middle l1 l2 (Some x)) IH).
Qed.


(** [prune_zeroshot_configs] (config_generator.py) always returns, for any
    scorer and slack: it only takes configurations out of the portfolio
    and keeps the order of the others. *)
Theorem prune_zeroshot_configs_subseq (sc : scorer) (removal_threshold : Z) (p : list config) :
  exists r, prune_zeroshot_configs sc (map Some p) removal_threshold = Some r /\
            subseq r (map Some p).
Proof.
  destruct (prune_loop_reach sc removal_threshold (S (List.length (map Some p))) (map Some p)
              (sc (map Some p)) (map Some p) (sc (map Some p)) (map_Some_no_None p)
              (prune_reach_init _ _ _ _) (Nat.lt_succ_diag_r _))
    as (r & br & Hloop & Hr & _).
  exists r. split; [exact Hloop|exact (prune_reach_subseq _ _ _ _ _ _ Hr)].
Qed.



(** ** Forward selection on the ray backend *)

Lemma py_in_Some (c : config) (zs : list entry) : py_in (Some c) zs = true <-> In (Some c) zs.
Proof.
  unfold py_in. rewrite existsb_exists. split.
  - intros (x & Hx & E). apply entry_eqb_true in E. subst. exact Hx.
  - intros H. exists (Some c). split; [exact H|apply entry_eqb_true; reflexivity].
Qed.

Lemma valid_configs_of_In (all : list config) (zs : list entry) c :
  In c (valid_configs_of all zs) <-> In c all /\ ~ In (Some c) zs.
Proof.
  unfold valid_configs_of. rewrite filter_In, negb_true_iff, <- py_in_Some.
  destruct (py_in (Some c) zs); split; intros [H1 H2]; split; auto; congruence.
Qed.

Lemma valid_configs_of_nil (all : list config) (zs : list entry) :
  valid_configs_of all zs = [] -> forall c, In c all -> In (Some c) zs.
Proof.
  intros H c Hc. apply py_in_Some. destruct (py_in (Some c) zs) eqn:E; [reflexivity|].
  assert (Hv : In c (valid_configs_of all zs)) by (apply valid_configs_of_In; rewrite <- py_in_Some; split; congruence).
  rewrite H in Hv. destruct Hv.
Qed.

Lemma selector_picks (backend : string) (v : list config) (zs : list entry) (sc : scorer) :
  (backend = "ray"%string \/ forall l, sc l < sentinel) -> v <> [] ->
  exists c s, selector_of backend v zs sc = Some (Some c, s) /\ In c v.
Proof.
  intros Hb Hv. unfold selector_of. destruct (String.eqb backend "ray") eqn:E.
  - destruct (select_ray_argmin sc zs v Hv) as (c & s & Ham & ->).
    destruct (argmin_first_spec sc zs v c s Ham) as (_ & Hc & _). eauto.
  - destruct Hb as [->|Hlt]; [discriminate|].
    rewrite select_sequential_argmin.
    destruct (argmin_first_nonempty sc zs v Hv) as (c & s & Ham). rewrite Ham.
    destruct (argmin_first_spec sc zs v c s Ham) as (-> & Hc & _).
    rewrite (proj2 (Z.ltb_lt _ _) (Hlt _)). eauto.
Qed.

Lemma forward_loop_extends (backend : string) (sc : scorer) (all : list config) (num : Z)
    (fuel : nat) (zs : list entry) (calls : list (list entry)) zs' calls' :
  (backend = "ray"%string \/ forall l, sc l < sentinel) ->
  forward_loop (selector_of backend) sc all num fuel zs calls = Some (zs', calls') ->
  exists new, zs' = zs ++ map Some new /\ NoDup new /\
    (forall c, In c new -> In c all /\ ~ In (Some c) zs) /\
    (Z.of_nat (List.length zs') < num -> forall c, In c all -> In (Some c) zs') /\
    (new <> [] -> Z.of_nat (List.length zs') <= num).
Proof.
  intros Hb. revert zs calls; induction fuel as [|fuel IH]; intros zs calls H; simpl in H;
    [discriminate|].
  destruct (Z.ltb_spec (Z.of_nat (List.length zs)) num) as [Hlt|Hge].
  - destruct (valid_configs_of all zs) as [|v0 vr] eqn:Hv.
    + injection H as <- <-. exists []. rewrite app_nil_r.
      split; [reflexivity|]. split; [constructor|]. split; [intros _ []|].
      split; [intros _; exact (valid_configs_of_nil all zs Hv)|congruence].
    + destruct (selector_picks backend (v0 :: vr) zs sc Hb ltac:(discriminate))
        as (c & s & Hsel & Hc). rewrite Hsel in H.
      rewrite <- Hv in Hc. apply valid_configs_of_In in Hc as [Hca Hcz].
      destruct (IH _ _ H) as (new & -> & Hnd & Hnew & Hfull & Hle).
      rewrite <- app_assoc in Hfull, Hle.
      exists (c :: new). rewrite <- app_assoc. split; [reflexivity|]. split.
      * constructor; [|exact Hnd]. intros Hin. apply (proj2 (Hnew c Hin)).
        apply in_or_app. right. left. reflexivity.
      * split; [|split; [exact Hfull|]].
        -- intros x [<-|Hx]; [split; assumption|].
           destruct (Hnew x Hx) as [H1 H2]. split; [exact H1|].
           intros Hin. apply H2. apply in_or_app. left. exact Hin.
        -- intros _. destruct new as [|n1 nr]; [|apply Hle; discriminate].
           rewrite !length_app. simpl. lia.
  - injection H as <- <-. exists []. rewrite app_nil_r.
    split; [reflexivity|]. split; [constructor|]. split; [intros _ []|].
    split; [lia|congruence].
Qed.

(** [select_zeroshot_configs] without the removal stage, on the ray backend
    (or with every score below the sequential sentinel): the result is the
    prior portfolio followed by new, distinct pool configurations that were
    not in the prior; it stays below the target only when every pool
    configuration is in it, and it never exceeds the target when it added
    anything. *)
Theorem select_zeroshot_configs_forward (g : ZeroshotConfigGenerator) (num_zeroshot : Z)
    (zeroshot_configs : option (list entry)) (removal_threshold : Z) (zs : list entry) :
  (backend g = "ray"%string \/ forall l, gen_config_scorer g l < sentinel) ->
  select_zeroshot_configs g num_zeroshot zeroshot_configs false removal_threshold = Some zs ->
  exists new,
    zs = match zeroshot_configs with None => [] | Some l => l end ++ map Some new /\
    NoDup new /\
    (forall c, In c new ->
       In c (all_configs g) /\ ~ In (Some c) (match zeroshot_configs with None => [] | Some l => l end)) /\
    (Z.of_nat (List.length zs) < num_zeroshot -> forall c, In c (all_configs g) -> In (Some c) zs) /\
    (new <> [] -> Z.of_nat (List.length zs) <= num_zeroshot).
Proof.
  intros Hb H. unfold select_zeroshot_configs, select_zeroshot_configs_traced in H.
  destruct (forward_loop _ _ _ _ _ _ []) as [[zs' calls]|] eqn:Hf; [|discriminate].
  simpl in H. injection H as <-.
  exact (forward_loop_extends _ _ _ _ _ _ _ _ _ Hb Hf).
Qed.

Lemma select_zeroshot_configs_forward_witness :
  (backend (mkGenerator (fun l => Z.of_nat (List.length l)) ["A"; "B"; "C"]%string "ray") = "ray"%string
   \/ forall l, gen_config_scorer (mkGenerator (fun l => Z.of_nat (List.length l)) ["A"; "B"; "C"]%string "ray") l < sentinel) /\
  select_zeroshot_configs (mkGenerator (fun l => Z.of_nat (List.length l)) ["A"; "B"; "C"]%string "ray")
    2 (Some [Some "B"%string]) false 0 = Some [Some "B"%string; Some "A"%string] /\
  exists new,
    [Some "B"%string; Some "A"%string] = [Some "B"%string] ++ map Some new /\ NoDup new /\
    (forall c, In c new -> In c ["A"; "B"; "C"]%string /\ ~ In (Some c) [Some "B"%string]) /\
    (Z.of_nat (List.length [Some "B"%string; Some "A"%string]) < 2 ->
       forall c, In c ["A"; "B"; "C"]%string -> In (Some c) [Some "B"%string; Some "A"%string]) /\
    (new <> [] -> Z.of_nat (List.length [Some "B"%string; Some "A"%string]) <= 2).
Proof.
  assert (Hb : backend (mkGenerator (fun l => Z.of_nat (List.length l)) ["A"; "B"; "C"]%string "ray")
               = "ray"%string \/
               forall l, gen_config_scorer (mkGenerator (fun l => Z.of_nat (List.length l))
                                              ["A"; "B"; "C"]%string "ray") l < sentinel)
    by (left; reflexivity).
  assert (E : select_zeroshot_configs (mkGenerator (fun l => Z.of_nat (List.length l)) ["A"; "B"; "C"]%string "ray")
    2 (Some [Some "B"%string]) false 0 = Some [Some "B"%string; Some "A"%string]) by reflexivity.
  split; [exact Hb|]. split; [exact E|].
  exact (select_zeroshot_configs_forward _ 2 (Some [Some "B"%string]) 0 _ Hb E).
Defined.

(** ** [ZeroshotConfigGeneratorCV.__init__] *)

Lemma map_option_None {A B : Type} (f : A -> option B) (l : list A) :
  map_option f l = None <-> exists x, In x l /\ f x = None.
Proof.
  induction l as [|x r IH]; simpl.
  - split; [discriminate|intros (? & [] & _)].
  - destruct (f x) as [y|] eqn:Hx.
    + destruct (map_option f r) as [ys|] eqn:Hr; split.
      * discriminate.
      * intros (x' & [<-|Hin] & Hn); [congruence|].
        assert (E : Some ys = None) by (apply IH; eauto). discriminate.
      * intros _. destruct (proj1 IH eq_refl) as (x' & Hin & Hn). eauto.
      * reflexivity.
    + split; [intros _; eauto|reflexivity].
Qed.

(** [ZeroshotConfigGeneratorCV.__init__] (config_generator.py) fails exactly
    when [n_splits < 2] (the assertion) or when a dataset of the scorer has
    no parent in [dataset_name_to_tid_dict] (a [KeyError]). *)
Theorem cv_init_fails (ns : nat) (dataset_name_to_tid_dict : string -> option tid)
    (get_configs : list config) (sc : ConfigurationListScorer) (configs : option (list config))
    (backend : string) :
  cv_init ns dataset_name_to_tid_dict get_configs sc configs backend = None <->
  (ns < 2)%nat \/ exists d, In d (scorer_datasets sc) /\ dataset_name_to_tid_dict d = None.
Proof.
  unfold cv_init. destruct (Nat.ltb_spec ns 2) as [Hlt|Hge].
  - split; [intros _; left; exact Hlt|reflexivity].
  - pose proof (map_option_None (fun d => option_map (pair d) (dataset_name_to_tid_dict d))
                  (scorer_datasets sc)) as Hn.
    destruct (map_option _ (scorer_datasets sc)) as [pairs|].
    + split; [discriminate|]. intros [Hlt|(d & Hd & Hnd)]; [lia|].
      assert (E : Some pairs = None).
      { apply Hn. exists d. split; [exact Hd|]. rewrite Hnd. reflexivity. }
      discriminate.
    + split; [intros _|reflexivity]. right.
      destruct (proj1 Hn eq_refl) as (d & Hd & Hnd). exists d. split; [exact Hd|].
      destruct (dataset_name_to_tid_dict d); [discriminate|reflexivity].
Qed.

Lemma insert_by_sorted {A : Type} (le : A -> A -> bool)
    (Htot : forall a b, le a b = false -> le b a = true) (x : A) (l : list A) :
  Sorted (fun a b => le a b = true) l -> Sorted (fun a b => le a b = true) (insert_by le x l).
Proof.
  induction l as [|y r IH]; intros Hs; simpl; [repeat constructor|].
  destruct (le x y) eqn:Exy; [constructor; [exact Hs|constructor; exact Exy]|].
  apply Sorted_inv in Hs as [Hr Hy]. constructor; [exact (IH Hr)|].
  destruct r as [|z r']; simpl; [constructor; exact (Htot _ _ Exy)|].
  destruct (le x z); constructor; [exact (Htot _ _ Exy)|inversion Hy; assumption].
Qed.

Lemma sorted_by_sorted {A : Type} (le : A -> A -> bool)
    (Htot : forall a b, le a b = false -> le b a = true) (l : list A) :
  Sorted (fun a b => le a b = true) (sorted_by le l).
Proof.
  induction l as [|x r IH]; simpl; [constructor|]. exact (insert_by_sorted le Htot x _ IH).
Qed.

Lemma Sorted_le_NoDup_lt (l : list Z) :
  Sorted (fun a b => Z.leb a b = true) l -> NoDup l -> Sorted Z.lt l.
Proof.
  induction 1 as [|a l Hs IH Hh]; intros Hnd; constructor.
  - inversion Hnd; auto.
  - inversion Hnd as [|? ? Ha _]; subst. inversion Hh as [|b l' Hab]; subst; constructor.
    apply Z.leb_le in Hab. destruct (Z.eq_dec a b) as [->|Hne]; [|lia].
    exfalso. apply Ha. left. reflexivity.
Qed.

Lemma map_option_pairs (f : string -> option tid) (ds : list string) pairs :
  map_option (fun d => option_map (pair d) (f d)) ds = Some pairs ->
  map fst pairs = ds /\
  forall p, map fst (filter (fun '(_, q) => Z.eqb q p) pairs) =
            filter (fun d => match f d with Some q => Z.eqb q p | None => false end) ds.
Proof.
  revert pairs; induction ds as [|d r IH]; intros pairs H; simpl in H.
  - injection H as <-. split; reflexivity.
  - destruct (f d) as [t|] eqn:Hd; simpl in H; [|discriminate].
    destruct (map_option _ r) as [ps|]; [|discriminate]. injection H as <-.
    destruct (IH ps eq_refl) as [H1 H2]. split; [simpl; rewrite H1; reflexivity|].
    intros p. simpl. rewrite Hd. destruct (Z.eqb t p); [simpl; f_equal|]; apply H2.
Qed.

(** After [ZeroshotConfigGeneratorCV.__init__], the parent datasets are in
    strictly increasing order (so without repetition), and each parent maps
    to its dataset folds in [sorted] order: a reordering of the scorer's
    datasets whose parent it is. *)
Theorem cv_init_sorted (ns : nat) (dataset_name_to_tid_dict : string -> option tid)
    (get_configs : list config) (sc : ConfigurationListScorer) (configs : option (list config))
    (backend : string) (cv : ZeroshotConfigGeneratorCV) :
  cv_init ns dataset_name_to_tid_dict get_configs sc configs backend = Some cv ->
  Sorted Z.lt (unique_datasets cv) /\
  forall p,
    Sorted (fun a b => String.leb a b = true) (dataset_parent_to_fold_map cv p) /\
    Permutation (dataset_parent_to_fold_map cv p)
      (filter (fun d => match dataset_name_to_tid_dict d with Some q => Z.eqb q p | None => false end)
              (scorer_datasets sc)).
Proof.
  intros H. unfold cv_init in H.
  destruct (Nat.ltb_spec ns 2); [discriminate|].
  destruct (map_option _ (scorer_datasets sc)) as [pairs|] eqn:Hp; [|discriminate].
  injection H as <-. cbn [unique_datasets dataset_parent_to_fold_map].
  destruct (map_option_pairs _ _ _ Hp) as [_ Hf].
  split.
  - apply Sorted_le_NoDup_lt.
    + apply sorted_by_sorted. intros a b E. apply Z.leb_gt in E. apply Z.leb_le. lia.
    + apply (Permutation_NoDup (Permutation_sym (sorted_by_perm _ _))). apply NoDup_nodup.
  - intros p. split.
    + apply sorted_by_sorted. intros a b E. destruct (String.leb_total a b); congruence.
    + rewrite sorted_by_perm, Hf. reflexivity.
Qed.

Lemma cv_init_sorted_witness :
  cv_init 2 example_tid_dict ["x"%string; "y"%string]
    (example_list_scorer ["d2"; "a1"; "c1"; "b2"; "a2"; "b1"; "c2"; "d1"]%string) None "sequential"
    = Some (example_cv 2 ["d2"; "a1"; "c1"; "b2"; "a2"; "b1"; "c2"; "d1"]%string) /\
  unique_datasets (example_cv 2 ["d2"; "a1"; "c1"; "b2"; "a2"; "b1"; "c2"; "d1"]%string) = [1; 2; 3; 4] /\
  Sorted Z.lt (unique_datasets (example_cv 2 ["d2"; "a1"; "c1"; "b2"; "a2"; "b1"; "c2"; "d1"]%string)) /\
  forall p,
    Sorted (fun a b => String.leb a b = true)
      (dataset_parent_to_fold_map (example_cv 2 ["d2"; "a1"; "c1"; "b2"; "a2"; "b1"; "c2"; "d1"]%string) p) /\
    Permutation (dataset_parent_to_fold_map (example_cv 2 ["d2"; "a1"; "c1"; "b2"; "a2"; "b1"; "c2"; "d1"]%string) p)
      (filter (fun d => match example_tid_dict d with Some q => Z.eqb q p | None => false end)
              (scorer_datasets (example_list_scorer ["d2"; "a1"; "c1"; "b2"; "a2"; "b1"; "c2"; "d1"]%string))).
Proof.
  assert (Hi : cv_init 2 example_tid_dict ["x"%string; "y"%string]
    (example_list_scorer ["d2"; "a1"; "c1"; "b2"; "a2"; "b1"; "c2"; "d1"]%string) None "sequential"
    = Some (example_cv 2 ["d2"; "a1"; "c1"; "b2"; "a2"; "b1"; "c2"; "d1"]%string)) by reflexivity.
  split; [exact Hi|]. split; [vm_compute; reflexivity|].
  exact (cv_init_sorted _ _ _ _ _ _ _ Hi).
Defined.

(** ** [ZeroshotConfigGeneratorCV.run] and [run_fold] *)

Lemma map_option_app {A B : Type} (f : A -> option B) (l1 l2 : list A) a b :
  map_option f l1 = Some a -> map_option f l2 = Some b -> map_option f (l1 ++ l2) = Some (a ++ b).
Proof.
  revert a; induction l1 as [|x r IH]; intros a H1 H2; simpl in *.
  - injection H1 as <-. exact H2.
  - destruct (f x); [|discriminate]. destruct (map_option f r) as [ys|]; [|discriminate].
    injection H1 as <-. rewrite (IH ys eq_refl H2). reflexivity.
Qed.

Lemma map_option_perm {A B : Type} (f : A -> option B) (l l' : list A) a :
  Permutation l l' -> map_option f l = Some a ->
  exists b, map_option f l' = Some b /\ Permutation a b.
Proof.
  intros Hp. revert a. induction Hp as [|x l l' Hp IH|x y l|l l' l'' H1 IH1 H2 IH2]; intros a H.
  - exists a. split; [exact H|reflexivity].
  - simpl in *. destruct (f x) as [fx|]; [|discriminate].
    destruct (map_option f l) as [ys|]; [|discriminate]. injection H as <-.
    destruct (IH ys eq_refl) as (b & -> & Hb). exists (fx :: b). split; [reflexivity|].
    apply perm_skip. exact Hb.
  - simpl in *. destruct (f y) as [fy|]; [|discriminate]. destruct (f x) as [fx|]; [|discriminate].
    destruct (map_option f l) as [ys|]; [|discriminate]. injection H as <-.
    exists (fx :: fy :: ys). split; [reflexivity|apply perm_swap].
  - destruct (IH1 a H) as (b & Hb & Hab). destruct (IH2 b Hb) as (c & Hc & Hbc).
    exists c. split; [exact Hc|]. exact (perm_trans Hab Hbc).
Qed.

Lemma map_option_nth_seq {A : Type} (U : list A) :
  map_option (nth_error U) (seq 0 (List.length U)) = Some U.
Proof.
  assert (H : forall pre, map_option (nth_error (pre ++ U)) (seq (List.length pre) (List.length U)) = Some U).
  { induction U as [|x r IH]; intros pre; simpl; [reflexivity|].
    rewrite nth_error_app2 by lia. rewrite Nat.sub_diag. simpl.
    specialize (IH (pre ++ [x])). rewrite <- app_assoc, length_app in IH. simpl in IH.
    rewrite Nat.add_1_r in IH. rewrite IH. reflexivity. }
  exact (H []).
Qed.

Lemma filter_negb_app_perm {A : Type} (g : A -> bool) (l : list A) :
  Permutation (filter (fun x => negb (g x)) l ++ filter g l) l.
Proof.
  induction l as [|x r IH]; simpl; [reflexivity|].
  destruct (g x); simpl.
  - rewrite <- Permutation_middle. apply perm_skip. exact IH.
  - apply perm_skip. exact IH.
Qed.

Lemma flat_map_perm_ext {A B : Type} (f g : A -> list B) (l : list A) :
  (forall x, Permutation (f x) (g x)) -> Permutation (flat_map f l) (flat_map g l).
Proof.
  intros H. induction l as [|x r IH]; simpl; [reflexivity|]. apply Permutation_app; auto.
Qed.

(** Grouping a list by a key over a list of distinct keys covering it is a
    reordering. *)
Lemma group_by_key_perm {A : Type} (key : A -> Z) (K : list Z) (l : list A) :
  NoDup K -> (forall x, In x l -> In (key x) K) ->
  Permutation (flat_map (fun p => filter (fun x => Z.eqb (key x) p) l) K) l.
Proof.
  revert l; induction K as [|p K IH]; intros l Hnd Hcov; simpl.
  - destruct l as [|x r]; [reflexivity|]. destruct (Hcov x (or_introl eq_refl)).
  - inversion Hnd as [|? ? Hp HK]; subst.
    set (l' := filter (fun x => negb (Z.eqb (key x) p)) l).
    assert (E : flat_map (fun q => filter (fun x => Z.eqb (key x) q) l) K =
                flat_map (fun q => filter (fun x => Z.eqb (key x) q) l') K).
    { unfold l'. clear IH Hcov HK Hnd. induction K as [|q K IHK]; simpl; [reflexivity|].
      assert (Hq : q <> p) by (intros ->; apply Hp; left; reflexivity).
      rewrite filter_filter_ext with (h := fun x => Z.eqb (key x) q).
      - rewrite IHK; [reflexivity|]. intros Hin. apply Hp. right. exact Hin.
      - intros x. destruct (Z.eqb_spec (key x) q) as [->|]; simpl; [|reflexivity].
        destruct (Z.eqb_spec q p) as [->|]; [contradiction|reflexivity]. }
    rewrite E, IH.
    + rewrite Permutation_app_comm. unfold l'.
      exact (filter_negb_app_perm (fun x => Z.eqb (key x) p) l).
    + exact HK.
    + intros x Hx. unfold l' in Hx. apply filter_In in Hx as [Hx Hn].
      destruct (Hcov x Hx) as [Heq|Hin]; [|exact Hin].
      rewrite Heq, Z.eqb_refl in Hn. discriminate.
Qed.

Lemma run_splits_records (cv : ZeroshotConfigGeneratorCV) (i : nat)
    (splits : list (list nat * list nat)) (recs : list fold_result) :
  run_splits cv i splits = Some recs ->
  forall k r, nth_error recs k = Some r ->
  fold r = S (i + k) /\
  exists tr te, nth_error splits k = Some (tr, te) /\
    np_take (unique_datasets cv) tr = Some (X_train r) /\
    np_take (unique_datasets cv) te = Some (X_test r) /\
    X_train_fold r = flat_map (dataset_parent_to_fold_map cv) (X_train r) /\
    X_test_fold r = flat_map (dataset_parent_to_fold_map cv) (X_test r) /\
    run_fold cv (X_train_fold r) (X_test_fold r) = Some (selected_configs r, fold_score r).
Proof.
  revert i recs; induction splits as [|[tr te] rest IH]; intros i recs H; simpl in H.
  - injection H as <-. intros [|k] r Hk; discriminate.
  - destruct (np_take _ tr) as [xtr|] eqn:Htr; [|discriminate].
    destruct (np_take _ te) as [xte|] eqn:Hte; [|discriminate].
    destruct (run_fold _ _ _) as [[zs sf]|] eqn:Hrf; [|discriminate].
    destruct (run_splits cv (S i) rest) as [recs'|] eqn:Hr; [|discriminate].
    injection H as <-. intros [|k] r Hk; simpl in Hk.
    + injection Hk as <-. simpl. split; [lia|]. exists tr, te. auto 7.
    + destruct (IH _ _ Hr k r Hk) as [Hf Hex]. split; [lia|exact Hex].
Qed.

Lemma kfold_split_in (shuffle : Z -> nat -> list nat) (k n : nat) splits tr te :
  kfold_split shuffle k n = Some splits -> In (tr, te) splits ->
  exists c, tr = filter (fun j => negb (existsb (Nat.eqb j) c)) (seq 0 n) /\
            te = filter (fun j => existsb (Nat.eqb j) c) (seq 0 n).
Proof.
  unfold kfold_split. destruct (n <? k)%nat; [discriminate|]. intros H Hin. injection H as <-.
  apply in_map_iff in Hin as (c & Hc & _). injection Hc as <- <-. eauto.
Qed.

Lemma map_fst_flat_map {A B C : Type} (f : A -> list (B * C)) (l : list A) :
  flat_map (fun x => map fst (f x)) l = map fst (flat_map f l).
Proof. induction l as [|x r IH]; simpl; [reflexivity|]. rewrite map_app, IH. reflexivity. Qed.

(** In every record of [ZeroshotConfigGeneratorCV.run], numbered [1, 2, ...]
    in order, the train and test parents are a reordering of all parents,
    and the train and test dataset folds are a reordering of the scorer's
    datasets, with no dataset fold on both sides.  This holds for any
    shuffle of the indices. *)
Theorem cv_run_dataset_folds (ns : nat) (dataset_name_to_tid_dict : string -> option tid)
    (get_configs : list config) (sc : ConfigurationListScorer) (configs : option (list config))
    (backend : string) (cv : ZeroshotConfigGeneratorCV) (shuffle : Z -> nat -> list nat)
    (recs : list fold_result) :
  cv_init ns dataset_name_to_tid_dict get_configs sc configs backend = Some cv ->
  cv_run shuffle cv = Some recs ->
  forall k r, nth_error recs k = Some r ->
    fold r = S k /\
    Permutation (X_train r ++ X_test r) (unique_datasets cv) /\
    Permutation (X_train_fold r ++ X_test_fold r) (scorer_datasets sc) /\
    (forall d, In d (X_train_fold r) -> ~ In d (X_test_fold r)).
Proof.
  intros Hinit Hrun k r Hk.
  unfold cv_init in Hinit. destruct (Nat.ltb_spec ns 2); [discriminate|].
  destruct (map_option _ (scorer_datasets sc)) as [pairs|] eqn:Hp; [|discriminate].
  injection Hinit as <-.
  destruct (map_option_pairs _ _ _ Hp) as [Hfst Hf].
  unfold cv_run in Hrun. cbn [n_splits unique_datasets] in Hrun.
  destruct (kfold_split _ _ _) as [splits|] eqn:Hs; [|discriminate].
  destruct (run_splits_records _ _ _ _ Hrun k r Hk)
    as (Hfold & tr & te & Hsk & Htr & Hte & Hxtr & Hxte & _).
  cbn [unique_datasets dataset_parent_to_fold_map] in Htr, Hte, Hxtr, Hxte |- *.
  set (U := sorted_by Z.leb (nodup Z.eq_dec (map snd pairs))) in *.
  set (fm := fun p : tid => sorted_by String.leb (map fst (filter (fun '(_, q) => Z.eqb q p) pairs))) in *.
  assert (HU : NoDup U).
  { apply (Permutation_NoDup (Permutation_sym (sorted_by_perm _ _))). apply NoDup_nodup. }
  destruct (kfold_split_in _ _ _ _ _ _ Hs (nth_error_In _ _ Hsk)) as (c & -> & ->).
  assert (Hpar : Permutation (X_train r ++ X_test r) U).
  { pose proof (map_option_app _ _ _ _ _ Htr Hte) as Happ.
    destruct (map_option_perm _ _ _ _ (filter_negb_app_perm (fun j => existsb (Nat.eqb j) c) _) Happ)
      as (b & Hb & Hperm).
    rewrite map_option_nth_seq in Hb. injection Hb as <-. exact Hperm. }
  split; [exact Hfold|]. split; [exact Hpar|]. split.
  - rewrite Hxtr, Hxte, <- flat_map_app, (Permutation_flat_map fm Hpar).
    unfold fm. rewrite (flat_map_perm_ext _ _ U (fun p => sorted_by_perm _ _)).
    unfold U. rewrite (Permutation_flat_map _ (sorted_by_perm _ _)).
    rewrite map_fst_flat_map, <- Hfst. apply Permutation_map.
    rewrite (flat_map_ext _ (fun p => filter (fun x => Z.eqb (snd x) p) pairs)).
    + apply group_by_key_perm; [apply NoDup_nodup|].
      intros x Hx. apply nodup_In. apply in_map. exact Hx.
    + intros p. apply filter_ext. intros [x q]. reflexivity.
  - assert (Hpar_of : forall d p, In d (fm p) -> dataset_name_to_tid_dict d = Some p).
    { intros d p Hd. unfold fm in Hd.
      apply (Permutation_in _ (sorted_by_perm _ _)) in Hd. rewrite Hf in Hd.
      apply filter_In in Hd as [_ Hd].
      destruct (dataset_name_to_tid_dict d) as [q|]; [|discriminate].
      apply Z.eqb_eq in Hd. subst. reflexivity. }
    intros d H1 H2. rewrite Hxtr in H1. rewrite Hxte in H2.
    apply in_flat_map in H1 as (p1 & Hp1 & Hd1). apply in_flat_map in H2 as (p2 & Hp2 & Hd2).
    apply Hpar_of in Hd1. apply Hpar_of in Hd2. rewrite Hd1 in Hd2. injection Hd2 as <-.
    exact (NoDup_app_disjoint _ _ p1 (Permutation_NoDup (Permutation_sym Hpar) HU) Hp1 Hp2).
Qed.

Lemma cv_run_dataset_folds_witness :
  cv_init 2 example_tid_dict ["x"%string; "y"%string]
    (example_list_scorer ["d2"; "a1"; "c1"; "b2"; "a2"; "b1"; "c2"; "d1"]%string) None "sequential"
    = Some (example_cv 2 ["d2"; "a1"; "c1"; "b2"; "a2"; "b1"; "c2"; "d1"]%string) /\
  exists recs r,
    cv_run identity_shuffle (example_cv 2 ["d2"; "a1"; "c1"; "b2"; "a2"; "b1"; "c2"; "d1"]%string)
      = Some recs /\
    nth_error recs 1 = Some r /\
    X_test_fold r = ["c1"; "c2"; "d1"; "d2"]%string /\
    fold r = 2%nat /\
    Permutation (X_train r ++ X_test r)
      (unique_datasets (example_cv 2 ["d2"; "a1"; "c1"; "b2"; "a2"; "b1"; "c2"; "d1"]%string)) /\
    Permutation (X_train_fold r ++ X_test_fold r)
      (scorer_datasets (example_list_scorer ["d2"; "a1"; "c1"; "b2"; "a2"; "b1"; "c2"; "d1"]%string)) /\
    (forall d, In d (X_train_fold r) -> ~ In d (X_test_fold r)).
Proof.
  assert (Hi : cv_init 2 example_tid_dict ["x"%string; "y"%string]
    (example_list_scorer ["d2"; "a1"; "c1"; "b2"; "a2"; "b1"; "c2"; "d1"]%string) None "sequential"
    = Some (example_cv 2 ["d2"; "a1"; "c1"; "b2"; "a2"; "b1"; "c2"; "d1"]%string)) by reflexivity.
  split; [exact Hi|].
  eexists; eexists.
  split; [reflexivity|]. split; [reflexivity|]. split; [reflexivity|].
  exact (cv_run_dataset_folds 2 example_tid_dict ["x"%string; "y"%string]
           (example_list_scorer ["d2"; "a1"; "c1"; "b2"; "a2"; "b1"; "c2"; "d1"]%string) None "sequential"
           _ identity_shuffle _ Hi eq_refl 1 _ eq_refl).
Defined.

(** The portfolio of every record of [ZeroshotConfigGeneratorCV.run] (on the
    ray backend, or with every score below the sequential sentinel) is made
    of distinct configurations of the generator's pool, at most 10 of them,
    and the whole pool when fewer than 10; its score is the test-fold
    scorer's score of that portfolio. *)
Theorem cv_run_selected_configs (cv : ZeroshotConfigGeneratorCV) (shuffle : Z -> nat -> list nat)
    (recs : list fold_result) :
  (cv_backend cv = "ray"%string \/ forall X l, subset (cv_config_scorer cv) X l < sentinel) ->
  cv_run shuffle cv = Some recs ->
  forall r, In r recs ->
    exists new,
      selected_configs r = map Some new /\ NoDup new /\
      (forall c, In c new -> In c (cv_configs cv)) /\
      (List.length new <= 10)%nat /\
      ((List.length new < 10)%nat -> forall c, In c (cv_configs cv) -> In c new) /\
      fold_score r = subset (cv_config_scorer cv) (X_test_fold r) (selected_configs r).
Proof.
  intros Hb Hrun r Hr. unfold cv_run in Hrun.
  destruct (kfold_split _ _ _) as [splits|]; [|discriminate].
  destruct (In_nth_error _ _ Hr) as [k Hk].
  destruct (run_splits_records _ _ _ _ Hrun k r Hk) as (_ & tr & te & _ & _ & _ & _ & _ & Hrf).
  unfold run_fold in Hrf.
  destruct (select_zeroshot_configs _ _ _ _ _) as [zs|] eqn:Hs; [|discriminate].
  injection Hrf as Hzs Hsc.
  unfold select_zeroshot_configs, select_zeroshot_configs_traced in Hs.
  destruct (forward_loop _ _ _ _ _ _ []) as [[zs' calls]|] eqn:Hf; [|discriminate].
  simpl in Hs. injection Hs as <-.
  cbn [gen_config_scorer backend all_configs] in Hf.
  assert (Hb' : cv_backend cv = "ray"%string \/
                forall l, subset (cv_config_scorer cv) (X_train_fold r) l < sentinel)
    by (destruct Hb as [Hb|Hb]; [left; exact Hb|right; intros l; apply Hb]).
  destruct (forward_loop_extends _ _ _ _ _ _ _ _ _ Hb' Hf)
    as (new & Hnew & Hnd & Hin & Hfull & Hle).
  simpl app in Hnew. rewrite Hnew in Hzs, Hsc, Hfull, Hle.
  exists new. rewrite <- Hzs, <- Hsc.
  rewrite length_map in Hfull, Hle.
  split; [reflexivity|]. split; [exact Hnd|]. split; [intros c Hc; exact (proj1 (Hin c Hc))|].
  split; [|split; [|reflexivity]].
  - destruct new as [|n1 nr]; [simpl; lia|]. specialize (Hle ltac:(discriminate)). lia.
  - intros Hlt c Hc. specialize (Hfull ltac:(lia) c Hc).
    apply in_map_iff in Hfull as (c' & Hc' & Hin'). injection Hc' as ->. exact Hin'.
Qed.

Lemma cv_run_selected_configs_witness :
  (cv_backend (mkCV 2 "ray" (example_list_scorer ["a1"; "a2"; "b1"; "b2"]%string) [1; 2]
      (fun p => if Z.eqb p 1 then ["a1"; "a2"]%string else ["b1"; "b2"]%string)
      ["x"; "y"; "z"]%string) = "ray"%string \/
   forall X l, subset (cv_config_scorer (mkCV 2 "ray" (example_list_scorer ["a1"; "a2"; "b1"; "b2"]%string) [1; 2]
      (fun p => if Z.eqb p 1 then ["a1"; "a2"]%string else ["b1"; "b2"]%string)
      ["x"; "y"; "z"]%string)) X l < sentinel) /\
  exists recs r,
    cv_run identity_shuffle (mkCV 2 "ray" (example_list_scorer ["a1"; "a2"; "b1"; "b2"]%string) [1; 2]
      (fun p => if Z.eqb p 1 then ["a1"; "a2"]%string else ["b1"; "b2"]%string)
      ["x"; "y"; "z"]%string) = Some recs /\
    In r recs /\
    selected_configs r = [Some "x"; Some "y"; Some "z"]%string /\
    exists new,
      selected_configs r = map Some new /\ NoDup new /\
      (forall c, In c new -> In c ["x"; "y"; "z"]%string) /\
      (List.length new <= 10)%nat /\
      ((List.length new < 10)%nat -> forall c, In c ["x"; "y"; "z"]%string -> In c new) /\
      fold_score r = subset (example_list_scorer ["a1"; "a2"; "b1"; "b2"]%string)
                       (X_test_fold r) (selected_configs r).
Proof.
  assert (Hb : cv_backend (mkCV 2 "ray" (example_list_scorer ["a1"; "a2"; "b1"; "b2"]%string) [1; 2]
      (fun p => if Z.eqb p 1 then ["a1"; "a2"]%string else ["b1"; "b2"]%string)
      ["x"; "y"; "z"]%string) = "ray"%string \/
   forall X l, subset (cv_config_scorer (mkCV 2 "ray" (example_list_scorer ["a1"; "a2"; "b1"; "b2"]%string) [1; 2]
      (fun p => if Z.eqb p 1 then ["a1"; "a2"]%string else ["b1"; "b2"]%string)
      ["x"; "y"; "z"]%string)) X l < sentinel) by (left; reflexivity).
  split; [exact Hb|].
  eexists; eexists.
  split; [reflexivity|]. split; [left; reflexivity|]. split; [reflexivity|].
  exact (cv_run_selected_configs _ identity_shuffle _ Hb eq_refl _ (or_introl eq_refl)).
Defined.

(** ** Lemmas about list objects on the heap *)

Import Heap.

Lemma frame_refl (h : heap) : frame h h.
Proof. split; [lia|reflexivity]. Qed.

Lemma bind_inv {A B : Type} (m : M A) (k : A -> M B) h r h' :
  bind m k h = Some (r, h') -> exists a h1, m h = Some (a, h1) /\ k a h1 = Some (r, h').
Proof. unfold bind. destruct (m h) as [[a h1]|]; [eauto|discriminate]. Qed.

Lemma read_inv l h v h' : read l h = Some (v, h') -> h' = h /\ nth_error h l = Some v.
Proof. unfold read. destruct (nth_error h l); intros H; inversion H; auto. Qed.

Lemma alloc_inv v h l h' :
  alloc v h = Some (l, h') -> l = List.length h /\ h' = h ++ [v].
Proof. unfold alloc. intros H. inversion H. auto. Qed.

Lemma frame_alloc h0 h v : frame h0 h -> frame h0 (h ++ [v]).
Proof.
  intros [Hlen Hcells]. split; [rewrite length_app; simpl; lia|].
  intros l Hl. rewrite nth_error_app1 by lia. apply Hcells. exact Hl.
Qed.

Lemma list_update_length {A : Type} (l : list A) i v :
  List.length (list_update l i v) = List.length l.
Proof.
  revert i; induction l as [|x r IH]; intros [|i]; simpl; auto.
Qed.

Lemma list_update_other {A : Type} (l : list A) i j v :
  i <> j -> nth_error (list_update l i v) j = nth_error l j.
Proof.
  revert i j; induction l as [|x r IH]; intros [|i] [|j] Hij; simpl; try reflexivity.
  - lia.
  - apply IH. lia.
Qed.

Lemma write_frame h0 h l v u h' :
  frame h0 h -> (List.length h0 <= l)%nat -> write l v h = Some (u, h') -> frame h0 h'.
Proof.
  intros [Hlen Hcells] Hl. unfold write.
  destruct (Nat.ltb_spec l (List.length h)); intros Hw; inversion Hw; subst.
  split; [rewrite list_update_length; lia|].
  intros j Hj. rewrite list_update_other by lia. apply Hcells. exact Hj.
Qed.

Lemma append_frame h0 h l x u h' :
  frame h0 h -> (List.length h0 <= l)%nat -> append l x h = Some (u, h') -> frame h0 h'.
Proof.
  intros Hf Hl H. unfold append in H.
  destruct (bind_inv _ _ _ _ _ H) as (v & h1 & Hr & Hw).
  destruct (read_inv _ _ _ _ Hr) as (-> & _).
  exact (write_frame _ _ _ _ _ _ Hf Hl Hw).
Qed.

Lemma remove_frame h0 h l x u h' :
  frame h0 h -> (List.length h0 <= l)%nat -> remove l x h = Some (u, h') -> frame h0 h'.
Proof.
  intros Hf Hl H. unfold remove in H.
  destruct (bind_inv _ _ _ _ _ H) as (v & h1 & Hr & Hw).
  destruct (read_inv _ _ _ _ Hr) as (-> & _).
  destruct (py_remove x v); [|discriminate].
  exact (write_frame _ _ _ _ _ _ Hf Hl Hw).
Qed.

Lemma forward_loop_h_frame h0 sel sc all_l num fuel zs h u h' :
  frame h0 h -> (List.length h0 <= zs)%nat ->
  forward_loop_h sel sc all_l num fuel zs h = Some (u, h') -> frame h0 h'.
Proof.
  revert h; induction fuel as [|fuel IH]; intros h Hf Hzs H; simpl in H; [discriminate|].
  destruct (bind_inv _ _ _ _ _ H) as (v & h1 & Hr & H1). clear H.
  destruct (read_inv _ _ _ _ Hr) as (-> & _).
  destruct (Z.of_nat (List.length v) <? num); [|inversion H1; subst; exact Hf].
  destruct (bind_inv _ _ _ _ _ H1) as (pool & h2 & Hr2 & H2). clear H1.
  destruct (read_inv _ _ _ _ Hr2) as (-> & _).
  destruct (valid_configs_of (strs_of pool) v) as [|c rest];
    [inversion H2; subst; exact Hf|].
  destruct (sel (c :: rest) v sc) as [[b s]|]; [|discriminate].
  destruct (bind_inv _ _ _ _ _ H2) as (u' & h3 & Ha & H3).
  exact (IH h3 (append_frame _ _ _ _ _ _ Hf Hzs Ha) Hzs H3).
Qed.

Lemma prune_loop_h_frame h0 sc thr fuel zs bs h u h' :
  frame h0 h -> (List.length h0 <= zs)%nat ->
  prune_loop_h sc thr fuel zs bs h = Some (u, h') -> frame h0 h'.
Proof.
  revert h bs; induction fuel as [|fuel IH]; intros h bs Hf Hzs H; simpl in H; [discriminate|].
  destruct (bind_inv _ _ _ _ _ H) as (v & h1 & Hr & H1). clear H.
  destruct (read_inv _ _ _ _ Hr) as (-> & _).
  destruct (prune_round sc thr v bs) as [bs' [x|]];
    [|inversion H1; subst; exact Hf].
  destruct (bind_inv _ _ _ _ _ H1) as (u' & h2 & Hrem & H2).
  exact (IH h2 bs' (remove_frame _ _ _ _ _ _ Hf Hzs Hrem) Hzs H2).
Qed.

Lemma prune_zeroshot_configs_h_frame h0 sc arg thr h r h' :
  frame h0 h -> prune_zeroshot_configs_h sc arg thr h = Some (r, h') ->
  frame h0 h' /\ (List.length h <= r)%nat.
Proof.
  intros Hf H. unfold prune_zeroshot_configs_h in H.
  destruct (bind_inv _ _ _ _ _ H) as (v & h1 & Hr & H1). clear H.
  destruct (read_inv _ _ _ _ Hr) as (-> & _).
  destruct (bind_inv _ _ _ _ _ H1) as (zs & h2 & Ha & H2). clear H1.
  destruct (alloc_inv _ _ _ _ Ha) as (-> & ->).
  destruct (bind_inv _ _ _ _ _ H2) as (u & h3 & Hl & H3). clear H2.
  inversion H3; subst. split; [|lia].
  refine (prune_loop_h_frame h0 sc thr _ _ _ (h ++ [v]) u h' (frame_alloc _ _ _ Hf) _ Hl).
  destruct Hf; lia.
Qed.

Lemma frame_length h0 h : frame h0 h -> (List.length h0 <= List.length h)%nat.
Proof. intros [H _]. exact H. Qed.

Lemma select_zeroshot_configs_h_frame g num prior removal thr h r h' :
  select_zeroshot_configs_h g num prior removal thr h = Some (r, h') ->
  frame h h' /\ (List.length h <= r)%nat.
Proof.
  intros H. unfold select_zeroshot_configs_h in H.
  destruct (bind_inv _ _ _ _ _ H) as (zs & h1 & Hz & H1). clear H.
  assert (Hzs : zs = List.length h /\ exists v, h1 = h ++ [v]).
  { destruct prior as [l|].
    - destruct (bind_inv _ _ _ _ _ Hz) as (v & h2 & Hr & Ha).
      destruct (read_inv _ _ _ _ Hr) as (-> & _).
      destruct (alloc_inv _ _ _ _ Ha) as (-> & ->). eauto.
    - destruct (alloc_inv _ _ _ _ Hz) as (-> & ->). eauto. }
  destruct Hzs as (-> & v & ->).
  pose proof (frame_alloc h h v (frame_refl h)) as Hf1.
  destruct (bind_inv _ _ _ _ _ H1) as (u & h2 & Hfw & H2). clear H1.
  pose proof (forward_loop_h_frame h _ _ _ _ _ _ _ u h2 Hf1 (le_n _) Hfw) as Hf2.
  destruct removal.
  - destruct (prune_zeroshot_configs_h_frame h _ _ _ _ _ _ Hf2 H2) as [Hf3 Hr].
    split; [exact Hf3|]. pose proof (frame_length _ _ Hf2). lia.
  - inversion H2; subst. split; [exact Hf2|lia].
Qed.

(** C10: neither [select_zeroshot_configs] nor [prune_zeroshot_configs]
    changes any list object that exists before the call: every location of
    the heap before the call, among them the caller's prior portfolio, the
    portfolio passed to [prune_zeroshot_configs] and the generator's
    candidate pool, holds the same list afterwards. The returned list is a
    new object, allocated during the call. *)
Theorem C10_caller_lists_unchanged (g : HGenerator) (num_zeroshot : Z)
    (zeroshot_configs : option loc) (removal_stage : bool) (removal_threshold : Z)
    (arg : loc) (h : heap) :
  (forall r h',
     select_zeroshot_configs_h g num_zeroshot zeroshot_configs removal_stage
       removal_threshold h = Some (r, h') ->
     frame h h' /\ (List.length h <= r)%nat) /\
  (forall r h',
     prune_zeroshot_configs_h (h_config_scorer g) arg removal_threshold h = Some (r, h') ->
     frame h h' /\ (List.length h <= r)%nat).
Proof.
  split.
  - intros r h' H. exact (select_zeroshot_configs_h_frame _ _ _ _ _ _ _ _ H).
  - intros r h' H. exact (prune_zeroshot_configs_h_frame h _ _ _ _ _ _ (frame_refl h) H).
Qed.

Lemma C10_caller_lists_unchanged_witness :
  select_zeroshot_configs_h example_hgen 2 (Some 1%nat) true 0 example_heap
    = Some (3%nat, example_heap ++ [[Some "B"; Some "A"]; []]%string) /\
  frame example_heap (example_heap ++ [[Some "B"; Some "A"]; []]%string) /\
  (List.length example_heap <= 3)%nat.
Proof.
  assert (E : select_zeroshot_configs_h example_hgen 2 (Some 1%nat) true 0 example_heap
    = Some (3%nat, example_heap ++ [[Some "B"; Some "A"]; []]%string))
    by (vm_compute; reflexivity).
  split; [exact E|].
  exact (proj1 (C10_caller_lists_unchanged example_hgen 2 (Some 1%nat) true 0 1%nat
                  example_heap) _ _ E).
Defined.
